(** * impers: the transfer scheduler, the write-callback bridge, the
      WebSocket session, the transfer object and the header container

    A shallow embedding of [src/core/multi.ts] ([CurlMulti] and
    [wrapWriteCallback]), of [src/websocket/websocket.ts]
    ([AsyncWebSocket]), of [core/easy.ts] and [core/slist.ts] ([Curl] and
    [SList]), of [src/http/headers.ts] ([Headers]) and of two wrappers of
    [src/ffi/libcurl.ts]: the message reader [curl_multi_info_read] and
    the frame reader [curl_ws_recv].

    The native engine (libcurl, reached through koffi) is not part of the
    program.  Every answer it gives is an explicit input of the function
    that makes the call, and every call the program makes is appended to a
    log kept in the state, so that statements can quantify over all
    behaviours of the engine and can speak about the calls that were made.

    Promises are modelled by an identifier allocated at creation and a log
    of the calls of their [resolve]/[reject] functions. *)

From Stdlib Require Import ZArith NArith List String Bool Arith Lia.
From Stdlib Require Import QArith Qround.
From Stdlib Require HexString.
From Stdlib Require Import Strings.Byte Strings.Ascii.
Import ListNotations.
Close Scope Q_scope.

Set Implicit Arguments.

(* ------------------------------------------------------------------ *)
(** ** JavaScript [Map]: a finite map that remembers insertion order *)

(** [for (const [, v] of map)] visits the entries in insertion order and
    [set] on a key that is present keeps the position of the entry, so the
    map is an association list with at most one entry per key. *)
Module JsMap.
Section Defs.
Variables K V : Type.
Variable eqb : K -> K -> bool.

Definition t := list (K * V).

Definition empty : t := [].

Fixpoint get (m : t) (k : K) : option V :=
  match m with
  | [] => None
  | (k', v) :: r => if eqb k' k then Some v else get r k
  end.

Fixpoint set (m : t) (k : K) (v : V) : t :=
  match m with
  | [] => [(k, v)]
  | (k', v') :: r =>
      if eqb k' k then (k', v) :: r else (k', v') :: set r k v
  end.

Definition delete (m : t) (k : K) : t :=
  filter (fun e => negb (eqb (fst e) k)) m.

Definition size (m : t) : nat := List.length m.

Definition values (m : t) : list V := map snd m.

Definition keys (m : t) : list K := map fst m.

(** The values of the map seen through a function [f]. *)
Definition image (I : Type) (f : V -> I) (m : t) : list I :=
  map (fun e => f (snd e)) m.

End Defs.
End JsMap.

(* ------------------------------------------------------------------ *)
(** ** The enumerations of [ffi/constants.ts] *)

(** [ffi/constants.ts] is not among the sources.  The values of the
    enumerations the two classes read are taken as a parameter; [libcurl]
    gives the values of curl's public headers ([curl.h], [multi.h],
    [websockets.h]), which is what the binding is loaded against. *)
Record Constants := {
  CURLE_OK : Z;
  CURLE_AGAIN : Z;
  CURLM_OK : Z;
  CURLM_CALL_MULTI_PERFORM : Z;
  CURLMSG_DONE : Z;
  CURLWS_TEXT : Z;
  CURLWS_BINARY : Z;
  CURLWS_CLOSE : Z;
  CURLWS_PING : Z;
  CURLWS_PONG : Z
}.

Definition libcurl : Constants := {|
  CURLE_OK := 0;
  CURLE_AGAIN := 81;
  CURLM_OK := 0;
  CURLM_CALL_MULTI_PERFORM := -1;
  CURLMSG_DONE := 1;
  CURLWS_TEXT := 1;
  CURLWS_BINARY := 2;
  CURLWS_CLOSE := 8;
  CURLWS_PING := 16;
  CURLWS_PONG := 64
|}.

(** [a !== b] on numbers. *)
Definition neqb (a b : Z) : bool := negb (Z.eqb a b).

(** A native handle is an opaque koffi pointer; what the program can tell
    of it is its address. *)
Definition CurlHandle := N.

(** [getHandleAddress]: [koffi.address(handle).toString(16)], the address
    in lower-case hexadecimal without prefix.  (The [catch] branch is for
    values koffi cannot take the address of, which a handle is not.) *)
Definition getHandleAddress (h : CurlHandle) : string :=
  match h with
  | N0 => "0"%string
  | Npos p => HexString.Raw.of_pos p ""
  end.

(* ------------------------------------------------------------------ *)
(** ** [CurlMulti]: the multi-transfer scheduler of [core/multi.ts] *)

Module Multi.

(** A [Curl] object as the scheduler sees it: its identity as a JavaScript
    object (the key of [curlToAddr]) and what [getHandle()] returns. *)
Record Curl := { curl_id : nat; getHandle : option CurlHandle }.

Record TransferResult := { code : Z }.

(** The [Error] values the class creates, one constructor per message. *)
Inductive Error :=
| ErrClosed                  (* "CurlMulti has been closed" *)
| ErrMultiNull               (* "CurlMulti handle is null" *)
| ErrCurlNull                (* "Curl handle is null" *)
| ErrAddHandle (c : Z)       (* "curl_multi_add_handle failed: ..." *)
| ErrPerform (c : Z)         (* "curl_multi_perform failed: ..." *)
| ErrPoll (c : Z)            (* "curl_multi_poll failed: ..." *)
| ErrTransfer (result : Z)   (* "Transfer failed with code ..." *)
| ErrCancelled               (* "Transfer cancelled" *)
| ErrMultiClosed.            (* "CurlMulti closed" *)

(** One call of a promise's [resolve] or [reject]. *)
Inductive Settlement :=
| Resolve (r : TransferResult)
| Reject (e : Error).

(** [resolve] and [reject] are the two functions of one promise; the
    record keeps the identifier of that promise. *)
Record PendingTransfer := {
  curl : Curl;
  pt_handle : CurlHandle;
  handleAddr : string;
  promise : nat
}.

Record MultiInfoMessage := { msg : Z; easyHandle : CurlHandle; result : Z }.

(** The calls made to the engine.  [curl_multi_add_handle] is logged with
    the status it answered, which decides whether the handle is in the
    multiplexing context afterwards. *)
Inductive NativeCall :=
| curl_multi_add_handle (h : CurlHandle) (answer : Z)
| curl_multi_remove_handle (h : CurlHandle)
| curl_multi_perform
| curl_multi_poll (timeoutMs : Z)
| curl_multi_info_read
| curl_multi_cleanup.

(** The fields of the class, then the observation logs.  [handle] and
    [pollTimer] record whether the field is non-null; [immediate] tells
    whether a [setImmediate] callback is still queued. *)
Record CurlMulti := {
  handle : bool;
  pendingTransfers : JsMap.t string PendingTransfer;
  curlToAddr : JsMap.t nat string;
  polling : bool;
  pollTimer : bool;
  closed : bool;
  immediate : bool;
  settled : list (nat * Settlement);
  nextPromise : nat;
  native : list NativeCall
}.

Definition set_handle (b : bool) (s : CurlMulti) : CurlMulti :=
  {| handle := b; pendingTransfers := pendingTransfers s;
     curlToAddr := curlToAddr s; polling := polling s;
     pollTimer := pollTimer s; closed := closed s; immediate := immediate s;
     settled := settled s; nextPromise := nextPromise s;
     native := native s |}.

Definition set_maps (p : JsMap.t string PendingTransfer)
    (c : JsMap.t nat string) (s : CurlMulti) : CurlMulti :=
  {| handle := handle s; pendingTransfers := p; curlToAddr := c;
     polling := polling s; pollTimer := pollTimer s; closed := closed s;
     immediate := immediate s; settled := settled s;
     nextPromise := nextPromise s; native := native s |}.

Definition set_polling (b : bool) (s : CurlMulti) : CurlMulti :=
  {| handle := handle s; pendingTransfers := pendingTransfers s;
     curlToAddr := curlToAddr s; polling := b; pollTimer := pollTimer s;
     closed := closed s; immediate := immediate s; settled := settled s;
     nextPromise := nextPromise s; native := native s |}.

Definition set_timer (t i : bool) (s : CurlMulti) : CurlMulti :=
  {| handle := handle s; pendingTransfers := pendingTransfers s;
     curlToAddr := curlToAddr s; polling := polling s; pollTimer := t;
     closed := closed s; immediate := i; settled := settled s;
     nextPromise := nextPromise s; native := native s |}.

Definition set_closed (b : bool) (s : CurlMulti) : CurlMulti :=
  {| handle := handle s; pendingTransfers := pendingTransfers s;
     curlToAddr := curlToAddr s; polling := polling s;
     pollTimer := pollTimer s; closed := b; immediate := immediate s;
     settled := settled s; nextPromise := nextPromise s;
     native := native s |}.

(** A call of [resolve] or [reject] of promise [p]. *)
Definition settle (p : nat) (x : Settlement) (s : CurlMulti) : CurlMulti :=
  {| handle := handle s; pendingTransfers := pendingTransfers s;
     curlToAddr := curlToAddr s; polling := polling s;
     pollTimer := pollTimer s; closed := closed s; immediate := immediate s;
     settled := settled s ++ [(p, x)]; nextPromise := nextPromise s;
     native := native s |}.

(** [new Promise(...)], or the promise of the [async] function. *)
Definition new_promise (s : CurlMulti) : CurlMulti :=
  {| handle := handle s; pendingTransfers := pendingTransfers s;
     curlToAddr := curlToAddr s; polling := polling s;
     pollTimer := pollTimer s; closed := closed s; immediate := immediate s;
     settled := settled s; nextPromise := S (nextPromise s);
     native := native s |}.

Definition call (c : NativeCall) (s : CurlMulti) : CurlMulti :=
  {| handle := handle s; pendingTransfers := pendingTransfers s;
     curlToAddr := curlToAddr s; polling := polling s;
     pollTimer := pollTimer s; closed := closed s; immediate := immediate s;
     settled := settled s; nextPromise := nextPromise s;
     native := native s ++ [c] |}.

(** The answers of the engine during one run of [pollLoop]:
    [curl_multi_perform]'s code and running count, the messages
    [curl_multi_info_read] hands out before it returns null, and
    [curl_multi_poll]'s code. *)
Record PollAnswers := {
  performCode : Z;
  runningHandles : Z;
  completions : list MultiInfoMessage;
  pollCode : Z
}.

Section Scheduler.
Variable K : Constants.

(** The constructor, when [curl_multi_init] gives a handle and no
    option is set. *)
Definition create : CurlMulti :=
  {| handle := true; pendingTransfers := []; curlToAddr := [];
     polling := false; pollTimer := false; closed := false;
     immediate := false; settled := []; nextPromise := 0;
     native := [] |}.

Definition findPendingByHandle (s : CurlMulti) (completedHandle : CurlHandle)
  : option PendingTransfer :=
  JsMap.get String.eqb (pendingTransfers s) (getHandleAddress completedHandle).

(** The body of the [while (info.message)] loop of [checkCompleted]. *)
Definition complete (s : CurlMulti) (m : MultiInfoMessage) : CurlMulti :=
  if Z.eqb (msg m) (CURLMSG_DONE K) then
    match findPendingByHandle s (easyHandle m) with
    | Some pending =>
        let s := call (curl_multi_remove_handle (pt_handle pending)) s in
        let s :=
          set_maps
            (JsMap.delete String.eqb (pendingTransfers s) (handleAddr pending))
            (JsMap.delete Nat.eqb (curlToAddr s) (curl_id (curl pending)))
            s in
        if Z.eqb (result m) (CURLE_OK K)
        then settle (promise pending) (Resolve {| code := result m |}) s
        else settle (promise pending) (Reject (ErrTransfer (result m))) s
    | None => s
    end
  else s.

Fixpoint drain (s : CurlMulti) (msgs : list MultiInfoMessage) : CurlMulti :=
  match msgs with
  | [] => call curl_multi_info_read s
  | m :: rest => drain (complete (call curl_multi_info_read s) m) rest
  end.

Definition checkCompleted (s : CurlMulti) (msgs : list MultiInfoMessage)
  : CurlMulti :=
  if negb (handle s) then s else drain s msgs.

(** The body of the [for ... of this.pendingTransfers] loop. *)
Definition fail_one (error : Error) (s : CurlMulti) (pending : PendingTransfer)
  : CurlMulti :=
  let s :=
    if handle s then call (curl_multi_remove_handle (pt_handle pending)) s
    else s in
  settle (promise pending) (Reject error) s.

Definition failAllPending (s : CurlMulti) (error : Error) : CurlMulti :=
  let s := fold_left (fail_one error) (JsMap.values (pendingTransfers s)) s in
  set_maps [] [] s.

Definition pollLoop (s : CurlMulti) (o : PollAnswers) : CurlMulti :=
  if closed s || negb (handle s) || Nat.eqb (JsMap.size (pendingTransfers s)) 0
  then set_polling false s
  else
    let s := call curl_multi_perform s in
    if neqb (performCode o) (CURLM_OK K)
       && neqb (performCode o) (CURLM_CALL_MULTI_PERFORM K)
    then set_polling false (failAllPending s (ErrPerform (performCode o)))
    else
      let s := checkCompleted s (completions o) in
      if Z.ltb 0 (runningHandles o)
         || Nat.ltb 0 (JsMap.size (pendingTransfers s))
      then
        let s := call (curl_multi_poll 10) s in
        if neqb (pollCode o) (CURLM_OK K)
        then set_polling false (failAllPending s (ErrPoll (pollCode o)))
        else set_timer true true s
      else set_polling false s.

Definition startPolling (s : CurlMulti) (o : PollAnswers) : CurlMulti :=
  if polling s || closed s then s
  else pollLoop (set_polling true s) o.

(** [perform(curl)].  [addCode] is what [curl_multi_add_handle] answers
    and [o] what the engine answers if [startPolling] enters [pollLoop].
    The result is the state and the promise the caller holds. *)
Definition perform (s : CurlMulti) (c : Curl) (addCode : Z) (o : PollAnswers)
  : CurlMulti * nat :=
  let p := nextPromise s in
  let s := new_promise s in
  if closed s then (settle p (Reject ErrClosed) s, p)
  else if negb (handle s) then (settle p (Reject ErrMultiNull) s, p)
  else
    match getHandle c with
    | None => (settle p (Reject ErrCurlNull) s, p)
    | Some easyHandle =>
        let addr := getHandleAddress easyHandle in
        let s := call (curl_multi_add_handle easyHandle addCode) s in
        if neqb addCode (CURLM_OK K)
        then (settle p (Reject (ErrAddHandle addCode)) s, p)
        else
          let transfer :=
            {| curl := c; pt_handle := easyHandle; handleAddr := addr;
               promise := p |} in
          let s :=
            set_maps (JsMap.set String.eqb (pendingTransfers s) addr transfer)
                     (JsMap.set Nat.eqb (curlToAddr s) (curl_id c) addr) s in
          (startPolling s o, p)
    end.

Definition cancel (s : CurlMulti) (c : Curl) : CurlMulti * bool :=
  if negb (handle s) then (s, false)
  else
    match JsMap.get Nat.eqb (curlToAddr s) (curl_id c) with
    | None => (s, false)
    | Some addr =>
        match JsMap.get String.eqb (pendingTransfers s) addr with
        | None => (s, false)
        | Some pending =>
            let s := call (curl_multi_remove_handle (pt_handle pending)) s in
            let s :=
              set_maps (JsMap.delete String.eqb (pendingTransfers s) addr)
                       (JsMap.delete Nat.eqb (curlToAddr s) (curl_id c)) s in
            (settle (promise pending) (Reject ErrCancelled) s, true)
        end
    end.

Definition close (s : CurlMulti) : CurlMulti :=
  if closed s then s
  else
    let s := set_closed true s in
    let s := if pollTimer s then set_timer false false s else s in
    let s := failAllPending s ErrMultiClosed in
    if handle s then set_handle false (call curl_multi_cleanup s) else s.

(** What can happen to a scheduler: a call of one of its three public
    methods, or the event loop running the queued [pollLoop]. *)
Inductive Action :=
| Perform (c : Curl) (addCode : Z) (o : PollAnswers)
| Cancel (c : Curl)
| Close
| Tick (o : PollAnswers).

Definition exec (s : CurlMulti) (a : Action) : CurlMulti :=
  match a with
  | Perform c addCode o => fst (perform s c addCode o)
  | Cancel c => fst (cancel s c)
  | Close => close s
  | Tick o => if immediate s then pollLoop (set_timer (pollTimer s) false s) o
              else s
  end.

Definition run (s : CurlMulti) (l : list Action) : CurlMulti :=
  fold_left exec l s.

(** The outcome recorded for a promise, if any. *)
Definition outcome (s : CurlMulti) (p : nat) : list Settlement :=
  map snd (filter (fun e => Nat.eqb (fst e) p) (settled s)).

(** Whether handle [h] is in the multiplexing context after the logged
    calls: it enters with a [curl_multi_add_handle] answered [CURLM_OK]
    and leaves with [curl_multi_remove_handle]. *)
Definition after_call (h : CurlHandle) (inside : bool) (c : NativeCall) : bool :=
  match c with
  | curl_multi_add_handle h' answer =>
      if N.eqb h' h && Z.eqb answer (CURLM_OK K) then true else inside
  | curl_multi_remove_handle h' => if N.eqb h' h then false else inside
  | _ => inside
  end.

Definition registered (log : list NativeCall) (h : CurlHandle) : bool :=
  fold_left (after_call h) log false.

(** *** Observations and invariants used in the statements *)

(** The rejections and the native removals made by [failAllPending]. *)
Definition rejections (e : Error) (l : list PendingTransfer)
  : list (nat * Settlement) :=
  map (fun p => (promise p, Reject e)) l.

Definition removals (l : list PendingTransfer) : list NativeCall :=
  map (fun p => curl_multi_remove_handle (pt_handle p)) l.

(** The promise identifiers held by the pending records. *)
Definition waiting (s : CurlMulti) : list nat :=
  JsMap.image promise (pendingTransfers s).

(** The promise identifiers whose [resolve] or [reject] was called. *)
Definition done (s : CurlMulti) : list nat := map fst (settled s).

(** What every state of a scheduler satisfies. *)
Record Inv (s : CurlMulti) : Prop := {
  inv_done : NoDup (done s);
  inv_waiting : NoDup (waiting s);
  inv_apart : forall p, In p (done s) -> ~ In p (waiting s);
  inv_done_lt : forall p, In p (done s) -> p < nextPromise s;
  inv_waiting_lt : forall p, In p (waiting s) -> p < nextPromise s;
  inv_key : forall k t, In (k, t) (pendingTransfers s) -> handleAddr t = k;
  inv_open : closed s = false -> handle s = true;
  inv_null : handle s = false -> pendingTransfers s = []
}.

Definition grows (s s' : CurlMulti) : Prop :=
  exists ext, settled s' = settled s ++ ext.

(** The calls recorded for one promise. *)
Definition calls_of (p : nat) (log : list (nat * Settlement)) : list Settlement :=
  map snd (filter (fun e => Nat.eqb (fst e) p) log).

(** A closed scheduler has no native context and holds nothing. *)
Definition Shut (s : CurlMulti) : Prop :=
  closed s = true ->
  handle s = false /\ pendingTransfers s = [] /\ curlToAddr s = [].

(** Every pending record is that of a handle the engine still holds. *)
Definition Reg (s : CurlMulti) : Prop :=
  forall k t, In (k, t) (pendingTransfers s) ->
    handleAddr t = getHandleAddress (pt_handle t) /\
    registered (native s) (pt_handle t) = true.

(** While records are pending the poll loop is running. *)
Definition Busy (s : CurlMulti) : Prop :=
  pendingTransfers s <> [] -> polling s = true.

(** The state in which [perform] stores the record of a new promise. *)
Definition stored (s : CurlMulti) (c : Curl) (h : CurlHandle) (a : Z) : CurlMulti :=
  set_maps
    (JsMap.set String.eqb (pendingTransfers s) (getHandleAddress h)
       {| curl := c; pt_handle := h; handleAddr := getHandleAddress h;
          promise := nextPromise s |})
    (JsMap.set Nat.eqb (curlToAddr s) (curl_id c) (getHandleAddress h))
    (call (curl_multi_add_handle h a) (new_promise s)).

(** A run of [pollLoop] is queued only while [polling] is set, so
    [startPolling] never starts a second loop next to a queued one: one
    flag for the queued callback loses nothing. *)
Definition Queued (s : CurlMulti) : Prop :=
  immediate s = true -> polling s = true.

End Scheduler.
End Multi.

(* ------------------------------------------------------------------ *)
(** ** [wrapWriteCallback]: the bridge for native write callbacks *)

Module Bridge.

(** Native memory, read byte by byte. *)
Definition Memory := N -> byte.

(** What koffi hands to the registered function as [data]: an external
    pointer for a [void *] argument, or (when the function is called from
    JavaScript) a [Buffer]. *)
Inductive NativeData :=
| Pointer (addr : N)
| BufferObject (contents : list byte).

(** The [Buffer] given to the caller's function: built by [Buffer.from]
    from an array of numbers, which copies, or by [subarray], which shares
    the memory of the buffer it is taken from. *)
Inductive Chunk :=
| Copied (bytes : list byte)
| Subarray (buffer : list byte) (stop : nat).

Definition chunk_bytes (c : Chunk) : list byte :=
  match c with
  | Copied b => b
  | Subarray b stop => firstn stop b
  end.

(** [(chunk: Buffer) => number | void]. *)
Definition WriteCallback := Chunk -> option Z.

(** [koffi.decode(data, koffi.array("uint8", length))]. *)
Definition decode (mem : Memory) (addr : N) (length : nat) : list byte :=
  map (fun i => mem (addr + N.of_nat i)%N) (seq 0 length).

(** One run of the registered function: the chunk [fn] was called with,
    if it was called, and the number returned to the engine. *)
Record Invocation := { passed : option Chunk; returned : Z }.

Definition wrapWriteCallback (fn : WriteCallback)
    (mem : Memory) (data : NativeData) (size nmemb : N) : Invocation :=
  let length := (size * nmemb)%N in
  if N.eqb length 0 then {| passed := None; returned := 0 |}
  else
    let chunk :=
      match data with
      | BufferObject b => Subarray b (N.to_nat length)
      | Pointer addr => Copied (decode mem addr (N.to_nat length))
      end in
    {| passed := Some chunk;
       returned := match fn chunk with
                   | Some n => n
                   | None => Z.of_N length
                   end |}.

End Bridge.

(* ------------------------------------------------------------------ *)
(** ** [AsyncWebSocket]: the session of [websocket/websocket.ts] *)

Module WS.

Inductive WebSocketMessageType := TEXT | BINARY | PING | PONG | CLOSE.

Record WebSocketMessage := { type : WebSocketMessageType; data : list byte }.

Record WebSocketCloseEvent := { code : Z; reason : string; wasClean : bool }.

(** The messages of the errors the class creates. *)
Inductive ErrorText :=
| ReceiveError (c : Z)            (* "Receive error: <code>" *)
| ReceiveTimeout                  (* "Receive timeout" *)
| SendFailed (c : Z)              (* "Send failed with code <code>" *)
| IncompleteSend (sent : Z) (len : nat).
                                  (* "Incomplete send: <sent>/<len> bytes" *)

(** [WebSocketError(message, code?)] and [WebSocketClosed(closeCode,
    closeReason)] of [utils/errors.ts]; [RangeError] is what
    [Buffer.writeUInt16BE] throws for a value outside 0..65535. *)
Inductive Error :=
| WebSocketError (message : ErrorText) (errCode : option Z)
| WebSocketClosed (closeCode : Z) (closeReason : string)
| RangeError.

(** How a call ends: it returns (a promise resolves) or it throws (the
    promise rejects). *)
Inductive Result (A : Type) :=
| Return (a : A)
| Throw (e : Error).
Arguments Return {A} a.
Arguments Throw {A} e.

Inductive NativeCall :=
| curl_ws_recv
| curl_ws_send (payload : list byte) (flags : Z)
| curl_easy_cleanup.

(** The fields of the class the methods below read or write, and the log
    of the native calls.  [pollTimer] records whether the field is
    non-null. *)
Record AsyncWebSocket := {
  _connected : bool;
  _closed : bool;
  _closeEvent : option WebSocketCloseEvent;
  receiveBuffer : list byte;
  messageQueue : list WebSocketMessage;
  pollTimer : bool;
  native : list NativeCall
}.

Definition call (c : NativeCall) (ws : AsyncWebSocket) : AsyncWebSocket :=
  {| _connected := _connected ws; _closed := _closed ws;
     _closeEvent := _closeEvent ws; receiveBuffer := receiveBuffer ws;
     messageQueue := messageQueue ws; pollTimer := pollTimer ws;
     native := native ws ++ [c] |}.

Definition set_buffer (b : list byte) (ws : AsyncWebSocket) : AsyncWebSocket :=
  {| _connected := _connected ws; _closed := _closed ws;
     _closeEvent := _closeEvent ws; receiveBuffer := b;
     messageQueue := messageQueue ws; pollTimer := pollTimer ws;
     native := native ws |}.

Definition set_queue (q : list WebSocketMessage) (ws : AsyncWebSocket)
  : AsyncWebSocket :=
  {| _connected := _connected ws; _closed := _closed ws;
     _closeEvent := _closeEvent ws; receiveBuffer := receiveBuffer ws;
     messageQueue := q; pollTimer := pollTimer ws; native := native ws |}.

Definition set_pollTimer (t : bool) (ws : AsyncWebSocket) : AsyncWebSocket :=
  {| _connected := _connected ws; _closed := _closed ws;
     _closeEvent := _closeEvent ws; receiveBuffer := receiveBuffer ws;
     messageQueue := messageQueue ws; pollTimer := t; native := native ws |}.

(** [this._closeEvent = ev; this._closed = true; this._connected = false]. *)
Definition set_closed (ev : WebSocketCloseEvent) (ws : AsyncWebSocket)
  : AsyncWebSocket :=
  {| _connected := false; _closed := true; _closeEvent := Some ev;
     receiveBuffer := receiveBuffer ws; messageQueue := messageQueue ws;
     pollTimer := pollTimer ws; native := native ws |}.

(** [x?.code || d]: the default is taken when there is no event and also
    when the number is 0. *)
Definition code_or (ev : option WebSocketCloseEvent) (d : Z) : Z :=
  match ev with
  | Some e => if Z.eqb (code e) 0 then d else code e
  | None => d
  end.

(** [x?.reason || d]: the default is taken when there is no event and
    also when the string is empty. *)
Definition reason_or (ev : option WebSocketCloseEvent) (d : string) : string :=
  match ev with
  | Some e => if String.eqb (reason e) "" then d else reason e
  | None => d
  end.

(** [buf.readUInt16BE(0)] on a buffer of two bytes or more. *)
Definition readUInt16BE (b : list byte) : Z :=
  match b with
  | hi :: lo :: _ => Z.of_N (Byte.to_N hi) * 256 + Z.of_N (Byte.to_N lo)
  | _ => 0
  end.

(** [Buffer.toString("utf-8")] and [Buffer.from(text, "utf-8")]: a string
    is represented by its UTF-8 bytes, which are taken to be well formed
    (for bytes that are not, [toString] puts U+FFFD in their place). *)
Definition utf8_decode (b : list byte) : string := string_of_list_byte b.
Definition utf8_encode (s : string) : list byte := list_byte_of_string s.

(** The answers of the engine: of [curl_ws_recv] (with the contents of
    [receiveBuffer] after the call) and of [curl_ws_send]. *)
Record RecvAnswer := {
  recvCode : Z;
  received : nat;
  frame : option Z;
  written : list byte
}.

Record SendAnswer := { sendCode : Z; sent : Z }.

(** One run of [poll] inside [recv]: what [Date.now()] gives, and the
    engine's answers should the run come to read a frame and to reply to a
    ping. *)
Record Tick := { now : Z; recvAnswer : RecvAnswer; pongAnswer : SendAnswer }.

Inductive PingData :=
| PingBuffer (b : list byte)
| PingString (s : string).

(** A JavaScript number: a finite double, given by its value, an
    infinity, or [NaN].  (The two zeros are one value here; [>=] does not
    tell them apart.) *)
Inductive Number :=
| Finite (q : Q)
| PlusInfinity
| MinusInfinity
| NaN.

(** [a >= b]. *)
Definition ge (a b : Number) : bool :=
  match a, b with
  | NaN, _ | _, NaN => false
  | _, MinusInfinity => true
  | PlusInfinity, _ => true
  | Finite x, Finite y => Qle_bool y x
  | _, _ => false
  end.

(** What the statements about time limits take from the rounding [fl] of
    double arithmetic: it carries no value across a whole number that is a
    double.  Rounding to nearest does not, being monotone and leaving
    doubles as they are, and the whole numbers up to 2^53 are doubles. *)
Definition keeps_whole_numbers (fl : Q -> Number) : Prop :=
  forall (x : Q) (n : Z), (Z.abs n <= 2 ^ 53)%Z ->
    ((x <= inject_Z n)%Q -> ge (Finite (inject_Z n)) (fl x) = true) /\
    ((inject_Z n <= x)%Q -> ge (fl x) (Finite (inject_Z n)) = true).

(** *** Rounding to the nearest double

    A JavaScript number is an IEEE 754 binary64 value and [x * y] gives
    the double nearest to the exact product, the one with the even
    significand when two are equally near, and an infinity from 2^1024
    on.  A double is [m * 2^e] with [m] below 2^53 and [e] from -1074. *)

(** The whole number nearest to [n / d], the even one when two are
    equally near. *)
Definition nearest_even (n : Z) (d : positive) : Z :=
  let q := (n / Zpos d)%Z in
  let r := (n mod Zpos d)%Z in
  match (2 * r ?= Zpos d)%Z with
  | Lt => q
  | Gt => (q + 1)%Z
  | Eq => if Z.even q then q else (q + 1)%Z
  end.

(** [2 ^ k <= a / d]. *)
Definition at_least_pow2 (a d : positive) (k : Z) : bool :=
  if (0 <=? k)%Z then (Zpos d * 2 ^ k <=? Zpos a)%Z
  else (Zpos d <=? Zpos a * 2 ^ (- k))%Z.

(** The [k] with [2 ^ k <= a / d < 2 ^ (k + 1)]. *)
Definition binade (a d : positive) : Z :=
  let k := (Z.log2 (Zpos a) - Z.log2 (Zpos d))%Z in
  if at_least_pow2 a d k then k else (k - 1)%Z.

(** The double nearest to [a / d], as its significand and the exponent of
    its last place: 53 significant bits, fewer below 2^-1022. *)
Definition nearest_double (a d : positive) : Z * Z :=
  let e := Z.max (binade a d - 52)%Z (-1074)%Z in
  let m :=
    if (0 <=? e)%Z then nearest_even (Zpos a) (d * Z.to_pos (2 ^ e)%Z)%positive
    else nearest_even (Zpos a * 2 ^ (- e))%Z d in
  (m, e).

(** [m * 2 ^ e]. *)
Definition scaled (m e : Z) : Q :=
  if (0 <=? e)%Z then inject_Z (m * 2 ^ e)%Z
  else Qmake m (Z.to_pos (2 ^ (- e))%Z).

Definition binary64 (x : Q) : Number :=
  match Qnum x with
  | Z0 => Finite 0
  | Zpos a =>
      let (m, e) := nearest_double a (Qden x) in
      if (0 <=? e)%Z && (2 ^ 1024 <=? m * 2 ^ e)%Z then PlusInfinity
      else Finite (scaled m e)
  | Zneg a =>
      let (m, e) := nearest_double a (Qden x) in
      if (0 <=? e)%Z && (2 ^ 1024 <=? m * 2 ^ e)%Z then MinusInfinity
      else Finite (scaled (- m) e)
  end.

Section Session.
Variable K : Constants.

(** [fl x] is the result double arithmetic gives for an operation whose
    exact result is [x]: the double nearest to [x], or an infinity when
    [x] is out of range.  The session is defined for any [fl]; the one of
    the program is [binary64], and a statement that holds for more says
    what it takes from [fl]. *)
Variable fl : Q -> Number.

(** [x * y]. *)
Definition multiply (x y : Number) : Number :=
  match x, y with
  | NaN, _ | _, NaN => NaN
  | Finite a, Finite b => fl (a * b)
  | Finite a, PlusInfinity | PlusInfinity, Finite a =>
      match (0 ?= a)%Q with
      | Eq => NaN
      | Lt => PlusInfinity
      | Gt => MinusInfinity
      end
  | Finite a, MinusInfinity | MinusInfinity, Finite a =>
      match (0 ?= a)%Q with
      | Eq => NaN
      | Lt => MinusInfinity
      | Gt => PlusInfinity
      end
  | PlusInfinity, PlusInfinity | MinusInfinity, MinusInfinity => PlusInfinity
  | PlusInfinity, MinusInfinity | MinusInfinity, PlusInfinity => MinusInfinity
  end.

(** The session after a successful [connect]; [size] is the length of
    the receive buffer. *)
Definition connect (size : nat) : AsyncWebSocket :=
  {| _connected := true; _closed := false; _closeEvent := None;
     receiveBuffer := repeat x00 size; messageQueue := [];
     pollTimer := false; native := [] |}.

Definition connected (ws : AsyncWebSocket) : bool :=
  _connected ws && negb (_closed ws).

Definition sendRaw (ws : AsyncWebSocket) (data : list byte) (flags : Z)
    (a : SendAnswer) : AsyncWebSocket * Result unit :=
  if _closed ws then
    (ws, Throw (WebSocketClosed (code_or (_closeEvent ws) 1006)
                                (reason_or (_closeEvent ws) "Connection closed")))
  else
    let ws := call (curl_ws_send data flags) ws in
    if neqb (sendCode a) (CURLE_OK K) then
      (ws, Throw (WebSocketError (SendFailed (sendCode a)) None))
    else if neqb (sent a) (Z.of_nat (List.length data)) then
      (ws, Throw (WebSocketError (IncompleteSend (sent a) (List.length data)) None))
    else (ws, Return tt).

Definition send (ws : AsyncWebSocket) (data : list byte) (a : SendAnswer) :=
  sendRaw ws data (CURLWS_BINARY K) a.

Definition sendStr (ws : AsyncWebSocket) (text : string) (a : SendAnswer) :=
  sendRaw ws (utf8_encode text) (CURLWS_TEXT K) a.

Definition sendBinary (ws : AsyncWebSocket) (data : list byte) (a : SendAnswer) :=
  send ws data a.

Definition ping (ws : AsyncWebSocket) (data : option PingData) (a : SendAnswer) :=
  let buffer :=
    match data with
    | Some (PingBuffer b) => b
    | Some (PingString s) => utf8_encode s
    | None => []
    end in
  sendRaw ws buffer (CURLWS_PING K) a.

Definition sendPong (ws : AsyncWebSocket) (data : list byte) (a : SendAnswer) :=
  sendRaw ws data (CURLWS_PONG K) a.

(** [flags & bit] used as a condition. *)
Definition has_flag (flags bit : Z) : bool := neqb (Z.land flags bit) 0.

Definition frameToMessage (data : list byte) (flags : Z)
  : option WebSocketMessage :=
  if has_flag flags (CURLWS_TEXT K) then Some {| type := TEXT; data := data |}
  else if has_flag flags (CURLWS_BINARY K) then Some {| type := BINARY; data := data |}
  else if has_flag flags (CURLWS_PING K) then Some {| type := PING; data := data |}
  else if has_flag flags (CURLWS_PONG K) then Some {| type := PONG; data := data |}
  else if has_flag flags (CURLWS_CLOSE K) then Some {| type := CLOSE; data := data |}
  else Some {| type := BINARY; data := data |}.

(** The kind [frameToMessage] gives a frame under the flags [tryReceive]
    takes when it is handed no frame metadata. *)
Definition default_type : WebSocketMessageType :=
  if neqb (CURLWS_TEXT K) 0 then TEXT else BINARY.

Definition handleCloseFrame (ws : AsyncWebSocket) (data : list byte)
  : AsyncWebSocket :=
  let code := if Nat.leb 2 (List.length data) then readUInt16BE data else 1000%Z in
  let reason :=
    if Nat.leb 2 (List.length data) && Nat.ltb 2 (List.length data)
    then utf8_decode (skipn 2 data) else ""%string in
  set_closed {| code := code; reason := reason; wasClean := true |} ws.

Definition is_type (a b : WebSocketMessageType) : bool :=
  match a, b with
  | TEXT, TEXT | BINARY, BINARY | PING, PING | PONG, PONG | CLOSE, CLOSE => true
  | _, _ => false
  end.

(** [tryReceive].  [r] is the answer of [curl_ws_recv]; [pong] is the
    answer of [curl_ws_send] should a pong be sent. *)
Definition tryReceive (ws : AsyncWebSocket) (r : RecvAnswer) (pong : SendAnswer)
  : AsyncWebSocket * Result (option WebSocketMessage) :=
  if _closed ws then (ws, Return None)
  else
    let ws := set_buffer (written r) (call curl_ws_recv ws) in
    if Z.eqb (recvCode r) (CURLE_OK K) && Nat.ltb 0 (received r) then
      let data := firstn (received r) (receiveBuffer ws) in
      let flags := match frame r with Some f => f | None => CURLWS_TEXT K end in
      match frameToMessage data flags with
      | Some message =>
          if is_type (type message) CLOSE then
            let ws := handleCloseFrame ws (WS.data message) in
            (ws, Throw (WebSocketClosed (code_or (_closeEvent ws) 1000)
                                        (reason_or (_closeEvent ws) "")))
          else
            let ws :=
              if is_type (type message) PING
              then fst (sendPong ws (WS.data message) pong)
              else ws in
            (ws, Return (Some message))
      | None => (ws, Return None)
      end
    else if Z.eqb (recvCode r) (CURLE_AGAIN K) then (ws, Return None)
    else if neqb (recvCode r) (CURLE_OK K) then
      (ws, Throw (WebSocketError (ReceiveError (recvCode r)) None))
    else (ws, Return None).

(** [timeout !== undefined ? timeout * 1000 : Infinity]; [None] is an
    omitted timeout. *)
Definition timeoutMs (timeout : option Number) : Number :=
  match timeout with
  | Some t => multiply t (Finite 1000)
  | None => PlusInfinity
  end.

(** [Date.now() - startTime >= timeoutMs].  [Date.now()] gives a whole
    number of milliseconds, and the difference of two readings less than
    2^53 apart is exact. *)
Definition timed_out (startTime : Z) (limit : Number) (now : Z) : bool :=
  ge (Finite (inject_Z (now - startTime))) limit.

(** One run of the closure [poll] of [recv]: [Some] when the promise is
    settled, [None] when the next run was scheduled with [setTimeout]. *)
Definition poll (ws : AsyncWebSocket) (startTime : Z) (limit : Number)
    (t : Tick) : AsyncWebSocket * option (Result WebSocketMessage) :=
  if timed_out startTime limit (now t) then
    (set_pollTimer false ws,
     Some (Throw (WebSocketError ReceiveTimeout None)))
  else if _closed ws then
    (set_pollTimer false ws,
     Some (Throw (WebSocketClosed (code_or (_closeEvent ws) 1006)
                                  (reason_or (_closeEvent ws) "Connection closed"))))
  else
    match tryReceive ws (recvAnswer t) (pongAnswer t) with
    | (ws, Return (Some message)) =>
        (set_pollTimer false ws, Some (Return message))
    | (ws, Return None) => (set_pollTimer true ws, None)
    | (ws, Throw error) => (set_pollTimer false ws, Some (Throw error))
    end.

Fixpoint poll_again (ws : AsyncWebSocket) (startTime : Z) (limit : Number)
    (later : list Tick) : AsyncWebSocket * option (Result WebSocketMessage) :=
  match later with
  | [] => (ws, None)
  | t :: rest =>
      match poll ws startTime limit t with
      | (ws, Some r) => (ws, Some r)
      | (ws, None) => poll_again ws startTime limit rest
      end
  end.

(** [recv(timeout)].  [startTime] is the first [Date.now()]; [first] is
    the run of [poll] made by [recv] itself and [later] are the runs made
    from the timer.  The result is [None] while the promise is pending. *)
Definition recv (ws : AsyncWebSocket) (timeout : option Number) (startTime : Z)
    (first : Tick) (later : list Tick)
  : AsyncWebSocket * option (Result WebSocketMessage) :=
  if _closed ws then
    (ws, Some (Throw (WebSocketClosed (code_or (_closeEvent ws) 1006)
                                      (reason_or (_closeEvent ws) "Connection closed"))))
  else
    match messageQueue ws with
    | m :: q => (set_queue q ws, Some (Return m))
    | [] => poll_again ws startTime (timeoutMs timeout) (first :: later)
    end.

(** [buf.writeUInt16BE(code, 0)] followed by the bytes of the reason. *)
Definition close_payload (code : Z) (reason : string) : list byte :=
  match Byte.of_N (Z.to_N (code / 256)), Byte.of_N (Z.to_N (code mod 256)) with
  | Some hi, Some lo => hi :: lo :: utf8_encode reason
  | _, _ => utf8_encode reason
  end.

Definition close (ws : AsyncWebSocket) (code : Z) (reason : string)
    (a : SendAnswer) : AsyncWebSocket * Result unit :=
  if _closed ws then (ws, Return tt)
  else if Z.ltb code 0 || Z.ltb 65535 code then (ws, Throw RangeError)
  else
    let ws := fst (sendRaw ws (close_payload code reason) (CURLWS_CLOSE K) a) in
    let ws := set_closed {| code := code; reason := reason; wasClean := true |} ws in
    let ws := set_pollTimer false ws in
    (call curl_easy_cleanup ws, Return tt).

(** The three public send operations, with their argument. *)
Inductive SendOp :=
| OpSend (data : list byte)
| OpSendStr (text : string)
| OpPing (data : option PingData).

Definition send_op (ws : AsyncWebSocket) (op : SendOp) (a : SendAnswer)
  : AsyncWebSocket * Result unit :=
  match op with
  | OpSend d => send ws d a
  | OpSendStr t => sendStr ws t a
  | OpPing d => ping ws d a
  end.

(** The bytes and the frame flag an operation hands to [sendRaw]. *)
Definition op_payload (op : SendOp) : list byte :=
  match op with
  | OpSend d => d
  | OpSendStr t => utf8_encode t
  | OpPing (Some (PingBuffer b)) => b
  | OpPing (Some (PingString s)) => utf8_encode s
  | OpPing None => []
  end.

Definition op_flag (op : SendOp) : Z :=
  match op with
  | OpSend _ => CURLWS_BINARY K
  | OpSendStr _ => CURLWS_TEXT K
  | OpPing _ => CURLWS_PING K
  end.

(** What can happen to a session after [connect]. *)
Inductive Action :=
| Send (data : list byte) (a : SendAnswer)
| SendStr (text : string) (a : SendAnswer)
| Ping (data : option PingData) (a : SendAnswer)
| Recv (timeout : option Number) (startTime : Z) (first : Tick)
       (later : list Tick)
| Close (code : Z) (reason : string) (a : SendAnswer).

Definition exec (ws : AsyncWebSocket) (act : Action) : AsyncWebSocket :=
  match act with
  | Send d a => fst (send ws d a)
  | SendStr s a => fst (sendStr ws s a)
  | Ping d a => fst (ping ws d a)
  | Recv t s f l => fst (recv ws t s f l)
  | Close c r a => fst (close ws c r a)
  end.

Definition run (ws : AsyncWebSocket) (l : list Action) : AsyncWebSocket :=
  fold_left exec l ws.

End Session.
End WS.

(* ------------------------------------------------------------------ *)
(** ** Sample inputs *)

(** Two transfer objects on distinct native handles, a third object that
    wraps the handle of the first, and some answers of the engine. *)
Module Samples.
Import Multi.

Definition curlA : Curl := {| curl_id := 1; getHandle := Some 4096%N |}.
Definition curlB : Curl := {| curl_id := 2; getHandle := Some 8192%N |}.

Definition curlC : Curl := {| curl_id := 3; getHandle := Some 12288%N |}.

(** [curl_multi_perform] and [curl_multi_poll] succeed, nothing has
    completed, something is running. *)
Definition quiet : PollAnswers :=
  {| performCode := 0; runningHandles := 1; completions := []; pollCode := 0 |}.

(** [curl_multi_perform] answers [CURLM_BAD_HANDLE]. *)
Definition perform_fault : PollAnswers :=
  {| performCode := 1; runningHandles := 0; completions := []; pollCode := 0 |}.

(** The transfer on handle 0x1000 completes with [CURLE_OK], then
    [curl_multi_poll] answers [CURLM_OUT_OF_MEMORY]. *)
Definition poll_fault : PollAnswers :=
  {| performCode := 0; runningHandles := 1;
     completions := [{| msg := 1; easyHandle := 4096%N; result := 0 |}];
     pollCode := 3 |}.

(** The transfers on 0x2000, 0x1000 and 0x3000 complete in this order,
    the second one with [CURLE_COULDNT_CONNECT]. *)
Definition all_done : PollAnswers :=
  {| performCode := 0; runningHandles := 0;
     completions := [{| msg := 1; easyHandle := 8192%N; result := 0 |};
                     {| msg := 1; easyHandle := 4096%N; result := 7 |};
                     {| msg := 1; easyHandle := 12288%N; result := 0 |}];
     pollCode := 0 |}.

(** [curl_multi_perform] answers [CURLM_CALL_MULTI_PERFORM]. *)
Definition call_again : PollAnswers :=
  {| performCode := -1; runningHandles := 1; completions := []; pollCode := 0 |}.

Definition recordA (p : nat) : PendingTransfer :=
  {| curl := curlA; pt_handle := 4096%N; handleAddr := "1000"; promise := p |}.

Definition recordB (p : nat) : PendingTransfer :=
  {| curl := curlB; pt_handle := 8192%N; handleAddr := "2000"; promise := p |}.

(** A scheduler with the two transfers pending and the poll loop queued. *)
Definition two_pending : CurlMulti :=
  Eval vm_compute in
    run libcurl create [Perform curlA 0 quiet; Perform curlB 0 quiet].

(** A native memory whose byte at address [a] is [a mod 256]. *)
Definition ramp : Bridge.Memory :=
  fun a => match Byte.of_N (a mod 256) with Some b => b | None => x00 end.

(** A chunk function that returns nothing, and one that consumes one
    byte. *)
Definition silent : Bridge.WriteCallback := fun _ => None.
Definition one_byte : Bridge.WriteCallback := fun _ => Some 1%Z.

(** A session with a receive buffer of eight bytes. *)
Definition session : WS.AsyncWebSocket := WS.connect 8.

(** The engine's answer to a send of [n] bytes that succeeds. *)
Definition sent_all (n : Z) : WS.SendAnswer :=
  {| WS.sendCode := 0; WS.sent := n |}.

(** [curl_ws_send] fails with [CURLE_SEND_ERROR]. *)
Definition send_error : WS.SendAnswer := {| WS.sendCode := 55; WS.sent := 0 |}.

(** A close frame with code 1001 and reason "bye". *)
Definition close_1001_bye : WS.RecvAnswer :=
  {| WS.recvCode := 0; WS.received := 5; WS.frame := Some 8%Z;
     WS.written := [x03; xe9; "b"%byte; "y"%byte; "e"%byte; x00; x00; x00] |}.

(** A text frame "hi". *)
Definition text_hi : WS.RecvAnswer :=
  {| WS.recvCode := 0; WS.received := 2; WS.frame := Some 1%Z;
     WS.written := ["h"%byte; "i"%byte; x00; x00; x00; x00; x00; x00] |}.

Definition tick (now : Z) (r : WS.RecvAnswer) (pong : WS.SendAnswer) : WS.Tick :=
  {| WS.now := now; WS.recvAnswer := r; WS.pongAnswer := pong |}.

End Samples.

(* ------------------------------------------------------------------ *)
(** ** Runs of the scheduler: what is observed of them *)

Module MultiRuns.
Import Multi.
Section Runs.
Variable K : Constants.

(** An open scheduler whose loop is running has its next run queued. *)
Definition Live (s : CurlMulti) : Prop :=
  closed s = false -> polling s = true -> immediate s = true.

(** What the status carried by a settlement says about it: a promise is
    resolved with [CURLE_OK] only, and the status in an error is one the
    method took for a failure. *)
Definition sound (e : nat * Settlement) : Prop :=
  match snd e with
  | Resolve r => code r = CURLE_OK K
  | Reject (ErrTransfer c) => c <> CURLE_OK K
  | Reject (ErrAddHandle c) => c <> CURLM_OK K
  | Reject (ErrPerform c) => c <> CURLM_OK K /\ c <> CURLM_CALL_MULTI_PERFORM K
  | Reject (ErrPoll c) => c <> CURLM_OK K
  | Reject _ => True
  end.

(** The call of [resolve] or [reject] that [checkCompleted] makes for a
    message, given the records held when the loop starts. *)
Definition settlement (m : MultiInfoMessage) : Settlement :=
  if Z.eqb (result m) (CURLE_OK K) then Resolve {| code := result m |}
  else Reject (ErrTransfer (result m)).

Definition report (s : CurlMulti) (m : MultiInfoMessage)
  : list (nat * Settlement) :=
  if Z.eqb (msg m) (CURLMSG_DONE K) then
    match findPendingByHandle s (easyHandle m) with
    | Some pending => [(promise pending, settlement m)]
    | None => []
    end
  else [].

(** The native calls [checkCompleted] makes for a message. *)
Definition unregister (s : CurlMulti) (m : MultiInfoMessage) : list NativeCall :=
  if Z.eqb (msg m) (CURLMSG_DONE K) then
    match findPendingByHandle s (easyHandle m) with
    | Some pending =>
        [curl_multi_info_read; curl_multi_remove_handle (pt_handle pending)]
    | None => [curl_multi_info_read]
    end
  else [curl_multi_info_read].

(** An engine that refuses to register a handle it holds, as libcurl does
    with [CURLM_ADDED_ALREADY]. *)
Definition obeys (s : CurlMulti) (a : Action) : Prop :=
  match a with
  | Perform c addCode _ =>
      forall h, getHandle c = Some h ->
        registered K (native s) h = true -> addCode <> CURLM_OK K
  | _ => True
  end.

Fixpoint respects (s : CurlMulti) (l : list Action) : Prop :=
  match l with
  | [] => True
  | a :: rest => obeys s a /\ respects (exec K s a) rest
  end.

(** Every promise handed out is settled or held by a pending record, and
    no two records share a key. *)
Record Kept (s : CurlMulti) : Prop := {
  kept_keys : NoDup (JsMap.keys (pendingTransfers s));
  kept_all : forall p, p < nextPromise s -> In p (done s) \/ In p (waiting s)
}.

(** The rejections of the promises [first .. first + n - 1] by [perform]
    on a closed scheduler. *)
Definition refusals (first n : nat) : list (nat * Settlement) :=
  map (fun p => (p, Reject ErrClosed)) (seq first n).

End Runs.
End MultiRuns.

(* ------------------------------------------------------------------ *)
(** ** Histories of a WebSocket session, and its async iterator *)

Module WSRuns.
Import WS.
Section Runs.
Variable K : Constants.
Variable fl : Q -> Number.

(** What can happen to a session: a call of a public method, or the timer
    set by a pending [recv] running its closure [poll] once more (which
    it does only while [pollTimer] holds it). *)
Inductive Event :=
| Call (act : Action)
| Timer (startTime : Z) (limit : Number) (t : Tick).

Definition step (ws : AsyncWebSocket) (e : Event) : AsyncWebSocket :=
  match e with
  | Call act => exec K fl ws act
  | Timer startTime limit t =>
      if pollTimer ws then fst (poll K ws startTime limit t) else ws
  end.

Definition steps (ws : AsyncWebSocket) (l : list Event) : AsyncWebSocket :=
  fold_left step l ws.

(** The answers one [recv()] of the iterator gets: the first
    [Date.now()] and the runs of [poll]. *)
Record Round := { startTime : Z; first : Tick; later : list Tick }.

(** How a consumption of the iterator ends: the generator returns, it
    throws, or it is left waiting in a [recv()]. *)
Inductive Ending :=
| Finished
| Failed (e : Error)
| Waiting.

(** [async *[Symbol.asyncIterator]()], consumed as far as the given
    rounds go: the messages yielded and the way it ends.
    [error instanceof WebSocketClosed] is the constructor test. *)
Fixpoint iterate (ws : AsyncWebSocket) (rounds : list Round)
  : AsyncWebSocket * (list WebSocketMessage * Ending) :=
  if _closed ws then (ws, ([], Finished))
  else
    match rounds with
    | [] => (ws, ([], Waiting))
    | r :: rest =>
        match recv K fl ws None (startTime r) (first r) (later r) with
        | (ws, Some (Return message)) =>
            let '(ws, (yielded, ending)) := iterate ws rest in
            (ws, (message :: yielded, ending))
        | (ws, Some (Throw (WebSocketClosed _ _))) => (ws, ([], Finished))
        | (ws, Some (Throw error)) => (ws, ([], Failed error))
        | (ws, None) => (ws, ([], Waiting))
        end
    end.

(** A run of [poll] in which nothing happens: the time limit is not
    reached and [curl_ws_recv] answers [CURLE_AGAIN]. *)
Definition no_frame (startTime : Z) (limit : Number) (t : Tick) : Prop :=
  timed_out startTime limit (now t) = false /\
  recvCode (recvAnswer t) = CURLE_AGAIN K.

(** How a [recv] that has to poll can end. *)
Definition recv_end (ws ws' : AsyncWebSocket) (limit : Number)
    (ticks : list Tick) (end_ : option (Result WebSocketMessage)) : Prop :=
  match end_ with
  | Some (Return m) =>
      type m <> CLOSE /\ _closed ws' = false /\
      exists t, In t ticks /\
        recvCode (recvAnswer t) = CURLE_OK K /\ 0 < received (recvAnswer t) /\
        data m = firstn (received (recvAnswer t)) (written (recvAnswer t))
  | Some (Throw e) =>
      (_closed ws' = true /\ exists c why, e = WebSocketClosed c why) \/
      (_closed ws' = false /\
       ((exists c, e = WebSocketError (ReceiveError c) None /\
                   c <> CURLE_OK K /\ c <> CURLE_AGAIN K) \/
        (e = WebSocketError ReceiveTimeout None /\ limit <> PlusInfinity)))
  | None => _closed ws' = false
  end.

(** The session after runs of [poll] in which nothing arrived: each one
    called [curl_ws_recv] and set the timer again. *)
Definition idle (ws : AsyncWebSocket) (ticks : list Tick) : AsyncWebSocket :=
  fold_left
    (fun ws t =>
       set_pollTimer true
         (set_buffer (written (recvAnswer t)) (call curl_ws_recv ws)))
    ticks ws.

(** The log has no release of the handle. *)
Definition unreleased (log : list NativeCall) : Prop :=
  ~ In curl_easy_cleanup log.

(** The handle is released at most once, by the last call made. *)
Definition Released (ws : AsyncWebSocket) : Prop :=
  exists before, unreleased before /\
    (native ws = before \/
     (native ws = before ++ [curl_easy_cleanup] /\ _closed ws = true)).

End Runs.
End WSRuns.

(** Sample answers: [curl_ws_recv] has nothing to read; a binary frame of
    three bytes; [curl_ws_recv] fails with [CURLE_RECV_ERROR]. *)
Module MoreSamples.
Import WS Samples.

Definition nothing : RecvAnswer :=
  {| recvCode := 81; received := 0; frame := None; written := repeat x00 8 |}.

Definition binary_abc : RecvAnswer :=
  {| recvCode := 0; received := 3; frame := Some 2%Z;
     written := ["a"%byte; "b"%byte; "c"%byte; x00; x00; x00; x00; x00] |}.

Definition recv_error : RecvAnswer :=
  {| recvCode := 56; received := 0; frame := None; written := repeat x00 8 |}.

(** A run of [poll] at time [n] that finds nothing to read. *)
Definition silence (n : Z) : Tick := tick n nothing (sent_all 0).

(** A session that the peer has closed with code 1001 and reason "bye". *)
Definition closed_by_peer : AsyncWebSocket :=
  Eval vm_compute in
    fst (tryReceive libcurl session close_1001_bye (sent_all 0)).

End MoreSamples.

(* ------------------------------------------------------------------ *)
(** ** [Headers]: the case-insensitive header container of
       [http/headers.ts] *)

(** The container is what [AsyncWebSocket]'s constructor and the HTTP
    session build their header lists with.  [String.prototype.toLowerCase]
    and [String.prototype.trim] are library functions of the language;
    they are parameters here.  A string is its sequence of UTF-8 bytes, in
    which the ASCII characters the class looks for (colon, comma, quote,
    carriage return, line feed) stand for themselves only. *)
Module Http.
Section HeadersClass.
Variable toLowerCase : string -> string.
Variable trim : string -> string.

(** The field [data]: lower-case name to the array of (name, value)
    pairs.  No array is shared between two containers: [set] stores a new
    array and [append] pushes on arrays of its own container only. *)
Definition Headers := JsMap.t string (list (string * string)).

Definition empty : Headers := [].

Definition get (h : Headers) (name : string) : option string :=
  match JsMap.get String.eqb h (toLowerCase name) with
  | Some ((_, value) :: _) => Some value
  | _ => None
  end.

Definition getAll (h : Headers) (name : string) : list string :=
  match JsMap.get String.eqb h (toLowerCase name) with
  | Some values => map snd values
  | None => []
  end.

Definition set (h : Headers) (name value : string) : Headers :=
  JsMap.set String.eqb h (toLowerCase name) [(name, value)].

Definition append (h : Headers) (name value : string) : Headers :=
  let key := toLowerCase name in
  let existing :=
    match JsMap.get String.eqb h key with
    | Some values => values
    | None => []
    end in
  JsMap.set String.eqb h key (existing ++ [(name, value)]).

Definition has (h : Headers) (name : string) : bool :=
  match JsMap.get String.eqb h (toLowerCase name) with
  | Some _ => true
  | None => false
  end.

(** [delete] returns whether the name was there. *)
Definition delete (h : Headers) (name : string) : Headers * bool :=
  (JsMap.delete String.eqb h (toLowerCase name), has h name).

Definition keys (h : Headers) : list string := JsMap.keys h.

Definition values (h : Headers) : list string :=
  flat_map (fun values => match values with
                          | (_, value) :: _ => [value]
                          | [] => []
                          end)
           (JsMap.values h).

Definition entries (h : Headers) : list (string * string) :=
  List.concat (JsMap.values h).

Definition size (h : Headers) : nat := JsMap.size h.

(** An element of an array given to [extend]: a line "Name: value" or a
    pair. *)
Inductive Item :=
| Line (text : string)
| Pair (name value : string).

(** A property value of a record given to [extend]. *)
Inductive FieldValue :=
| One (value : string)
| Many (values : list string).

(** [HeadersInit]; a record is given by its [Object.entries]. *)
Inductive HeadersInit :=
| OfHeaders (h : Headers)
| OfArray (items : list Item)
| OfRecord (fields : list (string * FieldValue)).

(** The parsing of a line, as [extend] and [fromRaw] both do it:
    [indexOf(":")], and when the index is positive the two [slice]s,
    trimmed. *)
Definition append_line (h : Headers) (line : string) : Headers :=
  match String.index 0 ":" line with
  | Some colonIdx =>
      if Nat.ltb 0 colonIdx then
        append h (trim (substring 0 colonIdx line))
                 (trim (substring (S colonIdx)
                          (String.length line - S colonIdx) line))
      else h
  | None => h
  end.

Definition append_item (h : Headers) (item : Item) : Headers :=
  match item with
  | Line text => append_line h text
  | Pair name value => append h name value
  end.

Definition append_field (h : Headers) (field : string * FieldValue) : Headers :=
  match snd field with
  | One value => append h (fst field) value
  | Many values => fold_left (fun h v => append h (fst field) v) values h
  end.

Definition append_entry (h : Headers) (e : string * string) : Headers :=
  append h (fst e) (snd e).

(** [extend(init)], for an [init] that is not the container itself. *)
Definition extend (h : Headers) (init : HeadersInit) : Headers :=
  match init with
  | OfHeaders other => fold_left append_entry (entries other) h
  | OfArray items => fold_left append_item items h
  | OfRecord fields => fold_left append_field fields h
  end.

(** [new Headers(init)]. *)
Definition create (init : option HeadersInit) : Headers :=
  match init with
  | Some i => extend empty i
  | None => empty
  end.

Definition toCurlHeaders (h : Headers) : list string :=
  map (fun e => fst e ++ ": " ++ snd e)%string (entries h).

Definition clone (h : Headers) : Headers :=
  fold_left append_entry (entries h) empty.

Definition CRLF : string := String "013" (String "010" "").

Definition toString (h : Headers) : string :=
  String.concat CRLF (toCurlHeaders h).

(** [text.split(/\r?\n/)]: the text is cut at every line feed, and a
    carriage return that stands right before the line feed goes with it.
    [current] is the piece read so far, last character first. *)
Definition piece (current : list ascii) : string :=
  string_of_list_ascii (rev current).

Fixpoint split_lines (current : list ascii) (text : string) : list string :=
  match text with
  | EmptyString => [piece current]
  | String c rest =>
      if Ascii.eqb c "010" then
        piece (match current with
               | "013"%char :: before => before
               | _ => current
               end) :: split_lines [] rest
      else split_lines (c :: current) rest
  end.

(** [Headers.fromRaw(raw)], for a string or the UTF-8 text of a buffer. *)
Definition fromRaw (raw : string) : Headers :=
  fold_left
    (fun h line =>
       if String.eqb line "" || String.prefix "HTTP/" line then h
       else append_line h line)
    (split_lines [] raw) empty.

(** The state of the loop of [parseHeaderValue]. *)
Record Scan := { result : list string; current : string; inQuotes : bool }.

Definition quote : ascii := ascii_of_nat 34.

Definition scan (s : Scan) (char : ascii) : Scan :=
  if Ascii.eqb char quote then
    {| result := result s; current := current s ++ String char "";
       inQuotes := negb (inQuotes s) |}
  else if Ascii.eqb char "," && negb (inQuotes s) then
    {| result := result s ++ [trim (current s)]; current := "";
       inQuotes := inQuotes s |}
  else
    {| result := result s; current := current s ++ String char "";
       inQuotes := inQuotes s |}.

Definition parseHeaderValue (value : string) : list string :=
  let s := fold_left scan (list_ascii_of_string value)
             {| result := []; current := ""; inQuotes := false |} in
  if String.eqb (current s) "" then result s
  else result s ++ [trim (current s)].

(** *** What is observed of a container *)

(** The calls that change a container. *)
Inductive Update :=
| Set_ (name value : string)
| Append (name value : string)
| Delete (name : string)
| Extend (init : HeadersInit).

Definition update (h : Headers) (u : Update) : Headers :=
  match u with
  | Set_ name value => set h name value
  | Append name value => append h name value
  | Delete name => fst (delete h name)
  | Extend init => extend h init
  end.

Definition updates (h : Headers) (l : list Update) : Headers :=
  fold_left update l h.

(** Two names are the same header. *)
Definition same (a b : string) : bool :=
  String.eqb (toLowerCase a) (toLowerCase b).

(** The values given to one header in a list of pairs. *)
Definition values_of (name : string) (l : list (string * string)) : list string :=
  map snd (filter (fun e => same (fst e) name) l).

(** The lower-case names of a list of pairs, each once, in the order of
    first occurrence. *)
Fixpoint names (seen : list string) (l : list (string * string)) : list string :=
  match l with
  | [] => []
  | e :: rest =>
      let key := toLowerCase (fst e) in
      if existsb (String.eqb key) seen then names seen rest
      else key :: names (key :: seen) rest
  end.

(** The array stored for a key ([[]] when there is none). *)
Definition group (h : Headers) (key : string) : list (string * string) :=
  match JsMap.get String.eqb h key with
  | Some values => values
  | None => []
  end.

(** The (name, value) pairs that [extend(init)] appends, in order. *)
Definition pairs_of_line (line : string) : list (string * string) :=
  match String.index 0 ":" line with
  | Some colonIdx =>
      if Nat.ltb 0 colonIdx then
        [(trim (substring 0 colonIdx line),
          trim (substring (S colonIdx) (String.length line - S colonIdx) line))]
      else []
  | None => []
  end.

Definition pairs_of (init : HeadersInit) : list (string * string) :=
  match init with
  | OfHeaders other => entries other
  | OfArray items =>
      flat_map (fun item => match item with
                            | Line text => pairs_of_line text
                            | Pair name value => [(name, value)]
                            end) items
  | OfRecord fields =>
      flat_map (fun field => match snd field with
                             | One value => [(fst field, value)]
                             | Many values => map (pair (fst field)) values
                             end) fields
  end.

(** The pairs of a list that belong to a key. *)
Definition keyed (key : string) (l : list (string * string)) : list (string * string) :=
  filter (fun e => String.eqb (toLowerCase (fst e)) key) l.

(** Character [c] does not occur in [s]. *)
Fixpoint free (c : ascii) (s : string) : bool :=
  match s with
  | EmptyString => true
  | String x rest => negb (Ascii.eqb x c) && free c rest
  end.

(** An entry that [toString] writes on a line of its own and [fromRaw]
    reads back as it is: the name is not empty, has no colon and does not
    begin like a status line, neither part has a line feed, and trimming
    leaves the name, and the value after the blank [toString] puts before
    it, as they are. *)
Definition plain (e : string * string) : Prop :=
  fst e <> ""%string /\ free ":" (fst e) = true /\
  free "010" (fst e) = true /\ free "010" (snd e) = true /\
  String.prefix "HTTP/" (fst e) = false /\
  trim (fst e) = fst e /\ trim (String " " (snd e)) = snd e.

(** What every container built by the class satisfies. *)
Record WF (h : Headers) : Prop := {
  wf_keys : NoDup (JsMap.keys h);
  wf_group : forall k group, In (k, group) h ->
    group <> [] /\ forall e, In e group -> toLowerCase (fst e) = k
}.

End HeadersClass.
End Http.

(** What [toLowerCase] and [trim] do on ASCII text, for the sample runs. *)
Module HeaderSamples.

Definition lower_char (c : ascii) : ascii :=
  let n := nat_of_ascii c in
  if Nat.leb 65 n && Nat.leb n 90 then ascii_of_nat (n + 32) else c.

Fixpoint lower (s : string) : string :=
  match s with
  | EmptyString => EmptyString
  | String c rest => String (lower_char c) (lower rest)
  end.

(** Blank, tab, line feed, vertical tab, form feed, carriage return. *)
Definition blank (c : ascii) : bool :=
  let n := nat_of_ascii c in
  Nat.eqb n 32 || (Nat.leb 9 n && Nat.leb n 13).

Fixpoint drop_blanks (l : list ascii) : list ascii :=
  match l with
  | c :: rest => if blank c then drop_blanks rest else l
  | [] => []
  end.

Definition strip (s : string) : string :=
  string_of_list_ascii
    (rev (drop_blanks (rev (drop_blanks (list_ascii_of_string s))))).

(** The header block of a response, as curl hands it over. *)
Definition response_head : string :=
  "HTTP/1.1 200 OK" ++ Http.CRLF ++
  "Content-Type: application/json" ++ Http.CRLF ++
  "Set-Cookie: a=1" ++ Http.CRLF ++
  "set-cookie:b=2 " ++ Http.CRLF ++
  "no colon here" ++ Http.CRLF ++
  Http.CRLF.

Definition accept_twice : list Http.Update :=
  [Http.Append "Accept" "text/html"; Http.Set_ "Content-Type" "text/plain";
   Http.Append "ACCEPT" "*/*"].

End HeaderSamples.

(* ------------------------------------------------------------------ *)
(** ** [Curl] and [SList]: the transfer object of [core/easy.ts] and its
       string lists ([core/slist.ts]) *)

(** This is the object [CurlMulti.perform] and [AsyncWebSocket] are given
    and call [getHandle], [setOpt], [perform] and [cleanup] on.  As for
    the scheduler, every answer of the engine is an input and every call
    is logged. *)
Module Easy.

(** The values [setOpt] tells apart: [undefined] or [null], a string, a
    number, a boolean, a bigint, a [Buffer] (by identity), a native
    pointer, and any other object (a registered callback; by identity). *)
Inductive Value :=
| VMissing
| VString (s : string)
| VNumber (n : Z)
| VBoolean (b : bool)
| VBigInt (n : Z)
| VBuffer (id : nat)
| VPointer (p : N)
| VObject (id : nat).

Inductive NativeCall :=
| curl_easy_setopt_string (h : CurlHandle) (option : Z) (value : string)
| curl_easy_setopt_long (h : CurlHandle) (option : Z) (value : Z)
| curl_easy_setopt_int64 (h : CurlHandle) (option : Z) (value : Z)
| curl_easy_setopt_ptr (h : CurlHandle) (option : Z) (value : Value)
| curl_easy_perform (h : CurlHandle)
| curl_easy_reset (h : CurlHandle)
| curl_easy_duphandle (h : CurlHandle)
| curl_easy_cleanup (h : CurlHandle)
| curl_slist_append (list : option N) (value : string)
| curl_slist_free_all (list : N).

(** [SList]: the head of the native list, null before the first
    [append] and after [free]. *)
Record SList := { pointer : option N }.

Inductive Error :=
| InitFailed                (* "curl_easy_init failed" *)
| HandleIsNull              (* "Curl handle is null" *)
| DupFailed                 (* "curl_easy_duphandle failed" *)
| Raised (code : Z).        (* what [raiseIfError] throws for [code] *)

Inductive Outcome (A : Type) :=
| Returns (a : A)
| Throws (e : Error).
Arguments Returns {A} a.
Arguments Throws {A} e.

Record Curl := {
  handle : option CurlHandle;
  _callbacks : list nat;
  _slists : list SList;
  _buffers : list nat;
  native : list NativeCall
}.

Definition call (x : NativeCall) (c : Curl) : Curl :=
  {| handle := handle c; _callbacks := _callbacks c; _slists := _slists c;
     _buffers := _buffers c; native := native c ++ [x] |}.

Definition push_callback (cb : nat) (c : Curl) : Curl :=
  {| handle := handle c; _callbacks := _callbacks c ++ [cb];
     _slists := _slists c; _buffers := _buffers c; native := native c |}.

Definition push_slist (l : SList) (c : Curl) : Curl :=
  {| handle := handle c; _callbacks := _callbacks c;
     _slists := _slists c ++ [l]; _buffers := _buffers c; native := native c |}.

Definition push_buffer (b : nat) (c : Curl) : Curl :=
  {| handle := handle c; _callbacks := _callbacks c; _slists := _slists c;
     _buffers := _buffers c ++ [b]; native := native c |}.

(** [this._slists = []; this._callbacks = []; this._buffers = []]. *)
Definition clear (c : Curl) : Curl :=
  {| handle := handle c; _callbacks := []; _slists := []; _buffers := [];
     native := native c |}.

Definition set_handle (h : option CurlHandle) (c : Curl) : Curl :=
  {| handle := h; _callbacks := _callbacks c; _slists := _slists c;
     _buffers := _buffers c; native := native c |}.

(** The option numbers of [ffi/constants.ts] the class names itself. *)
Record Options := {
  CURLOPT_WRITEFUNCTION : Z;
  CURLOPT_HEADERFUNCTION : Z;
  CURLOPT_HTTPHEADER : Z
}.

Section Class.
Variable K : Constants.
Variable O : Options.

(** [new Curl({ fromHandle })]. *)
Definition fromHandle (h : CurlHandle) : Curl :=
  {| handle := Some h; _callbacks := []; _slists := []; _buffers := [];
     native := [] |}.

(** [new Curl()]; [init] is what [curl_easy_init] answers. *)
Definition create (init : option CurlHandle) : Outcome Curl :=
  match init with
  | Some h => Returns (fromHandle h)
  | None => Throws InitFailed
  end.

Definition getHandle (c : Curl) : option CurlHandle := handle c.

(** [raiseIfError] of [utils/errors.ts]. *)
Definition raiseIfError (code : Z) : Outcome unit :=
  if Z.eqb code (CURLE_OK K) then Returns tt else Throws (Raised code).

(** [setOpt(option, value)]; [code] is what the native setter answers. *)
Definition setOpt (c : Curl) (option : Z) (value : Value) (code : Z)
  : Curl * Outcome unit :=
  match value with
  | VMissing => (c, Returns tt)
  | _ =>
      match handle c with
      | None => (c, Throws HandleIsNull)
      | Some h =>
          match value with
          | VMissing => (c, Returns tt)
          | VString s =>
              (call (curl_easy_setopt_string h option s) c, raiseIfError code)
          | VNumber n =>
              (call (curl_easy_setopt_long h option n) c, raiseIfError code)
          | VBoolean b =>
              (call (curl_easy_setopt_long h option (if b then 1 else 0)%Z) c,
               raiseIfError code)
          | VBigInt n =>
              (call (curl_easy_setopt_int64 h option n) c, raiseIfError code)
          | VBuffer b =>
              (call (curl_easy_setopt_ptr h option value) (push_buffer b c),
               raiseIfError code)
          | VPointer _ | VObject _ =>
              (call (curl_easy_setopt_ptr h option value) c, raiseIfError code)
          end
      end
  end.

(** [setWriteFunction(fn)] and [setHeaderFunction(fn)]; [cb] is the
    callback object [wrapWriteCallback(fn)] returns. *)
Definition setWriteFunction (c : Curl) (cb : nat) (code : Z) : Curl * Outcome unit :=
  setOpt (push_callback cb c) (CURLOPT_WRITEFUNCTION O) (VObject cb) code.

Definition setHeaderFunction (c : Curl) (cb : nat) (code : Z) : Curl * Outcome unit :=
  setOpt (push_callback cb c) (CURLOPT_HEADERFUNCTION O) (VObject cb) code.

(** [SList.append(value)]; [answer] is what [curl_slist_append] returns. *)
Definition SList_append (s : SList * Curl) (header : string * option N)
  : SList * Curl :=
  ({| pointer := snd header |},
   call (curl_slist_append (pointer (fst s)) (fst header)) (snd s)).

(** [SList.free()]. *)
Definition SList_free (c : Curl) (l : SList) : Curl :=
  match pointer l with
  | Some p => call (curl_slist_free_all p) c
  | None => c
  end.

(** [setHeaders(headers)]; each header comes with the answer of its
    [curl_slist_append]. *)
Definition setHeaders (c : Curl) (headers : list (string * option N)) (code : Z)
  : Curl * Outcome unit :=
  match headers with
  | [] => (c, Returns tt)
  | _ =>
      let s := fold_left SList_append headers ({| pointer := None |}, c) in
      let c := push_slist (fst s) (snd s) in
      setOpt c (CURLOPT_HTTPHEADER O)
        (match pointer (fst s) with Some p => VPointer p | None => VMissing end)
        code
  end.

(** [perform()]; [code] is what [curl_easy_perform] answers. *)
Definition perform (c : Curl) (code : Z) : Curl * Outcome unit :=
  match handle c with
  | None => (c, Throws HandleIsNull)
  | Some h => (call (curl_easy_perform h) c, raiseIfError code)
  end.

Definition reset (c : Curl) : Curl * Outcome unit :=
  match handle c with
  | None => (c, Throws HandleIsNull)
  | Some h =>
      let c := fold_left SList_free (_slists c) c in
      let c := clear c in
      (call (curl_easy_reset h) c, Returns tt)
  end.

(** [dupHandle()]; [answer] is what [curl_easy_duphandle] returns. *)
Definition dupHandle (c : Curl) (answer : option CurlHandle)
  : Curl * Outcome Curl :=
  match handle c with
  | None => (c, Throws HandleIsNull)
  | Some h =>
      let c := call (curl_easy_duphandle h) c in
      match answer with
      | None => (c, Throws DupFailed)
      | Some newHandle => (c, Returns (fromHandle newHandle))
      end
  end.

Definition cleanup (c : Curl) : Curl :=
  let c := fold_left SList_free (_slists c) c in
  let c := clear c in
  match handle c with
  | Some h => set_handle None (call (curl_easy_cleanup h) c)
  | None => c
  end.

(** What can be called on the object, with the answers of the engine. *)
Inductive Action :=
| SetOpt (option : Z) (value : Value) (code : Z)
| SetWriteFunction (cb : nat) (code : Z)
| SetHeaderFunction (cb : nat) (code : Z)
| SetHeaders (headers : list (string * option N)) (code : Z)
| Perform (code : Z)
| Reset
| DupHandle (answer : option CurlHandle)
| Cleanup.

Definition exec (c : Curl) (a : Action) : Curl :=
  match a with
  | SetOpt option value code => fst (setOpt c option value code)
  | SetWriteFunction cb code => fst (setWriteFunction c cb code)
  | SetHeaderFunction cb code => fst (setHeaderFunction c cb code)
  | SetHeaders headers code => fst (setHeaders c headers code)
  | Perform code => fst (perform c code)
  | Reset => fst (reset c)
  | DupHandle answer => fst (dupHandle c answer)
  | Cleanup => cleanup c
  end.

Definition run (c : Curl) (l : list Action) : Curl := fold_left exec l c.

(** Whether a call ends normally. *)
Definition throws (c : Curl) (a : Action) : option Error :=
  let outcome (A : Type) (o : Outcome A) :=
    match o with Returns _ => None | Throws e => Some e end in
  match a with
  | SetOpt option value code => outcome _ (snd (setOpt c option value code))
  | SetWriteFunction cb code => outcome _ (snd (setWriteFunction c cb code))
  | SetHeaderFunction cb code => outcome _ (snd (setHeaderFunction c cb code))
  | SetHeaders headers code => outcome _ (snd (setHeaders c headers code))
  | Perform code => outcome _ (snd (perform c code))
  | Reset => outcome _ (snd (reset c))
  | DupHandle answer => outcome _ (snd (dupHandle c answer))
  | Cleanup => None
  end.

(** *** What is observed of the log *)

(** The easy handle a native call is made on. *)
Definition handle_of (x : NativeCall) : option CurlHandle :=
  match x with
  | curl_easy_setopt_string h _ _ | curl_easy_setopt_long h _ _
  | curl_easy_setopt_int64 h _ _ | curl_easy_setopt_ptr h _ _
  | curl_easy_perform h | curl_easy_reset h | curl_easy_duphandle h
  | curl_easy_cleanup h => Some h
  | curl_slist_append _ _ | curl_slist_free_all _ => None
  end.

Definition is_cleanup (x : NativeCall) : bool :=
  match x with
  | curl_easy_cleanup _ => true
  | _ => false
  end.

(** The lists given to [curl_slist_free_all], in order. *)
Definition freed (log : list NativeCall) : list N :=
  flat_map (fun x => match x with
                     | curl_slist_free_all p => [p]
                     | _ => []
                     end) log.

(** The heads of the lists the object holds. *)
Definition owned (c : Curl) : list N :=
  flat_map (fun l => match pointer l with Some p => [p] | None => [] end)
           (_slists c).

(** The heads the calls of [setHeaders] have left in their [SList]: for
    each call with headers, what the last [curl_slist_append] answered. *)
Definition kept (l : list Action) : list N :=
  flat_map (fun a => match a with
                     | SetHeaders headers _ =>
                         match last (map snd headers) None with
                         | Some p => [p]
                         | None => []
                         end
                     | _ => []
                     end) l.

(** The lists the engine has built in a run of appends that starts from
    the head [head]: [curl_slist_append] given no list allocates one and
    answers its head; given a list it answers that list, grown, or
    nothing when it fails, and the list is then as it was. *)
Fixpoint created (head : option N) (headers : list (string * option N))
  : list N :=
  match headers with
  | [] => []
  | hd :: rest =>
      match head, snd hd with
      | None, Some p => p :: created (Some p) rest
      | _, answer => created answer rest
      end
  end.

(** The lists built in the calls of [setHeaders]. *)
Definition built (l : list Action) : list N :=
  flat_map (fun a => match a with
                     | SetHeaders headers _ => created None headers
                     | _ => []
                     end) l.

(** No append of the run fails: each answers a list, and the list it was
    given when it was given one. *)
Fixpoint grown (head : option N) (headers : list (string * option N)) : Prop :=
  match headers with
  | [] => True
  | hd :: rest =>
      match head, snd hd with
      | _, None => False
      | None, Some p => grown (Some p) rest
      | Some q, Some p => p = q /\ grown (Some p) rest
      end
  end.

Definition unfailing (l : list Action) : Prop :=
  Forall (fun a => match a with
                   | SetHeaders headers _ => grown None headers
                   | _ => True
                   end) l.

(** The buffers the engine was given with [curl_easy_setopt_ptr] since the
    options were last reset. *)
Definition passed (given : list nat) (x : NativeCall) : list nat :=
  match x with
  | curl_easy_setopt_ptr _ _ (VBuffer b) => given ++ [b]
  | curl_easy_reset _ | curl_easy_cleanup _ => []
  | _ => given
  end.

Definition in_use (log : list NativeCall) : list nat := fold_left passed log [].

(** The calls the two loops over string lists make. *)
Definition frees (l : list SList) : list NativeCall :=
  flat_map (fun s => match pointer s with
                     | Some p => [curl_slist_free_all p]
                     | None => []
                     end) l.

Fixpoint appends (head : option N) (headers : list (string * option N))
  : list NativeCall :=
  match headers with
  | [] => []
  | hd :: rest => curl_slist_append head (fst hd) :: appends (snd hd) rest
  end.

(** The buffers in use are held, and a released object has none in use. *)
Definition Held (c : Curl) : Prop :=
  incl (in_use (native c)) (_buffers c) /\
  (handle c = None -> in_use (native c) = []).

(** A call that is not the release, on no handle or on [h]. *)
Definition ok (h : CurlHandle) (x : NativeCall) : Prop :=
  is_cleanup x = false /\ (handle_of x = None \/ handle_of x = Some h).

(** The handle is used by [h]'s calls only, and not after its release. *)
Definition Safe (h : CurlHandle) (c : Curl) : Prop :=
  (handle c = Some h /\ Forall (ok h) (native c)) \/
  (handle c = None /\
   exists before after,
     native c = before ++ curl_easy_cleanup h :: after /\
     Forall (ok h) before /\
     Forall (fun x => handle_of x = None) after).

End Class.
End Easy.

(** The option numbers of [curl.h], and a sample history: a transfer with
    a header list, the release, and calls made after it. *)
Module EasySamples.
Import Easy.

Definition curlopts : Options :=
  {| CURLOPT_WRITEFUNCTION := 20011; CURLOPT_HEADERFUNCTION := 20079;
     CURLOPT_HTTPHEADER := 10023 |}.

Definition used_and_released : list Action :=
  [SetOpt 10002 (VString "wss://example.org") 0;
   SetHeaders [("A: 1"%string, Some 500%N); ("B: 2"%string, Some 500%N)] 0;
   Perform 0; Cleanup;
   SetHeaders [("C: 3"%string, Some 600%N)] 0; Perform 0; Cleanup].

(** The second [curl_slist_append] of a call of [setHeaders] fails. *)
Definition append_fails : list Action :=
  [SetHeaders [("A: 1"%string, Some 500%N); ("B: 2"%string, None)] 0;
   Perform 0; Cleanup].

End EasySamples.

(* ------------------------------------------------------------------ *)
(** ** [curl_multi_info_read] of [ffi/libcurl.ts] *)

(** The wrapper [checkCompleted] calls to learn which transfers are done.
    The engine answers with a pointer to a [CURLMsg] in native memory and
    the number of messages left; the wrapper reads the message out of the
    memory.  The layout is the one the file declares, for a 64-bit
    little-endian platform: [int msg] at offset 0, four bytes of padding,
    [void *easy_handle] at offset 8 and the union [data] at offset 16. *)
Module Ffi.
Import Bridge.

(** The unsigned number a sequence of bytes holds, least significant byte
    first. *)
Fixpoint le_value (bytes : list byte) : N :=
  match bytes with
  | [] => 0
  | b :: rest => Byte.to_N b + 256 * le_value rest
  end.

(** [buffer.readInt32LE(offset)]: the four bytes from [offset] as a signed
    32-bit integer in two's complement; [None] is the [RangeError] for an
    offset that leaves fewer than four bytes. *)
Definition readInt32LE (buffer : list byte) (offset : nat) : option Z :=
  if offset + 4 <=? List.length buffer then
    let u := Z.of_N (le_value (firstn 4 (skipn offset buffer))) in
    Some (if (u <? 2 ^ 31)%Z then u else (u - 2 ^ 32)%Z)
  else None.

(** [koffi.decode(msgPtr, CURLMsg).easy_handle]: the pointer held by the
    eight bytes at offset 8. *)
Definition easy_handle (mem : Memory) (msgPtr : N) : CurlHandle :=
  le_value (decode mem (msgPtr + 8) 8).

Record InfoRead := {
  message : option Multi.MultiInfoMessage;
  msgsInQueue : Z
}.

(** [curl_multi_info_read(multi)], for the pointer [msgPtr] the engine
    returns ([0] is [NULL]) and the count [queued] it writes; [None] is an
    exception. *)
Definition curl_multi_info_read (mem : Memory) (msgPtr : N) (queued : Z)
  : option InfoRead :=
  if N.eqb msgPtr 0 then Some {| message := None; msgsInQueue := queued |}
  else
    let buffer := decode mem msgPtr 24 in
    match readInt32LE buffer 0 with
    | None => None
    | Some msgType =>
        match readInt32LE buffer 16 with
        | None => None
        | Some result =>
            Some {| message :=
                      Some {| Multi.msg := msgType;
                              Multi.easyHandle := easy_handle mem msgPtr;
                              Multi.result := result |};
                    msgsInQueue := queued |}
        end
    end.

(** *** What the engine writes *)

Definition byte_of_N (n : N) : byte :=
  match Byte.of_N n with Some b => b | None => x00 end.

(** The [n] bytes of an unsigned number, least significant byte first. *)
Fixpoint le_bytes (n : nat) (v : N) : list byte :=
  match n with
  | 0 => []
  | S n => byte_of_N (v mod 256) :: le_bytes n (v / 256)
  end.

(** The four bytes of a C [int], in two's complement. *)
Definition int32_bytes (v : Z) : list byte :=
  le_bytes 4 (Z.to_N (v mod 2 ^ 32)).

(** A [CURLMsg] with the fields [m], [h] and [r] lies at [p]; the padding
    and the upper half of the union hold anything. *)
Record lies (mem : Memory) (p : N) (m : Z) (h : N) (r : Z) : Prop := {
  lies_msg : decode mem p 4 = int32_bytes m;
  lies_handle : decode mem (p + 8) 8 = le_bytes 8 h;
  lies_result : decode mem (p + 16) 4 = int32_bytes r
}.

(** A memory holding [bytes] from the address [base] on. *)
Definition memory_of (base : N) (bytes : list byte) : Memory :=
  fun a => nth (N.to_nat (a - base)) bytes x00.

(** *** [curl_ws_recv] *)

(** What libcurl does in a call of its [curl_ws_recv]: the status it
    returns, the number of bytes it stores through [recv], the contents of
    the buffer afterwards, and what it stores through [meta]: a pointer to
    the metadata of the frame, of which the flags are kept here, or
    nothing. *)
Record WsRecv := {
  curlcode : Z;
  count : nat;
  meta : option Z;
  contents : list byte
}.

(** How a parameter that takes a JavaScript array is declared in the
    prototype given to [lib.func]: as a plain pointer, or marked [_Out_]
    (or [_Inout_]). *)
Inductive Declared := Plain | Out.

(** A JavaScript array passed for a pointer parameter, after the call:
    koffi copies the array to a temporary for the call and copies the
    temporary back only for a parameter marked as output.  (A [Buffer] or
    a typed array is passed by the address of its own memory, so what the
    callee stores in it is there after the call.) *)
Definition array_after (A : Type) (d : Declared) (given stored : A) : A :=
  match d with
  | Plain => given
  | Out => stored
  end.

(** [curl_ws_recv(handle, buffer)], declared as
    [int curl_ws_recv(void *, void *, size_t, size_t *, void ** )]:
    [buffer] is a [Buffer] and [recv] a [BigUint64Array]; [metaPtr] is the
    array [[null]], passed for the last parameter, and [frame] is built
    from [metaPtr[0]] when that is not null. *)
Definition curl_ws_recv (e : WsRecv) : WS.RecvAnswer :=
  let metaPtr : option Z := array_after Plain None (meta e) in
  {| WS.recvCode := curlcode e;
     WS.received := count e;
     WS.frame := match metaPtr with
                 | Some flags => Some flags
                 | None => None
                 end;
     WS.written := contents e |}.

(** One run of [poll] of [recv] with the engine's own answer. *)
Definition wire (now : Z) (e : WsRecv) (pong : WS.SendAnswer) : WS.Tick :=
  {| WS.now := now; WS.recvAnswer := curl_ws_recv e; WS.pongAnswer := pong |}.

End Ffi.

(** Frames as libcurl delivers them: a ping with payload "x", the close
    frame with code 1001 and reason "bye", a read that finds nothing, and
    the text frame "hi". *)
Module WireSamples.
Import Ffi.

Definition ping_frame_x : WsRecv :=
  {| curlcode := 0; count := 1; meta := Some 16%Z;
     contents := "x"%byte :: repeat x00 7 |}.

Definition close_frame_1001_bye : WsRecv :=
  {| curlcode := 0; count := 5; meta := Some 8%Z;
     contents := [x03; xe9; "b"%byte; "y"%byte; "e"%byte; x00; x00; x00] |}.

Definition no_data : WsRecv :=
  {| curlcode := 81; count := 0; meta := None; contents := repeat x00 8 |}.

Definition text_frame_hi : WsRecv :=
  {| curlcode := 0; count := 2; meta := Some 1%Z;
     contents := ["h"%byte; "i"%byte; x00; x00; x00; x00; x00; x00] |}.

End WireSamples.

(* ================================================================== *)
(** * Properties *)

(** ** Facts about [JsMap] *)

Module JsMapFacts.
Import JsMap.
Section Facts.
Variables K V : Type.
Variable eqb : K -> K -> bool.
Hypothesis eqb_eq : forall a b, eqb a b = true <-> a = b.

Lemma eqb_refl a : eqb a a = true.
Proof. now apply eqb_eq. Qed.

Lemma eqb_neq a b : a <> b -> eqb a b = false.
Proof.
  intro H. destruct (eqb a b) eqn:E; [|reflexivity].
  apply eqb_eq in E. contradiction.
Qed.

Lemma get_set_same (m : t K V) k v : get eqb (set eqb m k v) k = Some v.
Proof.
  induction m as [|[k' v'] r IH]; simpl.
  - now rewrite eqb_refl.
  - destruct (eqb k' k) eqn:E; simpl; now rewrite E.
Qed.

Lemma get_set_other (m : t K V) k k' v :
  k <> k' -> get eqb (set eqb m k v) k' = get eqb m k'.
Proof.
  intro Hne. induction m as [|[k0 v0] r IH]; simpl.
  - now rewrite (eqb_neq Hne).
  - destruct (eqb k0 k) eqn:E; simpl.
    + apply eqb_eq in E. subst k0. now rewrite (eqb_neq Hne).
    + now rewrite IH.
Qed.

Lemma get_delete_same (m : t K V) k : get eqb (delete eqb m k) k = None.
Proof.
  induction m as [|[k' v'] r IH]; simpl; [reflexivity|].
  destruct (eqb k' k) eqn:E; simpl; [assumption|].
  now rewrite E.
Qed.

Lemma get_delete_other (m : t K V) k k' :
  k <> k' -> get eqb (delete eqb m k) k' = get eqb m k'.
Proof.
  intro Hne. induction m as [|[k0 v0] r IH]; simpl; [reflexivity|].
  destruct (eqb k0 k) eqn:E; simpl.
  - apply eqb_eq in E. subst k0. now rewrite (eqb_neq Hne).
  - now rewrite IH.
Qed.

Lemma get_In (m : t K V) k v : get eqb m k = Some v -> In (k, v) m.
Proof.
  induction m as [|[k' v'] r IH]; simpl; [discriminate|].
  destruct (eqb k' k) eqn:E.
  - intros [= ->]. apply eqb_eq in E. subst. now left.
  - intro H. right. now apply IH.
Qed.

Lemma get_In_values (m : t K V) k v : get eqb m k = Some v -> In v (values m).
Proof.
  intro H. apply get_In in H. unfold values.
  change v with (snd (k, v)). now apply in_map.
Qed.

Lemma get_None_delete (m : t K V) k : get eqb m k = None -> delete eqb m k = m.
Proof.
  induction m as [|[k' v'] r IH]; simpl; [reflexivity|].
  destruct (eqb k' k) eqn:E; [discriminate|].
  intro H. simpl. now rewrite IH.
Qed.

Lemma In_delete (m : t K V) k e : In e (delete eqb m k) -> In e m.
Proof. unfold delete. intro H. now apply filter_In in H. Qed.

Lemma In_set (m : t K V) k v e : In e (set eqb m k v) -> e = (k, v) \/ In e m.
Proof.
  induction m as [|[k' v'] r IH]; simpl.
  - intros [<-|[]]. now left.
  - destruct (eqb k' k) eqn:E; simpl.
    + apply eqb_eq in E. subst k'.
      intros [<-|H]; [now left | right; now right].
    + intros [<-|H]; [right; now left|].
      destruct (IH H) as [->|H']; [now left | right; now right].
Qed.

(** Facts about the image of the values under a function [f], used for
    the promise identifiers held in a map. *)
Section Image.
Variable I : Type.
Variable f : V -> I.

Lemma image_delete_In (m : t K V) k x :
  In x (image f (delete eqb m k)) -> In x (image f m).
Proof.
  unfold image. intro H. apply in_map_iff in H as [e [<- He]].
  apply In_delete in He. exact (in_map (fun e => f (snd e)) _ _ He).
Qed.

Lemma image_delete_NoDup (m : t K V) k :
  NoDup (image f m) -> NoDup (image f (delete eqb m k)).
Proof.
  induction m as [|[k' v'] r IH]; simpl; [trivial|].
  intro H. apply NoDup_cons_iff in H as [Hn Hr].
  destruct (eqb k' k); simpl; [now apply IH|].
  constructor; [|now apply IH].
  intro Hin. apply Hn. exact (image_delete_In _ _ _ Hin).
Qed.

Lemma image_get_In (m : t K V) k v : get eqb m k = Some v -> In (f v) (image f m).
Proof.
  intro H. apply get_In in H. unfold image.
  exact (in_map (fun e => f (snd e)) _ _ H).
Qed.

Lemma image_get_delete (m : t K V) k v :
  get eqb m k = Some v -> NoDup (image f m) -> ~ In (f v) (image f (delete eqb m k)).
Proof.
  induction m as [|[k' v'] r IH]; simpl; [discriminate|].
  intros Hg Hnd. apply NoDup_cons_iff in Hnd as [Hn Hr].
  destruct (eqb k' k) eqn:E; simpl.
  - injection Hg as ->. intro Hin. apply Hn.
    exact (image_delete_In _ _ _ Hin).
  - intros [Heq|Hin].
    + apply Hn. rewrite Heq. exact (image_get_In _ _ Hg).
    + exact (IH Hg Hr Hin).
Qed.

Lemma image_set_In (m : t K V) k v x :
  In x (image f (set eqb m k v)) -> x = f v \/ In x (image f m).
Proof.
  unfold image. intro H. apply in_map_iff in H as [e [<- He]].
  apply In_set in He as [->|He]; [now left|].
  right. exact (in_map (fun e => f (snd e)) _ _ He).
Qed.

Lemma image_set_NoDup (m : t K V) k v :
  NoDup (image f m) -> ~ In (f v) (image f m) -> NoDup (image f (set eqb m k v)).
Proof.
  induction m as [|[k' v'] r IH]; simpl; intros Hnd Hf.
  - constructor; [intros []|constructor].
  - apply NoDup_cons_iff in Hnd as [Hn Hr].
    destruct (eqb k' k); simpl.
    + constructor; [|assumption]. intro Hin. apply Hf. now right.
    + constructor.
      * intro Hin. apply image_set_In in Hin as [Heq|Hin].
        -- apply Hf. left. now symmetry.
        -- now apply Hn.
      * apply IH; [assumption|]. intro Hin. apply Hf. now right.
Qed.

Lemma image_set_replaced (m : t K V) k v v' :
  get eqb m k = Some v -> NoDup (image f m) -> f v <> f v' ->
  ~ In (f v) (image f (set eqb m k v')).
Proof.
  induction m as [|[k0 v0] r IH]; simpl; [discriminate|].
  intros Hg Hnd Hne. apply NoDup_cons_iff in Hnd as [Hn Hr].
  destruct (eqb k0 k) eqn:E; simpl.
  - injection Hg as ->. intros [Heq|Hin]; [now apply Hne|now apply Hn].
  - intros [Heq|Hin].
    + apply Hn. rewrite Heq. exact (image_get_In _ _ Hg).
    + exact (IH Hg Hr Hne Hin).
Qed.

End Image.

Lemma In_delete_key (m : t K V) k k' v :
  In (k', v) (delete eqb m k) -> k' <> k.
Proof.
  unfold delete. intros H Heq. apply filter_In in H as [_ H].
  simpl in H. subst k'. now rewrite eqb_refl in H.
Qed.

End Facts.
End JsMapFacts.

Lemma getHandleAddress_inj h h' :
  getHandleAddress h = getHandleAddress h' -> h = h'.
Proof.
  assert (P : forall x, HexString.Raw.to_N (getHandleAddress x) 0 = x).
  { intros [|p]; simpl; [reflexivity|].
    now rewrite HexString.Raw.to_N_of_pos. }
  intro H. rewrite <- (P h), <- (P h'). now rewrite H.
Qed.

Lemma NoDup_app_iff (A : Type) (l l' : list A) :
  NoDup (l ++ l') <-> NoDup l /\ NoDup l' /\ (forall x, In x l -> ~ In x l').
Proof.
  split.
  - intro H. split; [exact (NoDup_app_remove_r _ _ H)|].
    split; [exact (NoDup_app_remove_l _ _ H)|].
    induction l as [|a l IH]; simpl in *; [tauto|].
    apply NoDup_cons_iff in H as [Ha Hl].
    intros x [->|Hx] Hx'.
    + apply Ha. apply in_or_app. now right.
    + exact (IH Hl x Hx Hx').
  - intros [H1 [H2 H3]]. now apply NoDup_app.
Qed.

(* ------------------------------------------------------------------ *)
(** ** The scheduler *)

Module MultiFacts.
Import Multi.

Ltac break :=
  match goal with
  | |- context [if ?b then _ else _] => destruct b eqn:?
  | |- context [match ?x with Some _ => _ | None => _ end] => destruct x eqn:?
  end.

Section Scheduler.
Variable K : Constants.

Lemma fold_fail_one e l : forall s,
  fold_left (fail_one e) l s =
  {| handle := handle s; pendingTransfers := pendingTransfers s;
     curlToAddr := curlToAddr s; polling := polling s;
     pollTimer := pollTimer s; closed := closed s; immediate := immediate s;
     settled := settled s ++ rejections e l;
     nextPromise := nextPromise s;
     native := native s ++ (if handle s then removals l else []) |}.
Proof.
  induction l as [|p l IH]; intro s; simpl.
  - destruct s as [h ? ? ? ? ? ? ? ? ?]; simpl.
    destruct h; simpl; rewrite ?app_nil_r; reflexivity.
  - rewrite IH. unfold fail_one.
    destruct (handle s) eqn:Hh; simpl; rewrite ?Hh, <- !app_assoc; reflexivity.
Qed.

Lemma failAllPending_eq s e :
  failAllPending s e =
  {| handle := handle s; pendingTransfers := []; curlToAddr := [];
     polling := polling s; pollTimer := pollTimer s; closed := closed s;
     immediate := immediate s;
     settled := settled s ++ rejections e (JsMap.values (pendingTransfers s));
     nextPromise := nextPromise s;
     native := native s ++
       (if handle s then removals (JsMap.values (pendingTransfers s)) else []) |}.
Proof. unfold failAllPending. now rewrite fold_fail_one. Qed.

(** *** The fields no method but [close] writes *)

Lemma complete_frame s m :
  handle (complete K s m) = handle s /\ closed (complete K s m) = closed s /\
  nextPromise (complete K s m) = nextPromise s.
Proof. unfold complete. repeat break; simpl; auto. Qed.

Lemma drain_frame l : forall s,
  handle (drain K s l) = handle s /\ closed (drain K s l) = closed s /\
  nextPromise (drain K s l) = nextPromise s.
Proof.
  induction l as [|m l IH]; intro s; simpl; [auto|].
  destruct (IH (complete K (call curl_multi_info_read s) m)) as [-> [-> ->]].
  exact (complete_frame (call curl_multi_info_read s) m).
Qed.

Lemma checkCompleted_frame s l :
  handle (checkCompleted K s l) = handle s /\
  closed (checkCompleted K s l) = closed s /\
  nextPromise (checkCompleted K s l) = nextPromise s.
Proof. unfold checkCompleted. break; [auto|apply drain_frame]. Qed.

Lemma pollLoop_frame s o :
  handle (pollLoop K s o) = handle s /\ closed (pollLoop K s o) = closed s /\
  nextPromise (pollLoop K s o) = nextPromise s.
Proof.
  unfold pollLoop.
  repeat (break; rewrite ?failAllPending_eq; simpl; auto);
    exact (checkCompleted_frame (call curl_multi_perform s) (completions o)).
Qed.

Lemma startPolling_frame s o :
  handle (startPolling K s o) = handle s /\
  closed (startPolling K s o) = closed s /\
  nextPromise (startPolling K s o) = nextPromise s.
Proof.
  unfold startPolling. break; [auto|].
  exact (pollLoop_frame (set_polling true s) o).
Qed.

Lemma perform_closed s c a o :
  closed (fst (perform K s c a o)) = closed s.
Proof.
  unfold perform. repeat (break; simpl; auto).
  now destruct (startPolling_frame
    (set_maps (JsMap.set String.eqb (pendingTransfers s) (getHandleAddress c0)
        {| curl := c; pt_handle := c0; handleAddr := getHandleAddress c0;
           promise := nextPromise s |})
      (JsMap.set Nat.eqb (curlToAddr s) (curl_id c) (getHandleAddress c0))
      (call (curl_multi_add_handle c0 a) (new_promise s))) o) as [_ [-> _]].
Qed.

Lemma cancel_closed s c : closed (fst (cancel s c)) = closed s.
Proof. unfold cancel. repeat (break; simpl; auto). Qed.

Lemma close_closed s : closed (close s) = true.
Proof.
  unfold close. destruct (closed s) eqn:Hc; [assumption|].
  repeat (break; rewrite ?failAllPending_eq; simpl; auto).
Qed.

Lemma exec_closed s a : closed s = true -> closed (exec K s a) = true.
Proof.
  intro H. destruct a; simpl.
  - now rewrite perform_closed.
  - now rewrite cancel_closed.
  - apply close_closed.
  - break; [|assumption].
    now destruct (pollLoop_frame (set_timer (pollTimer s) false s) o)
      as [_ [-> _]].
Qed.

Lemma run_closed l : forall s, closed s = true -> closed (run K s l) = true.
Proof.
  induction l as [|a l IH]; intros s H; simpl; [assumption|].
  apply IH. now apply exec_closed.
Qed.

(** *** The invariant *)

Lemma Inv_ext s s' :
  handle s' = handle s -> pendingTransfers s' = pendingTransfers s ->
  closed s' = closed s -> settled s' = settled s ->
  nextPromise s' = nextPromise s -> Inv s -> Inv s'.
Proof.
  intros Hh Hp Hc Hs Hn [I1 I2 I3 I4 I5 I6 I7 I8].
  unfold done, waiting in *.
  constructor; unfold done, waiting; rewrite ?Hh, ?Hp, ?Hc, ?Hs, ?Hn; assumption.
Qed.

Lemma Inv_call c s : Inv s -> Inv (call c s).
Proof. now apply Inv_ext. Qed.

Lemma Inv_set_polling b s : Inv s -> Inv (set_polling b s).
Proof. now apply Inv_ext. Qed.

Lemma Inv_set_timer t i s : Inv s -> Inv (set_timer t i s).
Proof. now apply Inv_ext. Qed.

Lemma Inv_create : Inv create.
Proof.
  constructor; unfold done, waiting; simpl; try constructor; try tauto;
    try discriminate; auto.
Qed.

Lemma done_settle p x s : done (settle p x s) = done s ++ [p].
Proof. unfold done. simpl. now rewrite map_app. Qed.

(** A promise that was just created is rejected at once. *)
Lemma Inv_fresh_settle x s :
  Inv s -> Inv (settle (nextPromise s) x (new_promise s)).
Proof.
  intros [I1 I2 I3 I4 I5 I6 I7 I8].
  constructor; rewrite ?done_settle; unfold waiting; simpl;
    fold (waiting s); fold (done s); auto.
  - apply NoDup_app_iff. split; [assumption|]. split.
    + constructor; [intros []|constructor].
    + intros p Hp [<-|[]]. apply I4 in Hp. lia.
  - intros p Hp Hw. apply in_app_or in Hp as [Hp|[<-|[]]].
    + exact (I3 p Hp Hw).
    + apply I5 in Hw. lia.
  - intros p Hp. apply in_app_or in Hp as [Hp|[<-|[]]]; [|lia].
    apply I4 in Hp. lia.
  - intros p Hp. apply I5 in Hp. lia.
Qed.

(** A promise that was just created is stored in a pending record. *)
Lemma Inv_store s c h cm :
  Inv s -> handle s = true ->
  Inv (set_maps
         (JsMap.set String.eqb (pendingTransfers s) (getHandleAddress h)
            {| curl := c; pt_handle := h; handleAddr := getHandleAddress h;
               promise := nextPromise s |})
         cm (new_promise s)).
Proof.
  intros [I1 I2 I3 I4 I5 I6 I7 I8] Hh.
  assert (Hfresh : ~ In (nextPromise s) (waiting s)).
  { intro Hin. apply I5 in Hin. lia. }
  constructor; unfold waiting, done; simpl; fold (done s); auto.
  - apply (JsMapFacts.image_set_NoDup String.eqb String.eqb_eq); [exact I2|exact Hfresh].
  - intros p Hp Hw. apply (JsMapFacts.image_set_In String.eqb String.eqb_eq) in Hw as [->|Hw]; simpl in *.
    + apply I4 in Hp. lia.
    + exact (I3 p Hp Hw).
  - intros p Hp. apply I4 in Hp. lia.
  - intros p Hw. apply (JsMapFacts.image_set_In String.eqb String.eqb_eq) in Hw as [->|Hw]; simpl; [lia|].
    apply I5 in Hw. lia.
  - intros k t Hin.
    apply (JsMapFacts.In_set String.eqb String.eqb_eq) in Hin as [Heq|Hin].
    + now injection Heq as -> ->.
    + now apply I6.
  - intro Hnull. congruence.
Qed.

(** A pending record is taken out of the map and its promise settled. *)
Lemma Inv_settle_pending s k t x cm :
  Inv s -> JsMap.get String.eqb (pendingTransfers s) k = Some t ->
  Inv (settle (promise t) x
         (set_maps (JsMap.delete String.eqb (pendingTransfers s) k) cm s)).
Proof.
  intros [I1 I2 I3 I4 I5 I6 I7 I8] Hget.
  pose proof (JsMapFacts.image_get_In String.eqb String.eqb_eq promise _ _ Hget) as Hw.
  fold (waiting s) in Hw.
  constructor; rewrite ?done_settle; unfold waiting, done; simpl;
    fold (done s); auto.
  - apply NoDup_app_iff. split; [assumption|]. split.
    + constructor; [intros []|constructor].
    + intros p Hp [<-|[]]. exact (I3 _ Hp Hw).
  - now apply JsMapFacts.image_delete_NoDup.
  - intros p Hp Hin. apply in_app_or in Hp as [Hp|[<-|[]]].
    + apply JsMapFacts.image_delete_In in Hin. exact (I3 p Hp Hin).
    + exact (JsMapFacts.image_get_delete String.eqb String.eqb_eq promise _ _ Hget I2 Hin).
  - intros p Hp. apply in_app_or in Hp as [Hp|[<-|[]]]; auto.
  - intros p Hin. apply JsMapFacts.image_delete_In in Hin. auto.
  - intros k' t' Hin. apply JsMapFacts.In_delete in Hin. auto.
  - intro Hnull. apply I8 in Hnull. now rewrite Hnull.
Qed.

Lemma fst_rejections e (m : JsMap.t string PendingTransfer) :
  map fst (rejections e (JsMap.values m)) = JsMap.image promise m.
Proof.
  unfold rejections, JsMap.values, JsMap.image.
  rewrite !map_map. reflexivity.
Qed.

Lemma Inv_failAllPending s e : Inv s -> Inv (failAllPending s e).
Proof.
  intros [I1 I2 I3 I4 I5 I6 I7 I8]. rewrite failAllPending_eq.
  constructor; unfold waiting, done; simpl; auto;
    rewrite ?map_app, ?fst_rejections; fold (done s); fold (waiting s).
  - apply NoDup_app_iff. auto.
  - constructor.
  - intros p Hp. apply in_app_or in Hp as [Hp|Hp]; auto.
  - intros _ [].
  - intros _ _ [].
Qed.

Lemma Inv_complete s m : Inv s -> Inv (complete K s m).
Proof.
  intro I. unfold complete, findPendingByHandle.
  destruct (msg m =? CURLMSG_DONE K)%Z; [|assumption].
  destruct (JsMap.get String.eqb (pendingTransfers s)
              (getHandleAddress (easyHandle m))) as [p|] eqn:Hg; [|assumption].
  pose proof (inv_key I _ _ (JsMapFacts.get_In String.eqb String.eqb_eq _ _ Hg)) as Hk.
  rewrite Hk.
  destruct (result m =? CURLE_OK K)%Z;
    apply (Inv_settle_pending
             (s := call (curl_multi_remove_handle (pt_handle p)) s));
    auto using Inv_call.
Qed.

Lemma Inv_drain l : forall s, Inv s -> Inv (drain K s l).
Proof.
  induction l as [|m l IH]; intros s I; simpl.
  - now apply Inv_call.
  - apply IH. apply Inv_complete. now apply Inv_call.
Qed.

Lemma Inv_checkCompleted s l : Inv s -> Inv (checkCompleted K s l).
Proof. intro I. unfold checkCompleted. break; [assumption|now apply Inv_drain]. Qed.

Lemma Inv_pollLoop s o : Inv s -> Inv (pollLoop K s o).
Proof.
  intro I. unfold pollLoop.
  repeat break;
    repeat first [ apply Inv_set_polling | apply Inv_set_timer
                 | apply Inv_failAllPending | apply Inv_call
                 | apply Inv_checkCompleted ];
    assumption.
Qed.

Lemma Inv_startPolling s o : Inv s -> Inv (startPolling K s o).
Proof.
  intro I. unfold startPolling. break; [assumption|].
  apply Inv_pollLoop. now apply Inv_set_polling.
Qed.

Lemma Inv_perform s c a o : Inv s -> Inv (fst (perform K s c a o)).
Proof.
  intro I. unfold perform. simpl.
  destruct (closed s) eqn:Hc; simpl; [now apply Inv_fresh_settle|].
  destruct (handle s) eqn:Hh; simpl; [|now apply Inv_fresh_settle].
  destruct (getHandle c) as [h|]; simpl; [|now apply Inv_fresh_settle].
  destruct (neqb a (CURLM_OK K)); simpl.
  - apply (Inv_ext (s := settle (nextPromise s) (Reject (ErrAddHandle a))
                           (new_promise s))); auto.
    now apply Inv_fresh_settle.
  - apply Inv_startPolling.
    apply (Inv_ext (s := set_maps
         (JsMap.set String.eqb (pendingTransfers s) (getHandleAddress h)
            {| curl := c; pt_handle := h; handleAddr := getHandleAddress h;
               promise := nextPromise s |})
         (JsMap.set Nat.eqb (curlToAddr s) (curl_id c) (getHandleAddress h))
         (new_promise s))); auto.
    now apply Inv_store.
Qed.

Lemma Inv_cancel s c : Inv s -> Inv (fst (cancel s c)).
Proof.
  intro I. unfold cancel. repeat (break; simpl; auto).
  apply (Inv_settle_pending
           (s := call (curl_multi_remove_handle (pt_handle p)) s));
    auto using Inv_call.
Qed.

Lemma Inv_close s : Inv s -> Inv (close s).
Proof.
  intro I. unfold close. destruct (closed s) eqn:Hc; [assumption|].
  assert (I' : Inv (failAllPending
            (if pollTimer (set_closed true s)
             then set_timer false false (set_closed true s)
             else set_closed true s) ErrMultiClosed)).
  { apply Inv_failAllPending. destruct I as [I1 I2 I3 I4 I5 I6 I7 I8].
    break; constructor; unfold done, waiting; simpl; auto; discriminate. }
  break; [|assumption].
  destruct I' as [I1 I2 I3 I4 I5 I6 I7 I8].
  rewrite failAllPending_eq in *.
  constructor; unfold done, waiting in *; simpl in *; auto.
  repeat break; simpl in *; auto.
Qed.

Lemma Inv_exec s a : Inv s -> Inv (exec K s a).
Proof.
  intro I. destruct a; simpl.
  - now apply Inv_perform.
  - now apply Inv_cancel.
  - now apply Inv_close.
  - break; [|assumption]. apply Inv_pollLoop. now apply Inv_set_timer.
Qed.

Lemma Inv_run l : forall s, Inv s -> Inv (run K s l).
Proof.
  induction l as [|a l IH]; intros s I; simpl; [assumption|].
  apply IH. now apply Inv_exec.
Qed.

Lemma Inv_reachable l : Inv (run K create l).
Proof. apply Inv_run, Inv_create. Qed.

(** *** The log of settlements only grows *)

Lemma grows_refl s : grows s s.
Proof. exists []. now rewrite app_nil_r. Qed.

Lemma grows_trans s1 s2 s3 : grows s1 s2 -> grows s2 s3 -> grows s1 s3.
Proof.
  intros [e1 H1] [e2 H2]. exists (e1 ++ e2).
  now rewrite H2, H1, app_assoc.
Qed.

Lemma grows_same s s' : settled s' = settled s -> grows s s'.
Proof. intro H. exists []. now rewrite app_nil_r. Qed.

Lemma grows_settle p x s : grows s (settle p x s).
Proof. now exists [(p, x)]. Qed.

Lemma grows_failAllPending s e : grows s (failAllPending s e).
Proof. rewrite failAllPending_eq. eexists. reflexivity. Qed.

Lemma grows_complete s m : grows s (complete K s m).
Proof.
  unfold complete. destruct (msg m =? CURLMSG_DONE K)%Z; [|apply grows_refl].
  destruct (findPendingByHandle s (easyHandle m)); [|apply grows_refl].
  destruct (result m =? CURLE_OK K)%Z; eexists; reflexivity.
Qed.

Lemma grows_drain l : forall s, grows s (drain K s l).
Proof.
  induction l as [|m l IH]; intro s; simpl.
  - now apply grows_same.
  - eapply grows_trans; [|apply IH].
    exact (grows_complete (call curl_multi_info_read s) m).
Qed.

Lemma grows_checkCompleted s l : grows s (checkCompleted K s l).
Proof. unfold checkCompleted. break; [apply grows_refl|apply grows_drain]. Qed.

Lemma grows_pollLoop s o : grows s (pollLoop K s o).
Proof.
  unfold pollLoop.
  destruct (closed s || negb (handle s)
            || Nat.eqb (JsMap.size (pendingTransfers s)) 0);
    [now apply grows_same|].
  destruct (neqb (performCode o) (CURLM_OK K)
            && neqb (performCode o) (CURLM_CALL_MULTI_PERFORM K)).
  - rewrite failAllPending_eq. eexists. reflexivity.
  - eapply grows_trans;
      [exact (grows_checkCompleted (call curl_multi_perform s) (completions o))|].
    break; [|now apply grows_same].
    break; [|now apply grows_same].
    rewrite failAllPending_eq. eexists. reflexivity.
Qed.

Lemma grows_startPolling s o : grows s (startPolling K s o).
Proof.
  unfold startPolling. break; [apply grows_refl|].
  exact (grows_pollLoop (set_polling true s) o).
Qed.

Lemma grows_perform s c a o : grows s (fst (perform K s c a o)).
Proof.
  unfold perform. simpl.
  destruct (closed s); simpl; [eexists; reflexivity|].
  destruct (handle s); simpl; [|eexists; reflexivity].
  destruct (getHandle c) as [h|]; simpl; [|eexists; reflexivity].
  destruct (neqb a (CURLM_OK K)); simpl; [eexists; reflexivity|].
  match goal with |- grows _ (startPolling _ ?s1 _) =>
    apply (grows_trans (s2 := s1)); [now apply grows_same|apply grows_startPolling]
  end.
Qed.

Lemma grows_cancel s c : grows s (fst (cancel s c)).
Proof.
  unfold cancel. repeat (break; simpl; try apply grows_refl).
  eexists. reflexivity.
Qed.

Lemma grows_close s : grows s (close s).
Proof.
  unfold close. destruct (closed s); [apply grows_refl|].
  rewrite !failAllPending_eq. simpl.
  repeat break; eexists; simpl; reflexivity.
Qed.

Lemma grows_exec s a : grows s (exec K s a).
Proof.
  destruct a; simpl.
  - apply grows_perform.
  - apply grows_cancel.
  - apply grows_close.
  - break; [|apply grows_refl].
    exact (grows_pollLoop (set_timer (pollTimer s) false s) o).
Qed.

Lemma grows_run l : forall s, grows s (run K s l).
Proof.
  induction l as [|a l IH]; intro s; simpl; [apply grows_refl|].
  eapply grows_trans; [apply grows_exec|apply IH].
Qed.

Lemma run_app l l' s : run K s (l ++ l') = run K (run K s l) l'.
Proof. unfold run. apply fold_left_app. Qed.

Lemma calls_of_absent p log : ~ In p (map fst log) -> calls_of p log = [].
Proof.
  induction log as [|[q x] r IH]; simpl; intro H; [reflexivity|].
  unfold calls_of in *. simpl.
  destruct (Nat.eqb q p) eqn:E.
  - apply Nat.eqb_eq in E. exfalso. apply H. now left.
  - apply IH. intro Hin. apply H. now right.
Qed.

Lemma calls_of_NoDup p log :
  NoDup (map fst log) -> List.length (calls_of p log) <= 1.
Proof.
  induction log as [|[q x] r IH]; simpl; intro H; [auto|].
  apply NoDup_cons_iff in H as [Hq Hr].
  unfold calls_of in *. simpl.
  destruct (Nat.eqb q p) eqn:E; [|now apply IH].
  apply Nat.eqb_eq in E. subst q. simpl.
  fold (calls_of p r). now rewrite (calls_of_absent _ _ Hq).
Qed.

Lemma calls_of_app p l1 l2 : calls_of p (l1 ++ l2) = calls_of p l1 ++ calls_of p l2.
Proof. unfold calls_of. now rewrite filter_app, map_app. Qed.

(** C9. Across every sequence of submissions, cancellations, closes and
    runs of the poll loop, with any answers of the engine, [resolve] or
    [reject] is called at most once for each promise; and once it was
    called, whatever happens later adds no further call for that promise. *)
Theorem resolved_at_most_once (before after : list Action) (p : nat) :
  List.length (outcome (run K create (before ++ after)) p) <= 1 /\
  (forall x, In x (outcome (run K create before) p) ->
             outcome (run K create (before ++ after)) p = [x]).
Proof.
  assert (Hle : List.length (outcome (run K create (before ++ after)) p) <= 1).
  { apply calls_of_NoDup. exact (inv_done (Inv_reachable (before ++ after))). }
  split; [exact Hle|].
  intros x Hx. rewrite run_app in *.
  destruct (grows_run after (run K create before)) as [ext Hext].
  assert (Ho : forall s, outcome s p = calls_of p (settled s)) by reflexivity.
  rewrite Ho in *. rewrite Hext, calls_of_app in *.
  destruct (calls_of p (settled (run K create before))) as [|y ys];
    [destruct Hx|].
  rewrite length_app in Hle. simpl in Hle.
  destruct ys; simpl in *; [|lia].
  destruct (calls_of p ext); simpl in *; [|lia].
  destruct Hx as [->|[]]. reflexivity.
Qed.

(** *** Cancellation *)

Lemma registered_call log c h :
  registered K (log ++ [c]) h = after_call K h (registered K log h) c.
Proof. unfold registered. now rewrite fold_left_app. Qed.

(** C3. When the scheduler holds no pending record for the object given
    to [cancel], the call returns false and the state is as before.  When
    it holds one, the call returns true, the record is gone from the
    pending set, [curl_multi_remove_handle] was called on its handle,
    which is then no longer in the native context, its promise was
    rejected with the cancellation error, and cancelling the same object
    again returns false and changes nothing. *)
Theorem cancel_spec (l : list Action) (c : Curl) :
  let s := run K create l in
  ((forall addr, JsMap.get Nat.eqb (curlToAddr s) (curl_id c) = Some addr ->
                 JsMap.get String.eqb (pendingTransfers s) addr = None) ->
   cancel s c = (s, false)) /\
  (forall addr t,
     JsMap.get Nat.eqb (curlToAddr s) (curl_id c) = Some addr ->
     JsMap.get String.eqb (pendingTransfers s) addr = Some t ->
     let s' := fst (cancel s c) in
     snd (cancel s c) = true /\
     pendingTransfers s' = JsMap.delete String.eqb (pendingTransfers s) addr /\
     JsMap.get String.eqb (pendingTransfers s') addr = None /\
     ~ In (promise t) (waiting s') /\
     native s' = native s ++ [curl_multi_remove_handle (pt_handle t)] /\
     registered K (native s') (pt_handle t) = false /\
     settled s' = settled s ++ [(promise t, Reject ErrCancelled)] /\
     cancel s' c = (s', false)).
Proof.
  intro s. split.
  - intro Hno. unfold cancel. destruct (negb (handle s)); [reflexivity|].
    destruct (JsMap.get Nat.eqb (curlToAddr s) (curl_id c)) as [addr|] eqn:Ha;
      [|reflexivity].
    now rewrite (Hno addr eq_refl).
  - intros addr t Ha Ht s'.
    pose proof (Inv_reachable l) as I. fold s in I.
    assert (Hh : handle s = true).
    { destruct (handle s) eqn:Hh; [reflexivity|].
      apply (inv_null I) in Hh. rewrite Hh in Ht. discriminate. }
    assert (Hs' : cancel s c =
      (settle (promise t) (Reject ErrCancelled)
         (set_maps (JsMap.delete String.eqb (pendingTransfers s) addr)
            (JsMap.delete Nat.eqb (curlToAddr s) (curl_id c))
            (call (curl_multi_remove_handle (pt_handle t)) s)), true)).
    { unfold cancel. now rewrite Hh, Ha, Ht. }
    unfold s'. rewrite Hs'. simpl.
    repeat split.
    + apply JsMapFacts.get_delete_same.
    + unfold waiting. simpl.
      exact (JsMapFacts.image_get_delete String.eqb String.eqb_eq promise _ _
               Ht (inv_waiting I)).
    + rewrite registered_call. simpl. now rewrite N.eqb_refl.
    + unfold cancel. simpl. rewrite Hh. simpl.
      now rewrite JsMapFacts.get_delete_same.
Qed.

(** *** Shutdown *)

Lemma close_open s :
  closed s = false ->
  close s =
  {| handle := false; pendingTransfers := []; curlToAddr := [];
     polling := polling s; pollTimer := false;
     closed := true;
     immediate := if pollTimer s then false else immediate s;
     settled := settled s ++
       rejections ErrMultiClosed (JsMap.values (pendingTransfers s));
     nextPromise := nextPromise s;
     native := native s ++
       (if handle s
        then removals (JsMap.values (pendingTransfers s)) ++ [curl_multi_cleanup]
        else []) |}.
Proof.
  intro Hc. unfold close. rewrite Hc, failAllPending_eq. simpl.
  destruct (pollTimer s) eqn:Ht; simpl; destruct (handle s) eqn:Hh; simpl;
    unfold set_handle, call; simpl; rewrite <- ?app_assoc, ?app_nil_r, ?Ht;
    reflexivity.
Qed.

Lemma Shut_exec s a : Shut s -> Shut (exec K s a).
Proof.
  intros H. destruct (closed s) eqn:Hc.
  - destruct (H Hc) as [Hh [Hp Hm]]. intros _.
    destruct a; simpl.
    + unfold perform. simpl. rewrite Hc. simpl. auto.
    + unfold cancel. rewrite Hh. simpl. auto.
    + unfold close. rewrite Hc. auto.
    + break; [|auto]. unfold pollLoop. simpl. rewrite Hc. simpl. auto.
  - destruct a; simpl; intro Hc'.
    + rewrite perform_closed in Hc'. congruence.
    + rewrite cancel_closed in Hc'. congruence.
    + rewrite (close_open s Hc). simpl. auto.
    + destruct (immediate s); [|congruence].
      destruct (pollLoop_frame (set_timer (pollTimer s) false s) o)
        as [_ [Hcl _]].
      rewrite Hcl in Hc'. simpl in Hc'. congruence.
Qed.

Lemma Shut_run l : forall s, Shut s -> Shut (run K s l).
Proof.
  induction l as [|a l IH]; intros s H; simpl; [assumption|].
  apply IH. now apply Shut_exec.
Qed.

Lemma Shut_reachable l : Shut (run K create l).
Proof. apply Shut_run. intro H. discriminate. Qed.

(** C4. [close] leaves the scheduler closed, without a native context and
    without pending records; when the scheduler was open, every pending
    promise was rejected with the closed error, every pending handle was
    removed from the native context and the context was released with
    [curl_multi_cleanup].  From then on, whatever else happens, every
    submission is rejected at once with the has-been-closed error and
    stores nothing, and [close] changes nothing. *)
Theorem close_spec (l after : list Action) (c : Curl) (a : Z) (o : PollAnswers) :
  let s := run K create l in
  let s' := close s in
  (closed s' = true /\ handle s' = false /\
   pendingTransfers s' = [] /\ curlToAddr s' = []) /\
  (closed s = false ->
     settled s' = settled s ++
       rejections ErrMultiClosed (JsMap.values (pendingTransfers s)) /\
     native s' = native s ++
       removals (JsMap.values (pendingTransfers s)) ++ [curl_multi_cleanup]) /\
  (let s2 := run K s' after in
   perform K s2 c a o =
     (settle (nextPromise s2) (Reject ErrClosed) (new_promise s2),
      nextPromise s2) /\
   pendingTransfers s2 = [] /\
   close s2 = s2).
Proof.
  intros s s'.
  assert (Hc' : closed s' = true) by apply close_closed.
  assert (Hshut : Shut s').
  { change (Shut (exec K s Close)). apply Shut_exec, Shut_reachable. }
  split; [|split].
  - split; [exact Hc'|]. exact (Hshut Hc').
  - intro Hc. unfold s'. rewrite (close_open s Hc). simpl.
    assert (Hh : handle s = true) by exact (inv_open (Inv_reachable l) Hc).
    rewrite Hh. auto.
  - intro s2.
    assert (Hc2 : closed s2 = true) by now apply run_closed.
    split; [|split].
    + unfold perform. simpl. now rewrite Hc2.
    + exact (proj1 (proj2 (Shut_run after Hshut Hc2))).
    + unfold close. now rewrite Hc2.
Qed.

(** *** Faults of the multiplexing context *)

(** C2. In a run of the poll loop on an open scheduler that holds pending
    records: when [curl_multi_perform] answers a status that is neither
    [CURLM_OK] nor [CURLM_CALL_MULTI_PERFORM], every pending promise is
    rejected with one and the same perform error and no record is left;
    when [curl_multi_poll] is called and answers a status other than
    [CURLM_OK], every promise still pending after the completions were
    drained is rejected with one and the same poll error and no record is
    left. *)
Theorem fault_fails_all_pending (s : CurlMulti) (o : PollAnswers) :
  closed s = false -> handle s = true -> pendingTransfers s <> [] ->
  let s' := pollLoop K s o in
  let s1 := checkCompleted K (call curl_multi_perform s) (completions o) in
  (performCode o <> CURLM_OK K ->
   performCode o <> CURLM_CALL_MULTI_PERFORM K ->
     pendingTransfers s' = [] /\ curlToAddr s' = [] /\
     settled s' = settled s ++
       rejections (ErrPerform (performCode o)) (JsMap.values (pendingTransfers s)) /\
     native s' = native s ++ [curl_multi_perform] ++
       removals (JsMap.values (pendingTransfers s))) /\
  ((performCode o = CURLM_OK K \/ performCode o = CURLM_CALL_MULTI_PERFORM K) ->
   (0 < runningHandles o)%Z \/ pendingTransfers s1 <> [] ->
   pollCode o <> CURLM_OK K ->
     pendingTransfers s' = [] /\ curlToAddr s' = [] /\
     settled s' = settled s1 ++
       rejections (ErrPoll (pollCode o)) (JsMap.values (pendingTransfers s1)) /\
     native s' = native s1 ++ [curl_multi_poll 10] ++
       removals (JsMap.values (pendingTransfers s1))).
Proof.
  intros Hc Hh Hp s' s1.
  assert (Hsize : Nat.eqb (JsMap.size (pendingTransfers s)) 0 = false).
  { destruct (pendingTransfers s); [contradiction|reflexivity]. }
  split.
  - intros H1 H2.
    assert (E : s' = set_polling false
                  (failAllPending (call curl_multi_perform s)
                     (ErrPerform (performCode o)))).
    { unfold s', pollLoop, neqb. rewrite Hc, Hh, Hsize.
      destruct (Z.eqb_spec (performCode o) (CURLM_OK K)); [contradiction|].
      destruct (Z.eqb_spec (performCode o) (CURLM_CALL_MULTI_PERFORM K));
        [contradiction|reflexivity]. }
    rewrite E, failAllPending_eq. simpl. rewrite Hh, <- app_assoc. auto.
  - intros H1 H2 H3.
    assert (E : s' = set_polling false
                  (failAllPending (call (curl_multi_poll 10) s1)
                     (ErrPoll (pollCode o)))).
    { unfold s', pollLoop, neqb. rewrite Hc, Hh, Hsize. cbn [orb negb].
      assert (Hnf : negb (performCode o =? CURLM_OK K)%Z
                    && negb (performCode o =? CURLM_CALL_MULTI_PERFORM K)%Z
                    = false).
      { destruct H1 as [->| ->]; rewrite Z.eqb_refl; simpl;
          [reflexivity|apply andb_false_r]. }
      rewrite Hnf. fold s1.
      assert (Hgo : (0 <? runningHandles o)%Z
                    || Nat.ltb 0 (JsMap.size (pendingTransfers s1)) = true).
      { destruct H2 as [H2|H2].
        - apply Z.ltb_lt in H2. now rewrite H2.
        - destruct (pendingTransfers s1); [contradiction|].
          simpl. apply orb_true_r. }
      rewrite Hgo.
      destruct (Z.eqb_spec (pollCode o) (CURLM_OK K));
        [contradiction|reflexivity]. }
    rewrite E, failAllPending_eq. simpl.
    destruct (checkCompleted_frame (call curl_multi_perform s) (completions o))
      as [Hh1 _]. fold s1 in Hh1. simpl in Hh1. rewrite Hh1, Hh.
    rewrite <- app_assoc. auto.
Qed.

(** *** Submission *)

Lemma Reg_same s s' :
  pendingTransfers s' = pendingTransfers s -> native s' = native s ->
  Reg K s -> Reg K s'.
Proof.
  intros Hp Hn H k t Hin. rewrite Hp in Hin. rewrite Hn. exact (H k t Hin).
Qed.

Lemma Reg_call c s :
  (forall h, after_call K h true c = true) -> Reg K s -> Reg K (call c s).
Proof.
  intros Hc H k t Hin. destruct (H k t Hin) as [Ha Hr]. split; [exact Ha|].
  simpl. now rewrite registered_call, Hr.
Qed.

Lemma Reg_empty s : pendingTransfers s = [] -> Reg K s.
Proof. intros H k t Hin. rewrite H in Hin. destruct Hin. Qed.

Lemma Reg_take s k p x cm :
  Inv s -> Reg K s -> JsMap.get String.eqb (pendingTransfers s) k = Some p ->
  Reg K (settle (promise p) x
         (set_maps (JsMap.delete String.eqb (pendingTransfers s) k) cm
            (call (curl_multi_remove_handle (pt_handle p)) s))).
Proof.
  intros I H Hget k' t' Hin. simpl in Hin.
  assert (Hne : k' <> k).
  { eapply (JsMapFacts.In_delete_key String.eqb String.eqb_eq). exact Hin. }
  apply JsMapFacts.In_delete in Hin.
  destruct (H k' t' Hin) as [Ha Hr]. split; [exact Ha|].
  simpl. rewrite registered_call, Hr. simpl.
  destruct (N.eqb_spec (pt_handle p) (pt_handle t')) as [Heq|]; [|reflexivity].
  exfalso. apply Hne.
  pose proof (JsMapFacts.get_In String.eqb String.eqb_eq _ _ Hget) as Hin'.
  destruct (H k p Hin') as [Ha' _].
  rewrite <- (inv_key I _ _ Hin), <- (inv_key I _ _ Hin'), Ha, Ha'.
  now rewrite Heq.
Qed.

Lemma Reg_store s c h cm :
  Reg K s ->
  Reg K (set_maps
         (JsMap.set String.eqb (pendingTransfers s) (getHandleAddress h)
            {| curl := c; pt_handle := h; handleAddr := getHandleAddress h;
               promise := nextPromise s |})
         cm (call (curl_multi_add_handle h (CURLM_OK K)) (new_promise s))).
Proof.
  intros H k t Hin. simpl in Hin.
  apply (JsMapFacts.In_set String.eqb String.eqb_eq) in Hin as [Heq|Hin].
  - injection Heq as -> ->. simpl. split; [reflexivity|].
    rewrite registered_call. simpl. now rewrite N.eqb_refl, Z.eqb_refl.
  - destruct (H k t Hin) as [Ha Hr]. split; [exact Ha|].
    simpl. rewrite registered_call, Hr. simpl. now destruct (_ && _).
Qed.

Lemma Reg_complete s m : Inv s -> Reg K s -> Reg K (complete K s m).
Proof.
  intros I H. unfold complete, findPendingByHandle.
  destruct (msg m =? CURLMSG_DONE K)%Z; [|assumption].
  destruct (JsMap.get String.eqb (pendingTransfers s)
              (getHandleAddress (easyHandle m))) as [p|] eqn:Hg; [|assumption].
  rewrite (inv_key I _ _ (JsMapFacts.get_In String.eqb String.eqb_eq _ _ Hg)).
  destruct (result m =? CURLE_OK K)%Z; exact (@Reg_take _ _ _ _ _ I H Hg).
Qed.

Lemma Reg_drain l : forall s, Inv s -> Reg K s -> Reg K (drain K s l).
Proof.
  induction l as [|m l IH]; intros s I H; simpl.
  - now apply Reg_call.
  - apply IH.
    + apply Inv_complete. now apply Inv_call.
    + apply Reg_complete; [now apply Inv_call|now apply Reg_call].
Qed.

Lemma Reg_checkCompleted s l : Inv s -> Reg K s -> Reg K (checkCompleted K s l).
Proof.
  intros I H. unfold checkCompleted. break; [assumption|now apply Reg_drain].
Qed.

Lemma Reg_failAllPending s e : Reg K (failAllPending s e).
Proof. apply Reg_empty. now rewrite failAllPending_eq. Qed.

Lemma Reg_pollLoop s o : Inv s -> Reg K s -> Reg K (pollLoop K s o).
Proof.
  intros I H. unfold pollLoop.
  destruct (closed s || negb (handle s)
            || Nat.eqb (JsMap.size (pendingTransfers s)) 0);
    [exact (Reg_same (set_polling false s) eq_refl eq_refl H)|].
  destruct (neqb (performCode o) (CURLM_OK K)
            && neqb (performCode o) (CURLM_CALL_MULTI_PERFORM K)).
  - apply (Reg_same (s := failAllPending (call curl_multi_perform s)
                            (ErrPerform (performCode o)))); auto.
    apply Reg_failAllPending.
  - assert (H1 : Reg K (checkCompleted K (call curl_multi_perform s)
                        (completions o))).
    { apply Reg_checkCompleted; [now apply Inv_call|now apply Reg_call]. }
    break; [|exact (Reg_same (set_polling false _) eq_refl eq_refl H1)].
    break.
    + apply (Reg_same (s := failAllPending
                 (call (curl_multi_poll 10)
                    (checkCompleted K (call curl_multi_perform s)
                       (completions o)))
                 (ErrPoll (pollCode o)))); auto.
      apply Reg_failAllPending.
    + apply (Reg_same (s := call (curl_multi_poll 10)
                 (checkCompleted K (call curl_multi_perform s)
                    (completions o)))); auto.
      now apply Reg_call.
Qed.

Lemma Reg_startPolling s o : Inv s -> Reg K s -> Reg K (startPolling K s o).
Proof.
  intros I H. unfold startPolling. break; [assumption|].
  apply Reg_pollLoop; [now apply Inv_set_polling|].
  exact (Reg_same (set_polling true s) eq_refl eq_refl H).
Qed.

Lemma perform_open s c h a o :
  closed s = false -> handle s = true -> getHandle c = Some h ->
  perform K s c a o =
  if neqb a (CURLM_OK K)
  then (settle (nextPromise s) (Reject (ErrAddHandle a))
          (call (curl_multi_add_handle h a) (new_promise s)), nextPromise s)
  else (startPolling K (stored s c h a) o, nextPromise s).
Proof. intros Hc Hh Hg. unfold perform. simpl. now rewrite Hc, Hh, Hg. Qed.

Lemma Inv_stored s c h a : Inv s -> handle s = true -> Inv (stored s c h a).
Proof.
  intros I Hh.
  apply (Inv_ext (s := set_maps
         (JsMap.set String.eqb (pendingTransfers s) (getHandleAddress h)
            {| curl := c; pt_handle := h; handleAddr := getHandleAddress h;
               promise := nextPromise s |})
         (JsMap.set Nat.eqb (curlToAddr s) (curl_id c) (getHandleAddress h))
         (new_promise s))); auto.
  now apply Inv_store.
Qed.

Lemma Reg_perform s c a o : Inv s -> Reg K s -> Reg K (fst (perform K s c a o)).
Proof.
  intros I H.
  destruct (closed s) eqn:Hc;
    [unfold perform; simpl; rewrite Hc;
     exact (Reg_same (settle _ _ (new_promise s)) eq_refl eq_refl H)|].
  destruct (handle s) eqn:Hh;
    [|unfold perform; simpl; rewrite Hc, Hh;
      exact (Reg_same (settle _ _ (new_promise s)) eq_refl eq_refl H)].
  destruct (getHandle c) as [h|] eqn:Hg;
    [|unfold perform; simpl; rewrite Hc, Hh, Hg;
      exact (Reg_same (settle _ _ (new_promise s)) eq_refl eq_refl H)].
  rewrite (@perform_open s c h a o Hc Hh Hg). unfold neqb.
  destruct (Z.eqb_spec a (CURLM_OK K)) as [->|Hne]; simpl.
  - apply Reg_startPolling; [now apply Inv_stored|now apply Reg_store].
  - apply (Reg_same (s := call (curl_multi_add_handle h a) s)); auto.
    apply Reg_call; [|assumption]. intro h'. simpl. now destruct (_ && _).
Qed.

Lemma Reg_cancel s c : Inv s -> Reg K s -> Reg K (fst (cancel s c)).
Proof.
  intros I H. unfold cancel. destruct (negb (handle s)); [assumption|].
  destruct (JsMap.get Nat.eqb (curlToAddr s) (curl_id c)) as [addr|];
    [|assumption].
  destruct (JsMap.get String.eqb (pendingTransfers s) addr) as [p|] eqn:Hg;
    [|assumption].
  exact (@Reg_take _ _ _ _ _ I H Hg).
Qed.

Lemma Reg_close s : Reg K s -> Reg K (close s).
Proof.
  intro H. destruct (closed s) eqn:Hc; [unfold close; now rewrite Hc|].
  apply Reg_empty. now rewrite (close_open s Hc).
Qed.

Lemma Reg_exec s a : Inv s -> Reg K s -> Reg K (exec K s a).
Proof.
  intros I H. destruct a; simpl.
  - now apply Reg_perform.
  - now apply Reg_cancel.
  - now apply Reg_close.
  - break; [|assumption].
    apply Reg_pollLoop; [now apply Inv_set_timer|].
    exact (Reg_same (set_timer (pollTimer s) false s) eq_refl eq_refl H).
Qed.

Lemma Reg_run l : forall s, Inv s -> Reg K s -> Reg K (run K s l).
Proof.
  induction l as [|a l IH]; intros s I H; simpl; [assumption|].
  apply IH; [now apply Inv_exec|now apply Reg_exec].
Qed.

Lemma Reg_reachable l : Reg K (run K create l).
Proof. apply Reg_run; [apply Inv_create|now apply Reg_empty]. Qed.

Lemma complete_polling s m : polling (complete K s m) = polling s.
Proof. unfold complete. repeat break; reflexivity. Qed.

Lemma drain_polling l : forall s, polling (drain K s l) = polling s.
Proof.
  induction l as [|m l IH]; intro s; simpl; [reflexivity|].
  rewrite IH. exact (complete_polling (call curl_multi_info_read s) m).
Qed.

Lemma checkCompleted_polling s l : polling (checkCompleted K s l) = polling s.
Proof. unfold checkCompleted. break; [reflexivity|apply drain_polling]. Qed.

Lemma size_0 (m : JsMap.t string PendingTransfer) :
  Nat.eqb (JsMap.size m) 0 = true -> m = [].
Proof. destruct m; [reflexivity|discriminate]. Qed.

Lemma size_not_pos (m : JsMap.t string PendingTransfer) :
  Nat.ltb 0 (JsMap.size m) = false -> m = [].
Proof. destruct m; [reflexivity|discriminate]. Qed.

Lemma Busy_empty s : pendingTransfers s = [] -> Busy s.
Proof. intros H Hne. contradiction. Qed.

Lemma Busy_pollLoop s o : Inv s -> Shut s -> Busy s -> Busy (pollLoop K s o).
Proof.
  intros I Sh B. unfold pollLoop.
  destruct (closed s) eqn:Hc; simpl.
  { apply Busy_empty. exact (proj1 (proj2 (Sh Hc))). }
  destruct (handle s) eqn:Hh; simpl.
  2:{ apply Busy_empty. exact (inv_null I Hh). }
  destruct (Nat.eqb (JsMap.size (pendingTransfers s)) 0) eqn:Hz.
  { apply Busy_empty. exact (size_0 _ Hz). }
  assert (Hp : polling s = true).
  { apply B. intro E. rewrite E in Hz. discriminate. }
  destruct (neqb (performCode o) (CURLM_OK K)
            && neqb (performCode o) (CURLM_CALL_MULTI_PERFORM K)).
  { apply Busy_empty. now rewrite failAllPending_eq. }
  destruct (Z.ltb 0 (runningHandles o)
            || Nat.ltb 0 (JsMap.size (pendingTransfers
                 (checkCompleted K (call curl_multi_perform s) (completions o)))))
    eqn:Hgo.
  - destruct (neqb (pollCode o) (CURLM_OK K)).
    + apply Busy_empty. now rewrite failAllPending_eq.
    + intros _. simpl. now rewrite checkCompleted_polling.
  - apply Busy_empty. apply orb_false_iff in Hgo as [_ Hgo].
    exact (size_not_pos _ Hgo).
Qed.

Lemma Shut_open s : closed s = false -> Shut s.
Proof. intros Hc H. congruence. Qed.

Lemma Busy_startPolling s o :
  Inv s -> closed s = false -> Busy (startPolling K s o).
Proof.
  intros I Hc. unfold startPolling. rewrite Hc, orb_false_r.
  destruct (polling s) eqn:Hp; [intros _; exact Hp|].
  apply Busy_pollLoop.
  - now apply Inv_set_polling.
  - now apply Shut_open.
  - intros _. reflexivity.
Qed.

Lemma Busy_perform s c a o : Inv s -> Busy s -> Busy (fst (perform K s c a o)).
Proof.
  intros I B.
  destruct (closed s) eqn:Hc; [unfold perform; simpl; rewrite Hc; exact B|].
  destruct (handle s) eqn:Hh; [|unfold perform; simpl; rewrite Hc, Hh; exact B].
  destruct (getHandle c) as [h|] eqn:Hg;
    [|unfold perform; simpl; rewrite Hc, Hh, Hg; exact B].
  rewrite (@perform_open s c h a o Hc Hh Hg).
  destruct (neqb a (CURLM_OK K)); [exact B|].
  apply Busy_startPolling; [now apply Inv_stored|exact Hc].
Qed.

Lemma Busy_cancel s c : Busy s -> Busy (fst (cancel s c)).
Proof.
  intro B. unfold cancel. repeat (break; simpl; auto).
  intros Hne. simpl. apply B. intro E. rewrite E in Heqo0. discriminate.
Qed.

Lemma Busy_close s : Shut s -> Busy (close s).
Proof.
  intro Sh. apply Busy_empty.
  assert (Hs : Shut (exec K s Close)) by now apply Shut_exec.
  exact (proj1 (proj2 (Hs (close_closed s)))).
Qed.

Lemma Busy_exec s a : Inv s -> Shut s -> Busy s -> Busy (exec K s a).
Proof.
  intros I Sh B. destruct a; simpl.
  - now apply Busy_perform.
  - now apply Busy_cancel.
  - now apply Busy_close.
  - break; [|assumption].
    apply Busy_pollLoop; [now apply Inv_set_timer|exact Sh|exact B].
Qed.

Lemma Busy_run l : forall s, Inv s -> Shut s -> Busy s -> Busy (run K s l).
Proof.
  induction l as [|a l IH]; intros s I Sh B; simpl; [assumption|].
  apply IH; [now apply Inv_exec|now apply Shut_exec|now apply Busy_exec].
Qed.

Lemma Busy_reachable l : Busy (run K create l).
Proof.
  apply Busy_run; [apply Inv_create| |now apply Busy_empty].
  intro H. discriminate.
Qed.

(** C1. Let a handle have a pending record in a scheduler and be
    submitted again, by the same transfer object or by another one on the
    same handle.  The engine still holds the handle.  The scheduler looks
    nothing up itself: it asks the engine, and an engine that refuses to
    register a handle it holds answers [curl_multi_add_handle] with a
    status other than [CURLM_OK].  The new promise is then rejected within
    the call, with the error "curl_multi_add_handle failed" made from that
    status, which is the one rejection added; the pending records, the
    record of the handle and the map of submitted objects are as before,
    and the promise of the first submission, unsettled before, is
    unsettled and pending afterwards. *)
Theorem duplicate_submission (l : list Action) (c : Curl) (h : CurlHandle)
    (t : PendingTransfer) (a : Z) (o : PollAnswers) :
  let s := run K create l in
  getHandle c = Some h ->
  findPendingByHandle s h = Some t ->
  (registered K (native s) h = true -> a <> CURLM_OK K) ->
  let r := perform K s c a o in
  registered K (native s) h = true /\
  native (fst r) = native s ++ [curl_multi_add_handle h a] /\
  outcome (fst r) (snd r) = [Reject (ErrAddHandle a)] /\
  settled (fst r) = settled s ++ [(snd r, Reject (ErrAddHandle a))] /\
  pendingTransfers (fst r) = pendingTransfers s /\
  curlToAddr (fst r) = curlToAddr s /\
  findPendingByHandle (fst r) h = Some t /\
  snd r <> promise t /\
  outcome s (promise t) = [] /\
  outcome (fst r) (promise t) = [] /\
  In (promise t) (waiting (fst r)).
Proof.
  intros s Hg Ht Hengine r.
  pose proof (Inv_reachable l) as I. fold s in I.
  pose proof (Reg_reachable l) as R. fold s in R.
  pose proof (Shut_reachable l) as Sh. fold s in Sh.
  unfold findPendingByHandle in Ht.
  pose proof (JsMapFacts.get_In String.eqb String.eqb_eq _ _ Ht) as Hin.
  destruct (R _ _ Hin) as [Ha Hr].
  assert (Hth : pt_handle t = h).
  { apply getHandleAddress_inj. rewrite <- Ha. exact (inv_key I _ _ Hin). }
  rewrite Hth in Hr.
  assert (Hc : closed s = false).
  { destruct (closed s) eqn:Hc; [|reflexivity].
    destruct (Sh Hc) as [_ [Hp _]]. rewrite Hp in Hin. destruct Hin. }
  assert (Hh : handle s = true) by exact (inv_open I Hc).
  assert (Hw : In (promise t) (waiting s))
    by exact (JsMapFacts.image_get_In String.eqb String.eqb_eq promise _ _ Ht).
  assert (Hlt : promise t < nextPromise s) by exact (inv_waiting_lt I _ Hw).
  assert (Hfresh : ~ In (nextPromise s) (done s)).
  { intro Hd. apply (inv_done_lt I) in Hd. lia. }
  assert (Hpast : outcome s (promise t) = []).
  { unfold outcome. apply calls_of_absent.
    intro Hd. exact (inv_apart I _ Hd Hw). }
  assert (Hne : (a =? CURLM_OK K)%Z = false)
    by (apply Z.eqb_neq; exact (Hengine Hr)).
  assert (E : r = (settle (nextPromise s) (Reject (ErrAddHandle a))
                     (call (curl_multi_add_handle h a) (new_promise s)),
                   nextPromise s)).
  { unfold r. rewrite (@perform_open s c h a o Hc Hh Hg). unfold neqb.
    now rewrite Hne. }
  rewrite E. cbn [fst snd].
  split; [exact Hr|]. split; [reflexivity|].
  split.
  { change (calls_of (nextPromise s)
              (settled s ++ [(nextPromise s, Reject (ErrAddHandle a))]) =
            [Reject (ErrAddHandle a)]).
    rewrite calls_of_app.
    rewrite (calls_of_absent (nextPromise s) (settled s) Hfresh).
    unfold calls_of. simpl. now rewrite Nat.eqb_refl. }
  split; [reflexivity|]. split; [reflexivity|]. split; [reflexivity|].
  split; [exact Ht|].
  split; [lia|]. split; [exact Hpast|].
  split; [|exact Hw].
  change (calls_of (promise t)
            (settled s ++ [(nextPromise s, Reject (ErrAddHandle a))]) = []).
  rewrite calls_of_app.
  change (outcome s (promise t) ++
          calls_of (promise t) [(nextPromise s, Reject (ErrAddHandle a))] = []).
  rewrite Hpast. unfold calls_of. simpl.
  destruct (Nat.eqb_spec (nextPromise s) (promise t)) as [E'|_]; [lia|reflexivity].
Qed.

(** *** At most one queued run of the poll loop *)

Lemma complete_immediate s m : immediate (complete K s m) = immediate s.
Proof. unfold complete. repeat break; reflexivity. Qed.

Lemma drain_immediate l : forall s, immediate (drain K s l) = immediate s.
Proof.
  induction l as [|m l IH]; intro s; simpl; [reflexivity|].
  rewrite IH. exact (complete_immediate (call curl_multi_info_read s) m).
Qed.

Lemma checkCompleted_immediate s l :
  immediate (checkCompleted K s l) = immediate s.
Proof. unfold checkCompleted. break; [reflexivity|apply drain_immediate]. Qed.

Lemma Queued_pollLoop s o :
  immediate s = false -> polling s = true -> Queued (pollLoop K s o).
Proof.
  intros Hi Hp. unfold pollLoop.
  destruct (closed s || negb (handle s)
            || Nat.eqb (JsMap.size (pendingTransfers s)) 0);
    [intro H; simpl in H; congruence|].
  destruct (neqb (performCode o) (CURLM_OK K)
            && neqb (performCode o) (CURLM_CALL_MULTI_PERFORM K)).
  { intro H. rewrite failAllPending_eq in H. simpl in H. congruence. }
  break.
  - break.
    + intro H. rewrite failAllPending_eq in H. simpl in H.
      rewrite checkCompleted_immediate in H. simpl in H. congruence.
    + intros _. simpl. now rewrite checkCompleted_polling.
  - intro H. simpl in H. rewrite checkCompleted_immediate in H.
    simpl in H. congruence.
Qed.

Lemma Queued_startPolling s o : Queued s -> Queued (startPolling K s o).
Proof.
  intro Q. unfold startPolling.
  destruct (polling s) eqn:Hp; simpl; [exact Q|].
  destruct (closed s); [exact Q|].
  apply Queued_pollLoop; [|reflexivity].
  simpl. destruct (immediate s) eqn:Hi; [|reflexivity].
  apply Q in Hi. congruence.
Qed.

Lemma Queued_exec s a : Queued s -> Queued (exec K s a).
Proof.
  intro Q. destruct a; simpl.
  - unfold perform. simpl. repeat (break; simpl; try exact Q).
    now apply Queued_startPolling.
  - unfold cancel. repeat (break; simpl; try exact Q).
  - destruct (closed s) eqn:Hc; [unfold close; now rewrite Hc|].
    rewrite (close_open s Hc). intro H. simpl in *.
    destruct (pollTimer s); [discriminate|now apply Q].
  - destruct (immediate s) eqn:Hi; [|exact Q].
    apply Queued_pollLoop; [reflexivity|]. simpl. now apply Q.
Qed.

Lemma Queued_reachable l : Queued (run K create l).
Proof.
  assert (H : forall l s, Queued s -> Queued (run K s l)).
  { clear l. induction l as [|a l IH]; intros s Q; simpl; [exact Q|].
    apply IH. now apply Queued_exec. }
  apply H. intro Hi. discriminate.
Qed.

End Scheduler.

(** *** Runs on sample inputs *)

Import Samples.

Example two_pending_state :
  pendingTransfers two_pending = [("1000"%string, recordA 0); ("2000"%string, recordB 1)]
  /\ curlToAddr two_pending = [(1, "1000"%string); (2, "2000"%string)]
  /\ closed two_pending = false /\ handle two_pending = true
  /\ polling two_pending = true /\ settled two_pending = [].
Proof. vm_compute. repeat split. Qed.

Lemma duplicate_submission_witness :
  let s := run libcurl create [Perform curlA 0 quiet] in
  let r := perform libcurl s curlA 7 quiet in
  registered libcurl (native s) 4096%N = true /\
  snd r = 1 /\
  outcome (fst r) 1 = [Reject (ErrAddHandle 7)] /\
  pendingTransfers (fst r) = pendingTransfers s /\
  findPendingByHandle (fst r) 4096%N = Some (recordA 0) /\
  outcome (fst r) 0 = [].
Proof.
  generalize (@duplicate_submission libcurl [Perform curlA 0 quiet] curlA
                4096%N (recordA 0) 7 quiet).
  vm_compute. intro H.
  destruct (H eq_refl eq_refl ltac:(intros _ E; discriminate E))
    as [H1 [_ [H3 [_ [H5 [_ [H7 [_ [_ [H10 _]]]]]]]]]].
  repeat split; assumption.
Defined.

Lemma cancel_spec_witness :
  let s := run libcurl create [Perform curlA 0 quiet] in
  let s' := fst (cancel s curlA) in
  cancel s curlB = (s, false) /\
  snd (cancel s curlA) = true /\
  pendingTransfers s' = [] /\
  settled s' = [(0, Reject ErrCancelled)] /\
  native s' = native s ++ [curl_multi_remove_handle 4096%N] /\
  cancel s' curlA = (s', false).
Proof.
  generalize (cancel_spec libcurl [Perform curlA 0 quiet] curlB).
  generalize (cancel_spec libcurl [Perform curlA 0 quiet] curlA).
  vm_compute. intros [_ Hyes] [Hno _].
  destruct (Hyes _ _ eq_refl eq_refl) as [H1 [H2 [_ [_ [H5 [_ [H6 H7]]]]]]].
  split; [apply Hno; intros addr Ha; discriminate Ha|].
  repeat split; assumption.
Defined.

Lemma close_spec_witness :
  let s' := close two_pending in
  closed s' = true /\ handle s' = false /\ pendingTransfers s' = [] /\
  settled s' = [(0, Reject ErrMultiClosed); (1, Reject ErrMultiClosed)] /\
  native s' = native two_pending ++
    [curl_multi_remove_handle 4096%N; curl_multi_remove_handle 8192%N;
     curl_multi_cleanup] /\
  outcome (fst (perform libcurl s' curlA 0 quiet)) 2 = [Reject ErrClosed] /\
  close s' = s'.
Proof.
  generalize (close_spec libcurl
                [Perform curlA 0 quiet; Perform curlB 0 quiet]
                [] curlA 0 quiet).
  vm_compute. intros [[H1 [H2 [H3 _]]] [Hopen [Hsub [_ Hidem]]]].
  destruct (Hopen eq_refl) as [H4 H5].
  repeat split; assumption.
Defined.

Lemma fault_fails_all_pending_witness :
  settled (pollLoop libcurl two_pending perform_fault) =
    [(0, Reject (ErrPerform 1)); (1, Reject (ErrPerform 1))] /\
  pendingTransfers (pollLoop libcurl two_pending perform_fault) = [] /\
  settled (pollLoop libcurl two_pending poll_fault) =
    [(0, Resolve {| code := 0 |}); (1, Reject (ErrPoll 3))] /\
  pendingTransfers (pollLoop libcurl two_pending poll_fault) = [].
Proof.
  generalize (@fault_fails_all_pending libcurl two_pending perform_fault).
  generalize (@fault_fails_all_pending libcurl two_pending poll_fault).
  vm_compute. intros Hpoll Hperform.
  destruct (Hperform eq_refl eq_refl ltac:(discriminate)) as [Hperform' _].
  destruct (Hpoll eq_refl eq_refl ltac:(discriminate)) as [_ Hpoll'].
  destruct (Hperform' ltac:(discriminate) ltac:(discriminate))
    as [H1 [_ [H2 _]]].
  destruct (Hpoll' (or_introl eq_refl) (or_introl eq_refl) ltac:(discriminate))
    as [H3 [_ [H4 _]]].
  split; [exact H2|]. split; [exact H1|]. split; [exact H4|exact H3].
Defined.

(** Completions are matched to their records in the order the engine
    reports them, each transfer with its own result. *)
Example completions_in_engine_order :
  let s := run libcurl create
             [Perform curlA 0 quiet; Perform curlB 0 quiet;
              Perform curlC 0 quiet; Tick all_done] in
  settled s = [(1, Resolve {| code := 0 |}); (0, Reject (ErrTransfer 7));
               (2, Resolve {| code := 0 |})] /\
  pendingTransfers s = [] /\ curlToAddr s = [] /\
  polling s = false /\ immediate s = false.
Proof. vm_compute. repeat split. Qed.

(** [CURLM_CALL_MULTI_PERFORM] from [curl_multi_perform] is not a fault:
    the loop goes on and nothing is rejected. *)
Example call_multi_perform_goes_on :
  settled (pollLoop libcurl two_pending call_again) = [] /\
  JsMap.size (pendingTransfers (pollLoop libcurl two_pending call_again)) = 2 /\
  immediate (pollLoop libcurl two_pending call_again) = true.
Proof. vm_compute. repeat split. Qed.

Lemma resolved_at_most_once_witness :
  outcome (run libcurl create
             ([Perform curlA 0 quiet; Cancel curlA]
              ++ [Tick poll_fault; Cancel curlA; Close])) 0
  = [Reject ErrCancelled].
Proof.
  apply (proj2 (resolved_at_most_once libcurl
                  [Perform curlA 0 quiet; Cancel curlA]
                  [Tick poll_fault; Cancel curlA; Close] 0)).
  vm_compute. left. reflexivity.
Defined.

End MultiFacts.

(* ------------------------------------------------------------------ *)
(** ** The write-callback bridge *)

Module BridgeFacts.
Import Bridge.

Lemma decode_length mem addr n : List.length (decode mem addr n) = n.
Proof. unfold decode. now rewrite length_map, length_seq. Qed.

Lemma decode_nth mem addr n i :
  i < n -> nth_error (decode mem addr n) i = Some (mem (addr + N.of_nat i)%N).
Proof.
  intro H. unfold decode.
  rewrite nth_error_map, nth_error_seq.
  destruct (Nat.ltb_spec i n); [reflexivity|lia].
Qed.

Lemma decode_ext mem mem' addr n :
  (forall i, i < n -> mem' (addr + N.of_nat i)%N = mem (addr + N.of_nat i)%N) ->
  decode mem' addr n = decode mem addr n.
Proof.
  intro H. unfold decode. apply map_ext_in.
  intros i Hi. apply in_seq in Hi. apply H. lia.
Qed.

(** C5. For a call with a pointer and [size * nmemb = length]: when
    [length] is 0 the function returns 0 and [fn] is not called;
    otherwise [fn] is called once, with a buffer that is a copy holding
    exactly the [length] bytes found at the pointer, the value returned is
    the number [fn] returns, or [length] when [fn] returns nothing, and
    the run depends on the native memory through those [length] bytes
    only (nothing else is read, nothing is kept). *)
Theorem wrapWriteCallback_spec (fn : WriteCallback) (mem : Memory)
    (addr size nmemb : N) :
  let length := (size * nmemb)%N in
  let r := wrapWriteCallback fn mem (Pointer addr) size nmemb in
  let chunk := Copied (decode mem addr (N.to_nat length)) in
  (length = 0%N -> passed r = None /\ returned r = 0%Z) /\
  (length <> 0%N ->
     passed r = Some chunk /\
     List.length (chunk_bytes chunk) = N.to_nat length /\
     (forall i, i < N.to_nat length ->
        nth_error (chunk_bytes chunk) i = Some (mem (addr + N.of_nat i)%N)) /\
     (forall n, fn chunk = Some n -> returned r = n) /\
     (fn chunk = None -> returned r = Z.of_N length) /\
     (forall mem',
        (forall i, i < N.to_nat length ->
           mem' (addr + N.of_nat i)%N = mem (addr + N.of_nat i)%N) ->
        wrapWriteCallback fn mem' (Pointer addr) size nmemb = r)).
Proof.
  intros length r chunk. unfold r, wrapWriteCallback. fold length. split.
  - intros ->. simpl. auto.
  - intro Hne. apply N.eqb_neq in Hne. rewrite Hne. simpl. fold chunk.
    split; [reflexivity|]. split; [apply decode_length|].
    split; [intros i Hi; now apply decode_nth|].
    split; [now intros n ->|]. split; [now intros ->|].
    intros mem' Hext. now rewrite (decode_ext _ _ _ Hext).
Qed.

Import Samples.

Lemma wrapWriteCallback_spec_witness :
  let r := wrapWriteCallback one_byte ramp (Pointer 65) 1 3 in
  let z := wrapWriteCallback one_byte ramp (Pointer 65) 4 0 in
  passed r = Some (Copied ["A"%byte; "B"%byte; "C"%byte]) /\
  returned r = 1%Z /\ passed z = None /\ returned z = 0%Z.
Proof.
  intros r z.
  destruct (wrapWriteCallback_spec one_byte ramp 65 1 3) as [_ H].
  destruct (H ltac:(discriminate)) as [Hp [_ [_ [Hret _]]]].
  destruct (wrapWriteCallback_spec one_byte ramp 65 4 0) as [H0 _].
  destruct (H0 eq_refl) as [Hz Hz'].
  split; [exact Hp|]. split; [exact (Hret 1%Z eq_refl)|].
  split; [exact Hz|exact Hz'].
Defined.

Example returns_length_when_silent :
  returned (wrapWriteCallback silent ramp (Pointer 65) 1 3) = 3%Z.
Proof. reflexivity. Qed.

(** When the function is called from JavaScript with a [Buffer], the
    chunk is a view of that buffer, not a copy. *)
Example buffer_argument_is_shared :
  passed (wrapWriteCallback silent ramp (BufferObject ["A"%byte; "B"%byte]) 1 1)
  = Some (Subarray ["A"%byte; "B"%byte] 1).
Proof. reflexivity. Qed.

End BridgeFacts.

(* ------------------------------------------------------------------ *)
(** ** The WebSocket session *)

Module WSFacts.
Import WS.

Ltac split_if :=
  match goal with
  | |- context [if ?b then _ else _] => destruct b eqn:?
  end.

Section Session.
Variable K : Constants.
Variable fl : Q -> Number.

(** *** Sending *)

Lemma sendRaw_queue ws data flags a :
  messageQueue (fst (sendRaw K ws data flags a)) = messageQueue ws.
Proof. unfold sendRaw. repeat split_if; reflexivity. Qed.

Lemma sendRaw_closed ws data flags a :
  _closed (fst (sendRaw K ws data flags a)) = _closed ws.
Proof.
  unfold sendRaw. destruct (_closed ws) eqn:Hc; [exact Hc|].
  repeat split_if; exact Hc.
Qed.

Lemma send_op_sendRaw ws op a :
  send_op K ws op a = sendRaw K ws (op_payload op) (op_flag K op) a.
Proof. destruct op as [d|t|[[b|s]|]]; reflexivity. Qed.

(** C8. For each of [send], [sendStr] and [ping]: on a closed session the
    operation fails with [WebSocketClosed] and nothing is sent; on an open
    session [curl_ws_send] is called exactly once, with the payload and
    the flag of the operation; when it answers a status other than
    [CURLE_OK] the operation fails with the [WebSocketError] whose message
    carries that status; when it answers [CURLE_OK] with a count other
    than the payload length the operation fails with the [WebSocketError]
    for an incomplete send; in both cases no second send is made. *)
Theorem send_failures (ws : AsyncWebSocket) (op : SendOp) (a : SendAnswer) :
  let r := send_op K ws op a in
  let n := List.length (op_payload op) in
  (_closed ws = true ->
     fst r = ws /\
     snd r = Throw (WebSocketClosed (code_or (_closeEvent ws) 1006)
                      (reason_or (_closeEvent ws) "Connection closed"))) /\
  (_closed ws = false ->
     native (fst r) = native ws ++ [curl_ws_send (op_payload op) (op_flag K op)] /\
     (sendCode a <> CURLE_OK K ->
        snd r = Throw (WebSocketError (SendFailed (sendCode a)) None)) /\
     (sendCode a = CURLE_OK K -> sent a <> Z.of_nat n ->
        snd r = Throw (WebSocketError (IncompleteSend (sent a) n) None)) /\
     (sendCode a = CURLE_OK K -> sent a = Z.of_nat n -> snd r = Return tt)).
Proof.
  intros r n. unfold r. rewrite send_op_sendRaw. unfold sendRaw, neqb. split.
  - intros ->. auto.
  - intros ->. fold n.
    destruct (Z.eqb_spec (sendCode a) (CURLE_OK K)) as [Hok|Hbad]; simpl.
    + destruct (Z.eqb_spec (sent a) (Z.of_nat n)) as [Hall|Hpart]; simpl.
      * split; [reflexivity|]. split; [intro; contradiction|].
        split; [intros _ H; contradiction|reflexivity].
      * split; [reflexivity|]. split; [intro; contradiction|].
        split; [reflexivity|intros _ H; contradiction].
    + split; [reflexivity|]. split; [reflexivity|].
      split; intro; contradiction.
Qed.

(** *** Receiving *)

Lemma tryReceive_queue ws r pong :
  messageQueue (fst (tryReceive K ws r pong)) = messageQueue ws.
Proof.
  unfold tryReceive. destruct (_closed ws); [reflexivity|].
  destruct (Z.eqb (recvCode r) (CURLE_OK K) && Nat.ltb 0 (received r)).
  - destruct (frameToMessage K _ _) as [m|]; [|reflexivity].
    destruct (is_type (type m) CLOSE); [reflexivity|].
    destruct (is_type (type m) PING); [|reflexivity].
    cbn [fst]. unfold sendPong. now rewrite sendRaw_queue.
  - repeat split_if; reflexivity.
Qed.

Lemma poll_queue ws startTime limit t :
  messageQueue (fst (poll K ws startTime limit t)) = messageQueue ws.
Proof.
  unfold poll. destruct (timed_out startTime limit (now t)); [reflexivity|].
  destruct (_closed ws); [reflexivity|].
  pose proof (tryReceive_queue ws (recvAnswer t) (pongAnswer t)) as H.
  destruct (tryReceive K ws (recvAnswer t) (pongAnswer t)) as [ws' [[m|]|e]];
    exact H.
Qed.

Lemma poll_again_queue later : forall ws startTime limit,
  messageQueue (fst (poll_again K ws startTime limit later)) = messageQueue ws.
Proof.
  induction later as [|t rest IH]; intros ws startTime limit; simpl;
    [reflexivity|].
  pose proof (poll_queue ws startTime limit t) as H.
  destruct (poll K ws startTime limit t) as [ws' [r|]]; [exact H|].
  rewrite IH. exact H.
Qed.

Lemma exec_queue ws act :
  messageQueue ws = [] -> messageQueue (exec K fl ws act) = [].
Proof.
  intro H. destruct act; simpl.
  - unfold send. now rewrite sendRaw_queue.
  - unfold sendStr. now rewrite sendRaw_queue.
  - unfold ping. now rewrite sendRaw_queue.
  - unfold recv. destruct (_closed ws); [exact H|]. rewrite H.
    now rewrite poll_again_queue.
  - unfold close. destruct (_closed ws); [exact H|].
    split_if; [exact H|]. simpl. now rewrite sendRaw_queue.
Qed.

Lemma run_queue l : forall ws,
  messageQueue ws = [] -> messageQueue (run K fl ws l) = [].
Proof.
  induction l as [|a l IH]; intros ws H; simpl; [exact H|].
  apply IH. now apply exec_queue.
Qed.

(** Nothing ever enters [messageQueue]. *)
Lemma queue_empty size l : messageQueue (run K fl (connect size) l) = [].
Proof. now apply run_queue. Qed.

(** *** Control frames *)

Lemma close_payload_bytes c reason :
  (0 <= c <= 65535)%Z ->
  exists hi lo,
    close_payload c reason = hi :: lo :: utf8_encode reason /\
    (Z.of_N (Byte.to_N hi) * 256 + Z.of_N (Byte.to_N lo))%Z = c.
Proof.
  intro Hc. unfold close_payload.
  destruct (Byte.of_N (Z.to_N (c / 256))) as [hi|] eqn:Hhi.
  - destruct (Byte.of_N (Z.to_N (c mod 256))) as [lo|] eqn:Hlo.
    + exists hi, lo. split; [reflexivity|].
      apply Byte.to_of_N in Hhi. apply Byte.to_of_N in Hlo.
      rewrite Hhi, Hlo.
      pose proof (Z.div_mod c 256 ltac:(lia)) as Hdm.
      pose proof (Z.mod_pos_bound c 256 ltac:(lia)) as Hm.
      assert (0 <= c / 256)%Z by (apply Z.div_pos; lia).
      rewrite !Z2N.id by lia. lia.
    + apply Byte.of_N_None_iff in Hlo.
      pose proof (Z.mod_pos_bound c 256 ltac:(lia)). lia.
  - apply Byte.of_N_None_iff in Hhi.
    assert (c / 256 < 256)%Z by (apply Z.div_lt_upper_bound; lia).
    assert (0 <= c / 256)%Z by (apply Z.div_pos; lia). lia.
Qed.

Lemma utf8_encode_nil reason : utf8_encode reason = [] -> reason = ""%string.
Proof.
  intro H. rewrite <- (string_of_list_byte_of_string reason).
  unfold utf8_encode in H. now rewrite H.
Qed.

Lemma handleCloseFrame_payload ws hi lo reason :
  handleCloseFrame ws (hi :: lo :: utf8_encode reason) =
  set_closed {| code := Z.of_N (Byte.to_N hi) * 256 + Z.of_N (Byte.to_N lo);
                reason := reason; wasClean := true |} ws.
Proof.
  unfold handleCloseFrame. simpl.
  destruct (utf8_encode reason) as [|b rest] eqn:E; simpl.
  - now rewrite (utf8_encode_nil _ E).
  - rewrite <- E. unfold utf8_decode, utf8_encode.
    now rewrite string_of_list_byte_of_string.
Qed.

Lemma reason_or_same ev c r w :
  ev = Some {| code := c; reason := r; wasClean := w |} ->
  reason_or ev "" = r.
Proof.
  intros ->. unfold reason_or. simpl.
  destruct (String.eqb_spec r ""); congruence.
Qed.

(** *** Frames as the wrapper hands them over *)

(** [metaPtr[0]] is null after every call, so no answer of the wrapper
    carries frame metadata. *)
Lemma curl_ws_recv_frame e : frame (Ffi.curl_ws_recv e) = None.
Proof. reflexivity. Qed.

Lemma has_flag_same flags : has_flag flags flags = neqb flags 0.
Proof. unfold has_flag. now rewrite Z.land_diag. Qed.

Lemma has_flag_none bit : has_flag 0 bit = false.
Proof. unfold has_flag. now rewrite Z.land_0_l. Qed.

Lemma frameToMessage_default data :
  frameToMessage K data (CURLWS_TEXT K) =
  Some {| type := default_type K; data := data |}.
Proof.
  unfold frameToMessage, default_type. rewrite has_flag_same.
  destruct (neqb (CURLWS_TEXT K) 0) eqn:E; [reflexivity|].
  unfold neqb in E. apply negb_false_iff, Z.eqb_eq in E. rewrite E.
  now rewrite !has_flag_none.
Qed.

Lemma default_type_not_close : is_type (default_type K) CLOSE = false.
Proof. unfold default_type. now destruct (neqb (CURLWS_TEXT K) 0). Qed.

Lemma default_type_not_ping : is_type (default_type K) PING = false.
Proof. unfold default_type. now destruct (neqb (CURLWS_TEXT K) 0). Qed.

(** A read of one byte or more on an open session, whatever the engine
    says of the frame: its bytes are returned as a message of the default
    kind, and nothing else is done. *)
Lemma tryReceive_wire ws e pong :
  _closed ws = false ->
  Ffi.curlcode e = CURLE_OK K -> 0 < Ffi.count e ->
  tryReceive K ws (Ffi.curl_ws_recv e) pong =
  (set_buffer (Ffi.contents e) (call curl_ws_recv ws),
   Return (Some {| type := default_type K;
                   data := firstn (Ffi.count e) (Ffi.contents e) |})).
Proof.
  intros Ho Hc Hn. unfold tryReceive. rewrite Ho.
  cbn [Ffi.curl_ws_recv recvCode received frame written Ffi.array_after].
  rewrite Hc, Z.eqb_refl. apply Nat.ltb_lt in Hn. rewrite Hn.
  cbn [andb receiveBuffer set_buffer].
  rewrite frameToMessage_default. cbn [type data].
  now rewrite default_type_not_close, default_type_not_ping.
Qed.

Lemma recv_wire ws timeout startTime n e pong later :
  _closed ws = false -> messageQueue ws = [] ->
  Ffi.curlcode e = CURLE_OK K -> 0 < Ffi.count e ->
  timed_out startTime (timeoutMs fl timeout) n = false ->
  recv K fl ws timeout startTime (Ffi.wire n e pong) later =
  (set_pollTimer false (set_buffer (Ffi.contents e) (call curl_ws_recv ws)),
   Some (Return {| type := default_type K;
                   data := firstn (Ffi.count e) (Ffi.contents e) |})).
Proof.
  intros Ho Hq Hc Hn Ht. unfold recv. rewrite Ho, Hq.
  cbn [poll_again]. unfold poll.
  cbn [Ffi.wire now recvAnswer pongAnswer]. rewrite Ht, Ho.
  now rewrite (@tryReceive_wire ws e pong Ho Hc Hn).
Qed.

(** C6 (amended). When a receive on an open session reads a frame of one
    byte or more that the engine flags as a ping, with payload [p], the
    frame is handed to the caller: [tryReceive] returns a message whose
    data is [p], and [recv] resolves with that message, leaving the
    session open. *)
Theorem ping_is_returned (size : nat) (l : list Action)
    (timeout : option Number) (startTime n : Z) (e : Ffi.WsRecv)
    (pong : SendAnswer) (later : list Tick) :
  let ws := run K fl (connect size) l in
  _closed ws = false ->
  Ffi.curlcode e = CURLE_OK K -> 0 < Ffi.count e ->
  Ffi.meta e = Some (CURLWS_PING K) ->
  timed_out startTime (timeoutMs fl timeout) n = false ->
  let p := firstn (Ffi.count e) (Ffi.contents e) in
  let res := recv K fl ws timeout startTime (Ffi.wire n e pong) later in
  exists m,
    data m = p /\
    snd (tryReceive K ws (Ffi.curl_ws_recv e) pong) = Return (Some m) /\
    snd res = Some (Return m) /\
    _closed (fst res) = false.
Proof.
  intros ws Ho Hc Hn _ Ht p res.
  pose proof (queue_empty size l) as Hq. fold ws in Hq.
  exists {| type := default_type K; data := p |}.
  unfold res. rewrite (@recv_wire ws timeout startTime n e pong later Ho Hq Hc Hn Ht).
  rewrite (@tryReceive_wire ws e pong Ho Hc Hn).
  repeat split. exact Ho.
Qed.

(** C7. A close frame with code [c] and reason [why] read on an open
    session is not taken for one: the wrapper hands over no frame
    metadata, [tryReceive] gives the frame the default kind, and [recv]
    resolves with the payload as a text message; [handleCloseFrame] is not
    called, so the close event is as before and the session stays open. *)
Theorem close_frame_is_not_decoded (size : nat) (l : list Action)
    (timeout : option Number) (startTime n : Z) (e : Ffi.WsRecv)
    (pong : SendAnswer) (later : list Tick) (c : Z) (why : string) :
  let ws := run K fl (connect size) l in
  _closed ws = false -> CURLWS_TEXT K <> 0%Z ->
  Ffi.curlcode e = CURLE_OK K ->
  Ffi.meta e = Some (CURLWS_CLOSE K) ->
  (0 <= c <= 65535)%Z ->
  firstn (Ffi.count e) (Ffi.contents e) = close_payload c why ->
  timed_out startTime (timeoutMs fl timeout) n = false ->
  let res := recv K fl ws timeout startTime (Ffi.wire n e pong) later in
  snd res = Some (Return {| type := TEXT; data := close_payload c why |}) /\
  _closeEvent (fst res) = _closeEvent ws /\
  _closed (fst res) = false /\
  _connected (fst res) = _connected ws /\
  native (fst res) = native ws ++ [curl_ws_recv].
Proof.
  intros ws Ho Htext Hc _ Hcode Hpay Ht res.
  pose proof (queue_empty size l) as Hq. fold ws in Hq.
  destruct (close_payload_bytes why Hcode) as [hi [lo [Hbytes _]]].
  assert (Hn : 0 < Ffi.count e).
  { destruct (Ffi.count e); [|lia].
    simpl in Hpay. rewrite Hbytes in Hpay. discriminate. }
  unfold res. rewrite (@recv_wire ws timeout startTime n e pong later Ho Hq Hc Hn Ht).
  cbn [fst snd]. rewrite Hpay. unfold default_type, neqb.
  apply Z.eqb_neq in Htext. rewrite Htext. cbn [negb].
  repeat split. exact Ho.
Qed.

End Session.

(** *** Runs on sample inputs *)

Import Samples WireSamples.

Example text_frame_received :
  snd (recv libcurl binary64 session (Some (Finite 5)) 0 (tick 1 text_hi (sent_all 0)) [])
  = Some (Return {| type := TEXT; data := ["h"%byte; "i"%byte] |}).
Proof. vm_compute. reflexivity. Qed.

Lemma send_failures_witness :
  snd (send_op libcurl session (OpSendStr "hi") send_error)
    = Throw (WebSocketError (SendFailed 55) None) /\
  snd (send_op libcurl session (OpSendStr "hi") (sent_all 1))
    = Throw (WebSocketError (IncompleteSend 1 2) None) /\
  native (fst (send_op libcurl session (OpSendStr "hi") (sent_all 1)))
    = [curl_ws_send ["h"%byte; "i"%byte] 1] /\
  snd (send_op libcurl session (OpSendStr "hi") (sent_all 2)) = Return tt.
Proof.
  destruct (send_failures libcurl session (OpSendStr "hi") send_error)
    as [_ Herr].
  destruct (send_failures libcurl session (OpSendStr "hi") (sent_all 1))
    as [_ Hpart].
  destruct (send_failures libcurl session (OpSendStr "hi") (sent_all 2))
    as [_ Hall].
  destruct (Herr eq_refl) as [_ [H1 _]].
  destruct (Hpart eq_refl) as [H3 [_ [H2 _]]].
  destruct (Hall eq_refl) as [_ [_ [_ H4]]].
  split; [exact (H1 ltac:(discriminate))|].
  split; [exact (H2 eq_refl ltac:(discriminate))|].
  split; [exact H3|exact (H4 eq_refl eq_refl)].
Defined.

Example send_on_closed_session :
  let ws := fst (close libcurl session 1000 "" (sent_all 2)) in
  send_op libcurl ws (OpPing None) (sent_all 0)
  = (ws, Throw (WebSocketClosed 1000 "Connection closed")).
Proof. vm_compute. reflexivity. Qed.

(** C6, the claim as stated fails: a ping frame with payload "x" is the
    message [recv] resolves with, so it is handed to the caller, and the
    one native call made is the read: no pong is sent. *)
Lemma ping_is_surfaced_unanswered :
  let res := recv libcurl binary64 session None 0 (Ffi.wire 0 ping_frame_x (sent_all 1)) [] in
  Ffi.meta ping_frame_x = Some (CURLWS_PING libcurl) /\
  snd res = Some (Return {| type := TEXT; data := ["x"%byte] |}) /\
  native (fst res) = [curl_ws_recv].
Proof. vm_compute. repeat split. Qed.

Lemma ping_is_returned_witness :
  let res := recv libcurl binary64 session (Some (Finite 5)) 0
               (Ffi.wire 1 ping_frame_x (sent_all 1)) [] in
  exists m, data m = ["x"%byte] /\ snd res = Some (Return m).
Proof.
  destruct (@ping_is_returned libcurl binary64 8 [] (Some (Finite 5)) 0 1
              ping_frame_x (sent_all 1) [] eq_refl eq_refl
              ltac:(simpl; lia) eq_refl eq_refl)
    as [m [H1 [_ [H2 _]]]].
  exists m. split; [exact H1|exact H2].
Defined.

(** A read that yields no byte is not decoded, whatever its flags say:
    nothing is sent, nothing is returned and the session stays open. *)
Example empty_frame_not_decoded :
  let empty := {| Ffi.curlcode := 0; Ffi.count := 0; Ffi.meta := Some 16%Z;
                  Ffi.contents := repeat x00 8 |} in
  tryReceive libcurl session (Ffi.curl_ws_recv empty) (sent_all 0)
  = (call curl_ws_recv session, Return None).
Proof. vm_compute. reflexivity. Qed.

(** The close frame with code 1001 and reason "bye". *)
Lemma close_frame_is_not_decoded_witness :
  let res := recv libcurl binary64 session None 0
               (Ffi.wire 0 close_frame_1001_bye (sent_all 0)) [] in
  snd res = Some (Return {| type := TEXT;
                            data := [x03; xe9; "b"%byte; "y"%byte; "e"%byte] |}) /\
  _closeEvent (fst res) = None /\ _closed (fst res) = false /\
  native (fst res) = [curl_ws_recv].
Proof.
  generalize (@close_frame_is_not_decoded libcurl binary64 8 [] None 0 0
                close_frame_1001_bye (sent_all 0) [] 1001 "bye").
  vm_compute. intro H.
  assert (Ht : 1%Z = 0%Z -> False) by (intro E; discriminate E).
  assert (Hc : (Lt = Gt -> False) /\ (Lt = Gt -> False))
    by (split; intro E; discriminate E).
  destruct (H eq_refl Ht eq_refl eq_refl Hc eq_refl eq_refl)
    as [H1 [H2 [H3 [_ H5]]]].
  repeat split; assumption.
Defined.

End WSFacts.

(* ------------------------------------------------------------------ *)
(** ** More facts about [JsMap]: keys *)

Module JsMapKeys.
Import JsMap.
Section Facts.
Variables K V : Type.
Variable eqb : K -> K -> bool.
Hypothesis eqb_eq : forall a b, eqb a b = true <-> a = b.

Lemma get_None_keys (m : t K V) k : ~ In k (keys m) -> get eqb m k = None.
Proof.
  induction m as [|[k' v'] r IH]; simpl; intro H; [reflexivity|].
  destruct (eqb k' k) eqn:E.
  - apply eqb_eq in E. tauto.
  - apply IH. tauto.
Qed.

Lemma keys_get_None (m : t K V) k : get eqb m k = None -> ~ In k (keys m).
Proof.
  induction m as [|[k' v'] r IH]; simpl; intros H Hin; [assumption|].
  destruct (eqb k' k) eqn:E; [discriminate|].
  destruct Hin as [->|Hin]; [|exact (IH H Hin)].
  rewrite (JsMapFacts.eqb_refl eqb eqb_eq) in E. discriminate.
Qed.

Lemma keys_delete_In (m : t K V) k x : In x (keys (delete eqb m k)) -> In x (keys m).
Proof.
  unfold keys, delete. intro H. apply in_map_iff in H as [e [<- He]].
  apply filter_In in He as [He _]. now apply in_map.
Qed.

Lemma keys_delete_NoDup (m : t K V) k :
  NoDup (keys m) -> NoDup (keys (delete eqb m k)).
Proof.
  induction m as [|[k' v'] r IH]; simpl; intro H; [constructor|].
  apply NoDup_cons_iff in H as [Hk Hr].
  destruct (eqb k' k); simpl; [now apply IH|].
  constructor; [|now apply IH].
  intro Hin. apply Hk. exact (keys_delete_In _ _ _ Hin).
Qed.

Lemma keys_set_In (m : t K V) k v x :
  In x (keys (set eqb m k v)) -> x = k \/ In x (keys m).
Proof.
  induction m as [|[k' v'] r IH]; simpl.
  - intros [<-|[]]. now left.
  - destruct (eqb k' k); simpl; [tauto|].
    intros [<-|H]; [tauto|]. destruct (IH H); tauto.
Qed.

Lemma keys_set_NoDup (m : t K V) k v :
  NoDup (keys m) -> NoDup (keys (set eqb m k v)).
Proof.
  induction m as [|[k' v'] r IH]; simpl; intro H.
  - constructor; [intros []|constructor].
  - apply NoDup_cons_iff in H as [Hk Hr].
    destruct (eqb k' k) eqn:E; simpl.
    + now constructor.
    + constructor; [|now apply IH].
      intro Hin. apply keys_set_In in Hin as [->|Hin]; [|tauto].
      rewrite (JsMapFacts.eqb_refl eqb eqb_eq) in E. discriminate.
Qed.

Section Image.
Variable I : Type.
Variable f : V -> I.

(** A new key is appended. *)
Lemma image_set_new (m : t K V) k v :
  get eqb m k = None -> image f (set eqb m k v) = image f m ++ [f v].
Proof.
  induction m as [|[k' v'] r IH]; simpl; intro H; [reflexivity|].
  destruct (eqb k' k); [discriminate|]. simpl. now rewrite IH.
Qed.

(** With one entry per key, [delete] takes out the entry [get] finds and
    nothing else. *)
Lemma image_delete_rest (m : t K V) k v x :
  NoDup (keys m) -> get eqb m k = Some v ->
  In x (image f m) -> x = f v \/ In x (image f (delete eqb m k)).
Proof.
  induction m as [|[k' v'] r IH]; simpl; intros Hn Hg Hx; [discriminate|].
  apply NoDup_cons_iff in Hn as [Hk Hr].
  destruct (eqb k' k) eqn:E; simpl.
  - injection Hg as <-. destruct Hx as [<-|Hx]; [now left|right].
    apply eqb_eq in E. subst k'.
    fold (delete eqb r k).
    rewrite (JsMapFacts.get_None_delete eqb r k (get_None_keys r k Hk)).
    exact Hx.
  - destruct Hx as [<-|Hx]; [right; now left|].
    destruct (IH Hr Hg Hx); [now left|right; now right].
Qed.

End Image.
End Facts.
End JsMapKeys.

(* ------------------------------------------------------------------ *)
(** ** The scheduler over whole runs *)

Module MultiRunsFacts.
Import Multi MultiRuns MultiFacts.

Section Runs.
Variable K : Constants.

(** *** The loop is queued while it runs *)

Lemma Live_pollLoop s o : Live (pollLoop K s o).
Proof.
  unfold Live, pollLoop.
  repeat (break; rewrite ?failAllPending_eq; simpl; auto); intros; congruence.
Qed.

Lemma Live_startPolling s o : Live s -> Live (startPolling K s o).
Proof.
  intro H. unfold startPolling. break; [assumption|apply Live_pollLoop].
Qed.

Lemma Live_exec s a : Live s -> Live (exec K s a).
Proof.
  intro H. destruct a; simpl.
  - unfold perform. simpl.
    repeat (break; simpl; auto); try (apply Live_startPolling; exact H).
  - unfold cancel. repeat (break; simpl; auto).
  - intros Hc. rewrite close_closed in Hc. discriminate.
  - break; [apply Live_pollLoop|assumption].
Qed.

Lemma Live_run l : forall s, Live s -> Live (run K s l).
Proof.
  induction l as [|a l IH]; intros s H; simpl; [assumption|].
  apply IH. now apply Live_exec.
Qed.

Lemma Live_reachable l : Live (run K create l).
Proof. apply Live_run. intros _ H. discriminate H. Qed.

(** X1. While a record is pending the scheduler is open, holds its native
    context, and its poll loop is running with the next run queued: no
    transfer waits on a loop that has stopped. *)
Theorem pending_transfers_are_polled (l : list Action) :
  let s := run K create l in
  pendingTransfers s <> [] ->
  closed s = false /\ handle s = true /\ polling s = true /\ immediate s = true.
Proof.
  intros s Hp.
  assert (Hc : closed s = false).
  { destruct (closed s) eqn:Hc; [|reflexivity].
    destruct (Shut_reachable K l Hc) as [_ [He _]]. now elim Hp. }
  pose proof (Busy_reachable K l Hp) as Hb.
  split; [exact Hc|]. split; [exact (inv_open (Inv_reachable K l) Hc)|].
  split; [exact Hb|]. exact (Live_reachable l Hc Hb).
Qed.

(** X2. A run of the poll loop on a scheduler without pending record
    calls the engine not at all, settles nothing and queues no further
    run; on an open scheduler it leaves [polling] cleared. *)
Theorem idle_scheduler_stops (l : list Action) (o : PollAnswers) :
  let s := run K create l in
  pendingTransfers s = [] ->
  let s' := exec K s (Tick o) in
  native s' = native s /\ settled s' = settled s /\
  pendingTransfers s' = [] /\ immediate s' = false /\
  (closed s = false -> polling s' = false).
Proof.
  intros s Hp s'. subst s'. simpl.
  destruct (immediate s) eqn:Hi.
  - unfold pollLoop. simpl. rewrite Hp. simpl. rewrite !orb_true_r. simpl.
    repeat split; auto.
  - repeat split; auto. intro Hc.
    destruct (polling s) eqn:Hpo; [|reflexivity].
    pose proof (Live_reachable l Hc Hpo) as Hl. fold s in Hl. congruence.
Qed.

(** *** The status carried by a settlement *)

Lemma neqb_true a b : neqb a b = true -> a <> b.
Proof. unfold neqb. intros H ->. now rewrite Z.eqb_refl in H. Qed.

Lemma sound_settle p x s :
  sound K (p, x) -> Forall (sound K) (settled s) ->
  Forall (sound K) (settled (settle p x s)).
Proof. intros Hx H. simpl. apply Forall_app. split; [assumption|now constructor]. Qed.

Lemma sound_failAllPending s e :
  sound K (0, Reject e) -> Forall (sound K) (settled s) ->
  Forall (sound K) (settled (failAllPending s e)).
Proof.
  intros He H. rewrite failAllPending_eq. simpl. apply Forall_app.
  split; [assumption|]. unfold rejections. apply Forall_map.
  apply Forall_forall. intros t _. exact He.
Qed.

Lemma sound_complete s m :
  Forall (sound K) (settled s) -> Forall (sound K) (settled (complete K s m)).
Proof.
  intro H. unfold complete.
  destruct (msg m =? CURLMSG_DONE K)%Z; [|assumption].
  destruct (findPendingByHandle s (easyHandle m)) as [t|]; [|assumption].
  destruct (result m =? CURLE_OK K)%Z eqn:Hr; apply sound_settle; try assumption.
  - apply Z.eqb_eq in Hr. exact Hr.
  - apply Z.eqb_neq in Hr. exact Hr.
Qed.

Lemma sound_drain l : forall s,
  Forall (sound K) (settled s) -> Forall (sound K) (settled (drain K s l)).
Proof.
  induction l as [|m l IH]; intros s H; simpl; [assumption|].
  apply IH. now apply sound_complete.
Qed.

Lemma sound_checkCompleted s l :
  Forall (sound K) (settled s) -> Forall (sound K) (settled (checkCompleted K s l)).
Proof. intro H. unfold checkCompleted. break; [assumption|now apply sound_drain]. Qed.

Lemma sound_pollLoop s o :
  Forall (sound K) (settled s) -> Forall (sound K) (settled (pollLoop K s o)).
Proof.
  intro H. unfold pollLoop.
  destruct (closed s || negb (handle s) || (JsMap.size (pendingTransfers s) =? 0));
    [assumption|].
  destruct (neqb (performCode o) (CURLM_OK K)
            && neqb (performCode o) (CURLM_CALL_MULTI_PERFORM K)) eqn:Hp.
  - apply andb_prop in Hp as [H1 H2].
    apply (@sound_failAllPending (call curl_multi_perform s) _); [|assumption].
    split; now apply neqb_true.
  - pose proof (sound_checkCompleted (call curl_multi_perform s) (completions o) H) as H'.
    destruct ((0 <? runningHandles o)%Z
              || (0 <? JsMap.size (pendingTransfers
                   (checkCompleted K (call curl_multi_perform s) (completions o)))));
      [|assumption].
    destruct (neqb (pollCode o) (CURLM_OK K)) eqn:Hq; [|assumption].
    apply (@sound_failAllPending
             (call (curl_multi_poll 10)
                (checkCompleted K (call curl_multi_perform s) (completions o))) _);
      [|assumption].
    now apply neqb_true.
Qed.

Lemma sound_startPolling s o :
  Forall (sound K) (settled s) -> Forall (sound K) (settled (startPolling K s o)).
Proof.
  intro H. unfold startPolling. break; [assumption|].
  now apply (sound_pollLoop (set_polling true s)).
Qed.

Lemma sound_exec s a :
  Forall (sound K) (settled s) -> Forall (sound K) (settled (exec K s a)).
Proof.
  intro H. destruct a; simpl.
  - unfold perform. simpl.
    destruct (closed s); simpl; [now apply (@sound_settle _ _ (new_promise s))|].
    destruct (handle s); simpl; [|now apply (@sound_settle _ _ (new_promise s))].
    destruct (getHandle c) as [h|]; simpl;
      [|now apply (@sound_settle _ _ (new_promise s))].
    destruct (neqb addCode (CURLM_OK K)) eqn:Ha; simpl.
    + apply (@sound_settle _ _ (call (curl_multi_add_handle h addCode) (new_promise s)));
        [|assumption].
      now apply neqb_true.
    + now apply sound_startPolling.
  - unfold cancel. repeat (break; simpl; auto).
    apply Forall_app. split; [assumption|]. now constructor.
  - unfold close. destruct (closed s); [assumption|].
    assert (H' : Forall (sound K) (settled
        (failAllPending (if pollTimer (set_closed true s)
                         then set_timer false false (set_closed true s)
                         else set_closed true s) ErrMultiClosed))).
    { apply sound_failAllPending; [exact I|]. now break. }
    break; assumption.
  - break; [|assumption]. now apply (sound_pollLoop (set_timer (pollTimer s) false s)).
Qed.

(** X3. Whatever the engine answers, a promise is resolved only with the
    result [CURLE_OK], and the status carried by an error is one that
    differs from the success status ([CURLE_OK] for a transfer, [CURLM_OK]
    for the engine calls, and also [CURLM_CALL_MULTI_PERFORM] for
    [curl_multi_perform]). *)
Theorem settlements_are_sound (l : list Action) :
  Forall (sound K) (settled (run K create l)).
Proof.
  assert (G : forall l s, Forall (sound K) (settled s) ->
                          Forall (sound K) (settled (run K s l))).
  { clear l. induction l as [|a l IH]; intros s H; simpl; [assumption|].
    apply IH. now apply sound_exec. }
  apply G. constructor.
Qed.

(** *** A closed scheduler *)

Lemma inert_exec s a :
  closed s = true -> Shut s ->
  native (exec K s a) = native s /\
  nextPromise s <= nextPromise (exec K s a) /\
  settled (exec K s a) =
    settled s ++ refusals (nextPromise s) (nextPromise (exec K s a) - nextPromise s).
Proof.
  intros Hc Hs. destruct (Hs Hc) as [Hh [Hp Hm]].
  destruct a; simpl.
  - unfold perform. cbn -[Nat.sub]. rewrite Hc. cbn -[Nat.sub].
    replace (S (nextPromise s) - nextPromise s) with 1 by lia.
    repeat split; auto.
  - unfold cancel. rewrite Hh. simpl. rewrite Nat.sub_diag, app_nil_r. auto.
  - unfold close. rewrite Hc. rewrite Nat.sub_diag, app_nil_r. auto.
  - destruct (immediate s).
    + unfold pollLoop. simpl. rewrite Hc. simpl.
      rewrite Nat.sub_diag, app_nil_r. auto.
    + rewrite Nat.sub_diag, app_nil_r. auto.
Qed.

Lemma refusals_app a n m : refusals a n ++ refusals (a + n) m = refusals a (n + m).
Proof. unfold refusals. now rewrite <- map_app, <- seq_app. Qed.

Lemma inert_run l : forall s,
  closed s = true -> Shut s ->
  native (run K s l) = native s /\
  nextPromise s <= nextPromise (run K s l) /\
  settled (run K s l) =
    settled s ++ refusals (nextPromise s) (nextPromise (run K s l) - nextPromise s).
Proof.
  induction l as [|a l IH]; intros s Hc Hs; simpl.
  - rewrite Nat.sub_diag. unfold refusals. simpl. rewrite app_nil_r. auto.
  - destruct (inert_exec a Hc Hs) as [E1 [E2 E3]].
    destruct (IH (exec K s a) (exec_closed K s a Hc) (Shut_exec K a Hs))
      as [R1 [R2 R3]].
    split; [congruence|]. split; [lia|].
    rewrite R3, E3, <- app_assoc. f_equal.
    replace (nextPromise (exec K s a))
      with (nextPromise s + (nextPromise (exec K s a) - nextPromise s)) at 2 by lia.
    rewrite refusals_app. f_equal. lia.
Qed.

(** X4. After [close], whatever is called on the scheduler, it makes no
    further call to the engine and holds no record, and the only
    settlements are the rejections "CurlMulti has been closed" of the
    promises of later [perform] calls, one each, in order. *)
Theorem closed_scheduler_is_inert (l after : list Action) :
  let s := close (run K create l) in
  let s' := run K s after in
  native s' = native s /\
  handle s' = false /\ pendingTransfers s' = [] /\ curlToAddr s' = [] /\
  nextPromise s <= nextPromise s' /\
  settled s' =
    settled s ++ refusals (nextPromise s) (nextPromise s' - nextPromise s).
Proof.
  intros s s'.
  assert (Hc : closed s = true) by apply close_closed.
  assert (Hs : Shut s).
  { unfold s. apply (Shut_exec K Close). apply Shut_reachable. }
  destruct (inert_run after Hc Hs) as [R1 [R2 R3]].
  destruct (Shut_run K after Hs (run_closed K after s Hc)) as [Hh [Hp Hm]].
  repeat split; assumption.
Qed.

(** *** One run of [checkCompleted] *)

Lemma complete_report s m :
  Inv s ->
  let s' := complete K (call curl_multi_info_read s) m in
  settled s' = settled s ++ report K s m /\
  native s' = native s ++ unregister K s m /\
  (forall h, h <> easyHandle m ->
     findPendingByHandle s' h = findPendingByHandle s h) /\
  (msg m = CURLMSG_DONE K -> findPendingByHandle s' (easyHandle m) = None).
Proof.
  intros I s'. subst s'.
  unfold complete, report, unregister, settlement, findPendingByHandle. simpl.
  destruct (msg m =? CURLMSG_DONE K)%Z eqn:Hm.
  - destruct (JsMap.get String.eqb (pendingTransfers s)
                (getHandleAddress (easyHandle m))) as [t|] eqn:Hg.
    + pose proof (inv_key I _ _
        (JsMapFacts.get_In String.eqb String.eqb_eq _ _ Hg)) as Hk.
      assert (Hother : forall h, h <> easyHandle m ->
        JsMap.get String.eqb
          (JsMap.delete String.eqb (pendingTransfers s) (handleAddr t))
          (getHandleAddress h)
        = JsMap.get String.eqb (pendingTransfers s) (getHandleAddress h)).
      { intros h Hh.
        apply (JsMapFacts.get_delete_other String.eqb String.eqb_eq).
        rewrite Hk. intro E. apply getHandleAddress_inj in E. congruence. }
      assert (Hsame : JsMap.get String.eqb
          (JsMap.delete String.eqb (pendingTransfers s) (handleAddr t))
          (getHandleAddress (easyHandle m)) = None).
      { rewrite Hk. apply JsMapFacts.get_delete_same. }
      destruct (result m =? CURLE_OK K)%Z; simpl;
        rewrite <- ?app_assoc; simpl; auto.
    + simpl. rewrite app_nil_r. auto.
  - rewrite app_nil_r. repeat split; auto.
    intro E. apply Z.eqb_neq in Hm. contradiction.
Qed.

Lemma flat_map_ext_in (A B : Type) (f g : A -> list B) l :
  (forall a, In a l -> f a = g a) -> flat_map f l = flat_map g l.
Proof.
  induction l as [|a l IH]; simpl; intro H; [reflexivity|].
  rewrite (H a (or_introl eq_refl)), IH; auto.
Qed.

Lemma report_same s s' m :
  findPendingByHandle s' (easyHandle m) = findPendingByHandle s (easyHandle m) ->
  report K s' m = report K s m /\ unregister K s' m = unregister K s m.
Proof. intro H. unfold report, unregister. now rewrite H. Qed.

Lemma drain_reports msgs : forall s,
  Inv s -> NoDup (map easyHandle msgs) ->
  let s' := drain K s msgs in
  settled s' = settled s ++ flat_map (report K s) msgs /\
  native s' = native s ++ flat_map (unregister K s) msgs ++ [curl_multi_info_read] /\
  (forall h, ~ In h (map easyHandle msgs) ->
     findPendingByHandle s' h = findPendingByHandle s h) /\
  (forall m, In m msgs -> msg m = CURLMSG_DONE K ->
     findPendingByHandle s' (easyHandle m) = None).
Proof.
  induction msgs as [|m rest IH]; intros s I Hn; simpl.
  - rewrite app_nil_r. repeat split; auto. intros m [].
  - simpl in Hn. apply NoDup_cons_iff in Hn as [Hm Hrest].
    destruct (complete_report m I) as [C1 [C2 [C3 C4]]].
    assert (I1 : Inv (complete K (call curl_multi_info_read s) m)).
    { apply Inv_complete. now apply Inv_call. }
    destruct (IH _ I1 Hrest) as [D1 [D2 [D3 D4]]].
    assert (Hsame : forall m', In m' rest ->
      findPendingByHandle (complete K (call curl_multi_info_read s) m) (easyHandle m')
      = findPendingByHandle s (easyHandle m')).
    { intros m' Hin. apply C3. intro E. apply Hm. rewrite <- E. now apply in_map. }
    split; [|split; [|split]].
    + rewrite D1, C1, <- app_assoc. f_equal. f_equal.
      apply flat_map_ext_in. intros m' Hin.
      exact (proj1 (@report_same _ _ _ (Hsame m' Hin))).
    + rewrite D2, C2, <- !app_assoc. f_equal. f_equal. f_equal.
      apply flat_map_ext_in. intros m' Hin.
      exact (proj2 (@report_same _ _ _ (Hsame m' Hin))).
    + intros h Hh. rewrite D3 by tauto. apply C3. intro E. apply Hh. now left.
    + intros m' [<-|Hin] Hd.
      * rewrite D3 by exact Hm. now apply C4.
      * now apply D4.
Qed.

(** X5. One run of [checkCompleted] on a scheduler that holds its native
    context, for messages that name pairwise distinct handles: the
    promises are settled in the order of the engine's messages, each
    message flagged done settling the promise of the record held for its
    handle when the run starts (resolved for [CURLE_OK], rejected with the
    result otherwise) and unregistering exactly that handle; a message
    without record, or not flagged done, settles nothing.  Afterwards the
    records of the handles named by done messages are gone and every
    other record is as before. *)
Theorem completions_settle_in_order (l : list Action)
    (msgs : list MultiInfoMessage) :
  let s := run K create l in
  handle s = true -> NoDup (map easyHandle msgs) ->
  let s' := checkCompleted K s msgs in
  settled s' = settled s ++ flat_map (report K s) msgs /\
  native s' =
    native s ++ flat_map (unregister K s) msgs ++ [curl_multi_info_read] /\
  (forall m t, findPendingByHandle s (easyHandle m) = Some t ->
     pt_handle t = easyHandle m) /\
  (forall h, ~ In h (map easyHandle msgs) ->
     findPendingByHandle s' h = findPendingByHandle s h) /\
  (forall m, In m msgs -> msg m = CURLMSG_DONE K ->
     findPendingByHandle s' (easyHandle m) = None).
Proof.
  intros s Hh Hn s'. subst s'. unfold checkCompleted. rewrite Hh. simpl.
  destruct (@drain_reports msgs _ (Inv_reachable K l) Hn) as [D1 [D2 [D3 D4]]].
  fold s in D1, D2, D3, D4.
  split; [exact D1|]. split; [exact D2|]. split; [|split; assumption].
  intros m t Hg. unfold findPendingByHandle in Hg.
  apply (JsMapFacts.get_In String.eqb String.eqb_eq) in Hg.
  destruct (Reg_reachable K l _ _ Hg) as [Ha _].
  pose proof (inv_key (Inv_reachable K l) _ _ Hg) as Hk.
  rewrite Ha in Hk. now apply getHandleAddress_inj in Hk.
Qed.

(** *** No promise is lost *)

Lemma Kept_ext s s' :
  pendingTransfers s' = pendingTransfers s -> settled s' = settled s ->
  nextPromise s' = nextPromise s -> Kept s -> Kept s'.
Proof.
  intros Hp Hs Hn [H1 H2].
  constructor; unfold done, waiting in *; rewrite ?Hp, ?Hs, ?Hn; assumption.
Qed.

Lemma Kept_fresh s s' x :
  Kept s -> pendingTransfers s' = pendingTransfers s ->
  settled s' = settled s ++ [(nextPromise s, x)] ->
  nextPromise s' = S (nextPromise s) -> Kept s'.
Proof.
  intros [H1 H2] Hp Hs Hn.
  constructor; unfold done, waiting in *; rewrite ?Hp, ?Hs, ?Hn; [assumption|].
  intros p Hlt. rewrite map_app, in_app_iff. simpl.
  destruct (Nat.eq_dec p (nextPromise s)) as [->|Hne]; [tauto|].
  destruct (H2 p); [lia| |]; tauto.
Qed.

Lemma Kept_take s s' k t x :
  Kept s -> JsMap.get String.eqb (pendingTransfers s) k = Some t ->
  pendingTransfers s' = JsMap.delete String.eqb (pendingTransfers s) k ->
  settled s' = settled s ++ [(promise t, x)] ->
  nextPromise s' = nextPromise s -> Kept s'.
Proof.
  intros [H1 H2] Hg Hp Hs Hn.
  constructor; unfold done, waiting in *; rewrite ?Hp, ?Hs, ?Hn.
  - now apply JsMapKeys.keys_delete_NoDup.
  - intros p Hlt. rewrite map_app, in_app_iff. simpl.
    destruct (H2 p Hlt) as [Hd|Hw]; [tauto|].
    destruct (JsMapKeys.image_delete_rest String.eqb String.eqb_eq promise
                _ _ p H1 Hg Hw) as [->|Hw']; tauto.
Qed.

Lemma Kept_store s s' k t :
  Kept s -> JsMap.get String.eqb (pendingTransfers s) k = None ->
  pendingTransfers s' = JsMap.set String.eqb (pendingTransfers s) k t ->
  promise t = nextPromise s -> settled s' = settled s ->
  nextPromise s' = S (nextPromise s) -> Kept s'.
Proof.
  intros [H1 H2] Hg Hp Ht Hs Hn.
  constructor; unfold done, waiting in *; rewrite ?Hp, ?Hs, ?Hn.
  - now apply (JsMapKeys.keys_set_NoDup String.eqb String.eqb_eq).
  - intros p Hlt. rewrite (JsMapKeys.image_set_new String.eqb promise _ _ t Hg).
    rewrite in_app_iff. simpl. rewrite Ht.
    destruct (Nat.eq_dec p (nextPromise s)) as [->|Hne]; [tauto|].
    destruct (H2 p); [lia| |]; tauto.
Qed.

Lemma Kept_cleared s s' e :
  Kept s -> pendingTransfers s' = [] ->
  settled s' = settled s ++ rejections e (JsMap.values (pendingTransfers s)) ->
  nextPromise s' = nextPromise s -> Kept s'.
Proof.
  intros [H1 H2] Hp Hs Hn.
  constructor; unfold done, waiting in *; rewrite ?Hp, ?Hs, ?Hn; [constructor|].
  intros p Hlt. left. rewrite map_app, fst_rejections, in_app_iff.
  exact (H2 p Hlt).
Qed.

Lemma Kept_failAllPending s e : Kept s -> Kept (failAllPending s e).
Proof.
  intro H. rewrite failAllPending_eq.
  eapply (@Kept_cleared s _ e H); reflexivity.
Qed.

Lemma Kept_complete s m : Inv s -> Kept s -> Kept (complete K s m).
Proof.
  intros I H. unfold complete, findPendingByHandle.
  destruct (msg m =? CURLMSG_DONE K)%Z; [|assumption].
  destruct (JsMap.get String.eqb (pendingTransfers s)
              (getHandleAddress (easyHandle m))) as [t|] eqn:Hg; [|assumption].
  pose proof (inv_key I _ _
    (JsMapFacts.get_In String.eqb String.eqb_eq _ _ Hg)) as Hk.
  rewrite Hk.
  destruct (result m =? CURLE_OK K)%Z;
    (eapply (@Kept_take _ _ _ _ _ H Hg); reflexivity).
Qed.

Lemma Kept_drain l : forall s, Inv s -> Kept s -> Kept (drain K s l).
Proof.
  induction l as [|m l IH]; intros s I H; simpl.
  - apply (@Kept_ext s (call curl_multi_info_read s)); auto.
  - apply IH.
    + apply Inv_complete. now apply Inv_call.
    + apply Kept_complete; [now apply Inv_call|].
      apply (@Kept_ext s (call curl_multi_info_read s)); auto.
Qed.

Lemma Kept_checkCompleted s l : Inv s -> Kept s -> Kept (checkCompleted K s l).
Proof.
  intros I H. unfold checkCompleted. break; [assumption|now apply Kept_drain].
Qed.

Lemma Kept_polling b s : Kept s -> Kept (set_polling b s).
Proof. now apply Kept_ext. Qed.

Lemma Kept_timer t i s : Kept s -> Kept (set_timer t i s).
Proof. now apply Kept_ext. Qed.

Lemma Kept_call c s : Kept s -> Kept (call c s).
Proof. now apply Kept_ext. Qed.

Lemma Kept_pollLoop s o : Inv s -> Kept s -> Kept (pollLoop K s o).
Proof.
  intros I H. unfold pollLoop.
  repeat break;
    repeat first [ apply Kept_polling | apply Kept_timer
                 | apply Kept_failAllPending | apply Kept_call
                 | apply Kept_checkCompleted | apply Inv_call ];
    assumption.
Qed.

Lemma Kept_startPolling s o : Inv s -> Kept s -> Kept (startPolling K s o).
Proof.
  intros I H. unfold startPolling. break; [assumption|].
  apply Kept_pollLoop; [now apply Inv_set_polling|now apply Kept_polling].
Qed.

(** A handle the engine does not hold has no record. *)
Lemma unregistered_no_record s h :
  Inv s -> Reg K s -> registered K (native s) h = false ->
  JsMap.get String.eqb (pendingTransfers s) (getHandleAddress h) = None.
Proof.
  intros I R Hr.
  destruct (JsMap.get String.eqb (pendingTransfers s) (getHandleAddress h))
    as [t|] eqn:Hg; [|reflexivity].
  apply (JsMapFacts.get_In String.eqb String.eqb_eq) in Hg.
  destruct (R _ _ Hg) as [Ha Hreg].
  pose proof (inv_key I _ _ Hg) as Hk. rewrite Ha in Hk.
  apply getHandleAddress_inj in Hk. congruence.
Qed.

Lemma Kept_perform s c a o :
  Inv s -> Reg K s -> obeys K s (Perform c a o) -> Kept s ->
  Kept (fst (perform K s c a o)).
Proof.
  intros I R Ho H. unfold perform. simpl.
  destruct (closed s) eqn:Hc; simpl;
    [(eapply (@Kept_fresh s _ _ H); reflexivity)|].
  destruct (handle s) eqn:Hh; simpl;
    [|(eapply (@Kept_fresh s _ _ H); reflexivity)].
  destruct (getHandle c) as [h|] eqn:Hg; simpl;
    [|(eapply (@Kept_fresh s _ _ H); reflexivity)].
  destruct (neqb a (CURLM_OK K)) eqn:Ha; simpl.
  - (eapply (@Kept_fresh s _ _ H); reflexivity).
  - assert (Hok : a = CURLM_OK K).
    { unfold neqb in Ha. apply negb_false_iff in Ha. now apply Z.eqb_eq. }
    assert (Hnone : JsMap.get String.eqb (pendingTransfers s)
                      (getHandleAddress h) = None).
    { apply unregistered_no_record; try assumption.
      destruct (registered K (native s) h) eqn:Hr; [|reflexivity].
      elim (Ho h Hg Hr Hok). }
    assert (I' : Inv (stored s c h a)) by now apply Inv_stored.
    apply Kept_startPolling; [exact I'|].
    eapply (@Kept_store s (stored s c h a) _ _ H Hnone); reflexivity.
Qed.

Lemma Kept_cancel s c : Kept s -> Kept (fst (cancel s c)).
Proof.
  intro H. unfold cancel.
  destruct (negb (handle s)); [assumption|].
  destruct (JsMap.get Nat.eqb (curlToAddr s) (curl_id c)) as [addr|]; [|assumption].
  destruct (JsMap.get String.eqb (pendingTransfers s) addr) as [t|] eqn:Hg;
    [|assumption].
  (eapply (@Kept_take _ _ _ _ _ H Hg); reflexivity).
Qed.

Lemma Kept_close s : Kept s -> Kept (close s).
Proof.
  intro H. destruct (closed s) eqn:Hc.
  - unfold close. now rewrite Hc.
  - rewrite (@close_open _ Hc).
    eapply (@Kept_cleared s _ ErrMultiClosed H); reflexivity.
Qed.

Lemma Kept_exec s a :
  Inv s -> Reg K s -> obeys K s a -> Kept s -> Kept (exec K s a).
Proof.
  intros I R Ho H. destruct a; simpl.
  - now apply Kept_perform.
  - now apply Kept_cancel.
  - now apply Kept_close.
  - break; [|assumption].
    apply Kept_pollLoop; [now apply Inv_set_timer|now apply Kept_timer].
Qed.

Lemma Kept_run l : forall s,
  Inv s -> Reg K s -> respects K s l -> Kept s -> Kept (run K s l).
Proof.
  induction l as [|a l IH]; intros s I R Hres H; simpl; [assumption|].
  destruct Hres as [Ho Hres].
  apply IH; [now apply Inv_exec|now apply Reg_exec|assumption|].
  now apply Kept_exec.
Qed.

Lemma calls_of_present p log :
  In p (map fst log) -> NoDup (map fst log) -> exists x, calls_of p log = [x].
Proof.
  intros Hin Hn.
  pose proof (calls_of_NoDup p log Hn) as Hle.
  destruct (calls_of p log) as [|x [|y r]] eqn:E; simpl in Hle; [|eauto|lia].
  exfalso. apply in_map_iff in Hin as [[q x] [Hq Hin]]. simpl in Hq. subst q.
  assert (Hx : In x (calls_of p log)).
  { unfold calls_of. apply in_map_iff. exists (p, x). split; [reflexivity|].
    apply filter_In. split; [assumption|]. simpl. apply Nat.eqb_refl. }
  rewrite E in Hx. exact Hx.
Qed.

Lemma covered_length (l : list nat) n :
  NoDup l -> (forall p, In p l -> p < n) -> (forall p, p < n -> In p l) ->
  List.length l = n.
Proof.
  intros Hn Hlt Hall.
  assert (H1 : List.length l <= List.length (seq 0 n)).
  { apply NoDup_incl_length; [assumption|].
    intros p Hp. apply in_seq. specialize (Hlt p Hp). lia. }
  assert (H2 : List.length (seq 0 n) <= List.length l).
  { apply NoDup_incl_length; [apply seq_NoDup|].
    intros p Hp. apply in_seq in Hp. apply Hall. lia. }
  rewrite length_seq in *. lia.
Qed.

(** X6. Against an engine that refuses to register a handle it already
    holds, no promise is lost: after any sequence of calls and poll-loop
    runs, every promise [perform] has handed out is either settled, exactly
    once, or held by one pending record, so the number of promises is the
    number of settlements plus the number of pending records; and [close]
    leaves every promise settled exactly once. *)
Theorem no_promise_is_lost (l : list Action) :
  respects K create l ->
  let s := run K create l in
  nextPromise s = List.length (settled s) + JsMap.size (pendingTransfers s) /\
  (forall p, p < nextPromise s ->
     (exists x, outcome s p = [x]) \/ In p (waiting s)) /\
  (forall p, p < nextPromise s -> exists x, outcome (close s) p = [x]).
Proof.
  intros Hres s.
  pose proof (Inv_reachable K l) as I. fold s in I.
  assert (Hk : Kept s).
  { apply Kept_run; try assumption; [apply Inv_create|now apply Reg_empty|].
    constructor; [constructor|]. simpl. intros p Hp. lia. }
  split; [|split].
  - assert (E : List.length (done s ++ waiting s) = nextPromise s).
    { apply covered_length.
      + apply NoDup_app_iff. split; [exact (inv_done I)|].
        split; [exact (inv_waiting I)|exact (inv_apart I)].
      + intros p Hp. apply in_app_or in Hp as [Hp|Hp];
          [exact (inv_done_lt I _ Hp)|exact (inv_waiting_lt I _ Hp)].
      + intros p Hp. apply in_or_app. exact (@kept_all _ Hk p Hp). }
    rewrite length_app in E. unfold done, waiting, JsMap.image, JsMap.size in *.
    rewrite !length_map in E. lia.
  - intros p Hp. destruct (@kept_all _ Hk p Hp) as [Hd|Hw]; [left|now right].
    exact (calls_of_present p (settled s) Hd (inv_done I)).
  - intros p Hp.
    pose proof (Inv_close I) as I'.
    pose proof (Kept_close Hk) as Hk'.
    assert (Hn : nextPromise (close s) = nextPromise s).
    { destruct (closed s) eqn:Hc.
      - unfold close. now rewrite Hc.
      - now rewrite (@close_open _ Hc). }
    assert (He : pendingTransfers (close s) = []).
    { destruct (Shut_exec K Close (Shut_reachable K l) (close_closed s))
        as [_ [He _]]. exact He. }
    destruct (@kept_all _ Hk' p) as [Hd|Hw]; [lia| |].
    + exact (calls_of_present p (settled (close s)) Hd (inv_done I')).
    + unfold waiting in Hw. rewrite He in Hw. destruct Hw.
Qed.

(** *** From submission to completion *)

Lemma neqb_same a : neqb a a = false.
Proof. unfold neqb. now rewrite Z.eqb_refl. Qed.

Lemma perform_goes_on o :
  performCode o = CURLM_OK K \/ performCode o = CURLM_CALL_MULTI_PERFORM K ->
  neqb (performCode o) (CURLM_OK K)
  && neqb (performCode o) (CURLM_CALL_MULTI_PERFORM K) = false.
Proof.
  intros [->| ->]; rewrite neqb_same; [reflexivity|apply andb_false_r].
Qed.

(** A run of the loop that [curl_multi_perform] lets go on, after
    [checkCompleted]. *)
Lemma pollLoop_after s o :
  closed s = false -> handle s = true -> pendingTransfers s <> [] ->
  performCode o = CURLM_OK K \/ performCode o = CURLM_CALL_MULTI_PERFORM K ->
  let sc := checkCompleted K (call curl_multi_perform s) (completions o) in
  grows sc (pollLoop K s o) /\
  (pendingTransfers (pollLoop K s o) = pendingTransfers sc \/
   pendingTransfers (pollLoop K s o) = []) /\
  (pollCode o = CURLM_OK K ->
   pendingTransfers (pollLoop K s o) = pendingTransfers sc).
Proof.
  intros Hc Hh Hp Ho sc. unfold pollLoop. rewrite Hc, Hh.
  assert (Hs : Nat.eqb (JsMap.size (pendingTransfers s)) 0 = false).
  { destruct (pendingTransfers s); [now elim Hp|reflexivity]. }
  rewrite Hs, (@perform_goes_on o Ho). cbn [orb negb andb]. cbv zeta. fold sc.
  destruct ((0 <? runningHandles o)%Z || (0 <? JsMap.size (pendingTransfers sc))).
  - destruct (neqb (pollCode o) (CURLM_OK K)) eqn:Eq.
    + rewrite failAllPending_eq. simpl.
      split; [eexists; reflexivity|]. split; [now right|].
      intros Hq. rewrite Hq, neqb_same in Eq. discriminate Eq.
    + simpl. split; [now apply grows_same|]. split; [now left|reflexivity].
  - simpl. split; [now apply grows_same|]. split; [now left|reflexivity].
Qed.

Lemma checkCompleted_open s msgs :
  handle s = true -> checkCompleted K s msgs = drain K s msgs.
Proof. intros H. unfold checkCompleted. now rewrite H. Qed.

Lemma calls_of_In p x log :
  NoDup (map fst log) -> In (p, x) log -> calls_of p log = [x].
Proof.
  intros Hn Hin.
  assert (Hp : In p (map fst log)) by (apply in_map_iff; now exists (p, x)).
  destruct (calls_of_present p log Hp Hn) as [y Hy].
  assert (Hx : In x (calls_of p log)).
  { unfold calls_of. apply in_map_iff. exists (p, x). split; [reflexivity|].
    apply filter_In. split; [exact Hin|]. simpl. apply Nat.eqb_refl. }
  rewrite Hy in Hx. destruct Hx as [->|[]]. exact Hy.
Qed.

Lemma grows_In s s' e : grows s s' -> In e (settled s) -> In e (settled s').
Proof. intros [ext ->] H. apply in_or_app. now left. Qed.

(** X24. From submission to completion: on an open scheduler, a transfer
    object submitted with the engine accepting it has its promise pending
    and its record held; when a later run of the poll loop gets from the
    engine a message flagged done that names its handle, its promise is
    settled exactly once, resolved with the result if that is [CURLE_OK]
    and rejected with "Transfer failed" otherwise, and its record is gone
    whatever else happens in that run. *)
Theorem submitted_transfer_completes (l : list Action) (c : Curl)
    (h : CurlHandle) (o1 o2 : PollAnswers) (m : MultiInfoMessage) :
  let s := run K create l in
  closed s = false -> getHandle c = Some h ->
  (performCode o1 = CURLM_OK K \/ performCode o1 = CURLM_CALL_MULTI_PERFORM K) ->
  NoDup (map easyHandle (completions o1)) ->
  ~ In h (map easyHandle (completions o1)) ->
  pollCode o1 = CURLM_OK K ->
  (performCode o2 = CURLM_OK K \/ performCode o2 = CURLM_CALL_MULTI_PERFORM K) ->
  NoDup (map easyHandle (completions o2)) ->
  In m (completions o2) -> msg m = CURLMSG_DONE K -> easyHandle m = h ->
  let r := perform K s c (CURLM_OK K) o1 in
  let s2 := exec K (fst r) (Tick o2) in
  outcome (fst r) (snd r) = [] /\
  (exists t, findPendingByHandle (fst r) h = Some t /\ promise t = snd r) /\
  outcome s2 (snd r) = [settlement K m] /\
  findPendingByHandle s2 h = None.
Proof.
  intros s Hc Hg Ho1 Hn1 Hh1 Hq1 Ho2 Hn2 Hm Hd He r s2.
  pose proof (Inv_reachable K l) as I. fold s in I.
  pose proof (inv_open I Hc) as Hh.
  set (t := {| curl := c; pt_handle := h; handleAddr := getHandleAddress h;
               promise := nextPromise s |}).
  assert (Er : r = (startPolling K (stored s c h (CURLM_OK K)) o1, nextPromise s)).
  { unfold r. rewrite (@perform_open K s c h (CURLM_OK K) o1 Hc Hh Hg).
    now rewrite neqb_same. }
  set (st := stored s c h (CURLM_OK K)) in *.
  assert (Ist : Inv st) by now apply Inv_stored.
  assert (Fst : findPendingByHandle st h = Some t).
  { unfold findPendingByHandle, st, stored. simpl.
    apply (JsMapFacts.get_set_same String.eqb String.eqb_eq). }
  assert (Cst : closed st = false) by exact Hc.
  assert (Hst : handle st = true) by exact Hh.
  (* after perform *)
  assert (F1 : findPendingByHandle (fst r) h = Some t).
  { rewrite Er. cbn [fst]. unfold startPolling.
    destruct (polling st || closed st); [exact Fst|].
    assert (Hne : pendingTransfers (set_polling true st) <> []).
    { change (pendingTransfers st <> []). intro E.
      unfold findPendingByHandle in Fst. rewrite E in Fst. discriminate Fst. }
    destruct (@pollLoop_after (set_polling true st) o1 Cst Hst Hne Ho1)
      as [_ [_ Hsame]].
    unfold findPendingByHandle. rewrite (Hsame Hq1).
    rewrite (@checkCompleted_open (call curl_multi_perform (set_polling true st))
               (completions o1) Hst).
    assert (Ic : Inv (call curl_multi_perform (set_polling true st))).
    { apply Inv_call. now apply Inv_set_polling. }
    destruct (@drain_reports (completions o1) _ Ic Hn1) as [_ [_ [D3 _]]].
    change (findPendingByHandle
              (drain K (call curl_multi_perform (set_polling true st))
                 (completions o1)) h = Some t).
    rewrite (D3 h Hh1). exact Fst. }
  (* the state after perform is reachable *)
  assert (R1 : fst r = run K create (l ++ [Perform c (CURLM_OK K) o1])).
  { rewrite run_app. reflexivity. }
  pose proof (Inv_reachable K (l ++ [Perform c (CURLM_OK K) o1])) as I1.
  pose proof (Busy_reachable K (l ++ [Perform c (CURLM_OK K) o1])) as B1.
  pose proof (Shut_reachable K (l ++ [Perform c (CURLM_OK K) o1])) as S1.
  pose proof (Live_reachable (l ++ [Perform c (CURLM_OK K) o1])) as L1.
  rewrite <- R1 in I1, B1, S1, L1.
  assert (Hne1 : pendingTransfers (fst r) <> []).
  { unfold findPendingByHandle in F1. intro E. rewrite E in F1. discriminate F1. }
  assert (C1 : closed (fst r) = false).
  { destruct (closed (fst r)) eqn:E; [|reflexivity].
    destruct (S1 E) as [_ [E' _]]. contradiction. }
  pose proof (inv_open I1 C1) as H1.
  pose proof (L1 C1 (B1 Hne1)) as Im1.
  assert (P1 : snd r = nextPromise s) by now rewrite Er.
  assert (W1 : In (snd r) (waiting (fst r))).
  { rewrite P1. unfold findPendingByHandle in F1.
    exact (JsMapFacts.image_get_In String.eqb String.eqb_eq promise _ _ F1). }
  split.
  { apply calls_of_absent. intro Hin. exact (inv_apart I1 _ Hin W1). }
  split; [exists t; split; [exact F1|now rewrite P1]|].
  (* the run of the loop *)
  assert (E2 : s2 = pollLoop K (set_timer (pollTimer (fst r)) false (fst r)) o2).
  { unfold s2. simpl. now rewrite Im1. }
  set (s1' := set_timer (pollTimer (fst r)) false (fst r)) in *.
  destruct (@pollLoop_after s1' o2 C1 H1 Hne1 Ho2) as [G [Hp _]].
  assert (Ic : Inv (call curl_multi_perform s1')).
  { apply Inv_call. now apply Inv_set_timer. }
  destruct (@drain_reports (completions o2) _ Ic Hn2) as [D1 [_ [_ D4]]].
  assert (Ec : checkCompleted K (call curl_multi_perform s1') (completions o2) =
               drain K (call curl_multi_perform s1') (completions o2))
    by exact (@checkCompleted_open (call curl_multi_perform s1') (completions o2) H1).
  rewrite Ec in *.
  assert (Hrep : In (snd r, settlement K m)
                   (settled (drain K (call curl_multi_perform s1') (completions o2)))).
  { rewrite D1. apply in_or_app. right. apply in_flat_map. exists m.
    split; [exact Hm|]. unfold report. rewrite Hd, Z.eqb_refl, He.
    change (findPendingByHandle (call curl_multi_perform s1') h)
      with (findPendingByHandle (fst r) h).
    rewrite F1. left. now rewrite P1. }
  split.
  - pose proof (Inv_reachable K ((l ++ [Perform c (CURLM_OK K) o1]) ++ [Tick o2])) as I2.
    rewrite run_app, <- R1 in I2. change (run K (fst r) [Tick o2]) with s2 in I2.
    apply calls_of_In; [exact (inv_done I2)|].
    rewrite E2. exact (@grows_In _ _ _ G Hrep).
  - unfold findPendingByHandle. rewrite E2.
    destruct Hp as [-> | ->]; [|reflexivity].
    rewrite <- He. exact (D4 m Hm Hd).
Qed.

End Runs.

(** *** Sample runs *)

Import Samples.

Lemma pending_transfers_are_polled_witness :
  let s := run libcurl create
             [Perform curlA 0 quiet; Perform curlB 0 quiet; Tick quiet;
              Cancel curlA] in
  JsMap.keys (pendingTransfers s) = ["2000"%string] /\
  closed s = false /\ handle s = true /\ polling s = true /\ immediate s = true.
Proof.
  generalize (pending_transfers_are_polled libcurl
    [Perform curlA 0 quiet; Perform curlB 0 quiet; Tick quiet; Cancel curlA]).
  vm_compute. intro H.
  destruct (H ltac:(intro E; discriminate E)) as [H1 [H2 [H3 H4]]].
  repeat split; assumption.
Defined.

Lemma idle_scheduler_stops_witness :
  let s := run libcurl create [Perform curlA 0 quiet; Cancel curlA] in
  let s' := exec libcurl s (Tick quiet) in
  immediate s = true /\ polling s = true /\
  native s' = native s /\ immediate s' = false /\ polling s' = false.
Proof.
  generalize (idle_scheduler_stops libcurl
    [Perform curlA 0 quiet; Cancel curlA] quiet).
  vm_compute. intro H.
  destruct (H eq_refl) as [H1 [H2 [H3 [H4 H5]]]].
  repeat split; try assumption; exact (H5 eq_refl).
Defined.

Lemma completions_settle_in_order_witness :
  let s := run libcurl create
             [Perform curlA 0 quiet; Perform curlB 0 quiet; Perform curlC 0 quiet] in
  settled (checkCompleted libcurl s (completions all_done)) =
    [(1, Resolve {| code := 0 |}); (0, Reject (ErrTransfer 7));
     (2, Resolve {| code := 0 |})].
Proof.
  generalize (completions_settle_in_order libcurl
    [Perform curlA 0 quiet; Perform curlB 0 quiet; Perform curlC 0 quiet]
    (completions all_done)).
  vm_compute. intro H.
  assert (Hn : NoDup [8192%N; 4096%N; 12288%N]).
  { repeat constructor; simpl; intuition discriminate. }
  destruct (H eq_refl Hn) as [H1 _]. exact H1.
Defined.

Lemma no_promise_is_lost_witness :
  let s := run libcurl create
             [Perform curlA 0 quiet; Perform curlA 7 quiet; Perform curlB 0 quiet;
              Tick poll_fault; Perform curlA 0 quiet] in
  nextPromise s = 4 /\ List.length (settled s) = 3 /\
  JsMap.size (pendingTransfers s) = 1 /\
  outcome (close s) 3 = [Reject ErrMultiClosed].
Proof.
  assert (R : respects libcurl create
    [Perform curlA 0 quiet; Perform curlA 7 quiet; Perform curlB 0 quiet;
     Tick poll_fault; Perform curlA 0 quiet]).
  { cbn [respects]. repeat split; vm_compute;
      intros h E Hr Hz; injection E as <-; vm_compute in Hr;
      first [discriminate Hr | discriminate Hz]. }
  generalize (no_promise_is_lost libcurl _ R).
  vm_compute. intros [H1 [H2 H3]].
  destruct (H3 3 ltac:(repeat constructor)) as [x Hx].
  repeat split.
Defined.

Lemma submitted_transfer_completes_witness :
  let s := run libcurl create [Perform curlB 0 quiet] in
  let r := perform libcurl s curlA 0 quiet in
  let s2 := exec libcurl (fst r) (Tick all_done) in
  snd r = 1 /\ outcome (fst r) 1 = [] /\
  outcome s2 1 = [Reject (ErrTransfer 7)] /\
  findPendingByHandle s2 4096%N = None.
Proof.
  generalize (@submitted_transfer_completes libcurl [Perform curlB 0 quiet]
    curlA 4096%N quiet all_done {| msg := 1; easyHandle := 4096%N; result := 7 |}).
  vm_compute. intro H.
  assert (Hn : NoDup [8192%N; 4096%N; 12288%N]).
  { repeat constructor; simpl; intuition discriminate. }
  destruct (H eq_refl eq_refl (or_introl eq_refl) (NoDup_nil _) (fun x => x)
              eq_refl (or_introl eq_refl) Hn (or_intror (or_introl eq_refl))
              eq_refl eq_refl) as [H1 [_ [H3 H4]]].
  repeat split; assumption.
Defined.

End MultiRunsFacts.

(* ------------------------------------------------------------------ *)
(** ** The WebSocket session over whole histories *)

Module WSRunsFacts.
Import WS WSRuns WSFacts.

Section Runs.
Variable K : Constants.
Variable fl : Q -> Number.

(** *** [close] *)

(** X7. [close(code, reason)] on an open session, for a code that fits
    sixteen bits: one close frame is sent whose payload is the code in two
    bytes followed by the reason, the handle is released, and the call
    returns normally whatever the engine answers to the send; the session
    is closed with the Close Event (code, reason, clean), and
    [handleCloseFrame] decodes the payload sent to that same event.  A
    further [close] does nothing.  A code outside 0..65535 makes [close]
    throw before anything is sent or changed. *)
Theorem close_releases_session (ws : AsyncWebSocket) (c : Z) (why : string)
    (a : SendAnswer) :
  _closed ws = false ->
  let res := close K ws c why a in
  let ev := {| code := c; reason := why; wasClean := true |} in
  ((0 <= c <= 65535)%Z ->
     snd res = Return tt /\
     native (fst res) =
       native ws ++ [curl_ws_send (close_payload c why) (CURLWS_CLOSE K);
                     curl_easy_cleanup] /\
     fst res = call curl_easy_cleanup (set_pollTimer false (set_closed ev
                 (call (curl_ws_send (close_payload c why) (CURLWS_CLOSE K)) ws))) /\
     _closed (fst res) = true /\ connected (fst res) = false /\
     _closeEvent (fst res) = Some ev /\
     handleCloseFrame ws (close_payload c why) = set_closed ev ws /\
     (forall c' why' a', close K (fst res) c' why' a' = (fst res, Return tt))) /\
  ((c < 0 \/ 65535 < c)%Z -> res = (ws, Throw RangeError)).
Proof.
  intros Ho res ev. subst res. unfold close. rewrite Ho. split.
  - intro Hc.
    assert (Hr : (c <? 0)%Z || (65535 <? c)%Z = false).
    { apply orb_false_iff. split; apply Z.ltb_ge; lia. }
    rewrite Hr.
    assert (Hs : fst (sendRaw K ws (close_payload c why) (CURLWS_CLOSE K) a)
                 = call (curl_ws_send (close_payload c why) (CURLWS_CLOSE K)) ws).
    { unfold sendRaw. rewrite Ho. repeat split_if; reflexivity. }
    rewrite Hs. cbn [fst snd]. unfold connected.
    split; [reflexivity|]. split; [simpl; now rewrite <- app_assoc|].
    split; [reflexivity|]. split; [reflexivity|]. split; [reflexivity|].
    split; [reflexivity|]. split.
    + destruct (close_payload_bytes why Hc) as [hi [lo [-> E]]].
      rewrite handleCloseFrame_payload. unfold ev. now rewrite E.
    + intros c' why' a'. reflexivity.
  - intro Hc.
    assert (Hr : (c <? 0)%Z || (65535 <? c)%Z = true).
    { apply orb_true_iff. destruct Hc; [left|right]; apply Z.ltb_lt; lia. }
    now rewrite Hr.
Qed.

(** *** A closed session *)

Lemma sendRaw_shut ws data flags a :
  _closed ws = true -> fst (sendRaw K ws data flags a) = ws.
Proof. intro H. unfold sendRaw. now rewrite H. Qed.

Lemma poll_shut ws startTime limit t :
  _closed ws = true ->
  fst (poll K ws startTime limit t) = set_pollTimer false ws.
Proof. intro H. unfold poll. rewrite H. now destruct (timed_out _ _ _). Qed.

(** The fields other than [pollTimer]. *)
Lemma step_shut ws e :
  _closed ws = true ->
  native (step K fl ws e) = native ws /\ _closed (step K fl ws e) = true /\
  _closeEvent (step K fl ws e) = _closeEvent ws /\
  _connected (step K fl ws e) = _connected ws /\
  receiveBuffer (step K fl ws e) = receiveBuffer ws /\
  messageQueue (step K fl ws e) = messageQueue ws.
Proof.
  intro H. destruct e as [[d a|x a|d a|tm st f l|c r a]|st lim t]; simpl.
  - unfold send. rewrite sendRaw_shut by assumption. repeat split; auto.
  - unfold sendStr. rewrite sendRaw_shut by assumption. repeat split; auto.
  - unfold ping. rewrite sendRaw_shut by assumption. repeat split; auto.
  - unfold recv. rewrite H. simpl. repeat split; auto.
  - unfold close. rewrite H. simpl. repeat split; auto.
  - destruct (pollTimer ws); [|repeat split; auto].
    rewrite poll_shut by assumption. simpl. repeat split; auto.
Qed.

(** X8. Once a session is closed, by [close] or by a close frame of the
    peer, nothing that is called on it and no timer run calls the engine or
    changes the Close Event: the native log, the closed flag, the Close
    Event, the connected flag and the buffers stay as they are.  In
    particular a session closed by the peer's close frame, for which
    [curl_easy_cleanup] has not been called, never calls it. *)
Theorem closed_session_is_inert (ws : AsyncWebSocket) (events : list Event) :
  _closed ws = true ->
  let ws' := steps K fl ws events in
  native ws' = native ws /\ _closed ws' = true /\
  _closeEvent ws' = _closeEvent ws /\ _connected ws' = _connected ws /\
  receiveBuffer ws' = receiveBuffer ws /\ messageQueue ws' = messageQueue ws.
Proof.
  revert ws. induction events as [|e l IH]; intros ws H; simpl; [repeat split; auto|].
  destruct (@step_shut ws e H) as [E1 [E2 [E3 [E4 [E5 E6]]]]].
  destruct (IH _ E2) as [R1 [R2 [R3 [R4 [R5 R6]]]]].
  repeat split; congruence.
Qed.

(** *** What one run of [poll] can do *)

Lemma unreleased_app l l' : unreleased l -> unreleased l' -> unreleased (l ++ l').
Proof. unfold unreleased. intros H H' Hin. apply in_app_or in Hin. tauto. Qed.

Lemma unreleased_nil : unreleased [].
Proof. intros []. Qed.

Lemma unreleased_recv : unreleased [curl_ws_recv].
Proof. intros [E|[]]. discriminate E. Qed.

Lemma unreleased_send d f : unreleased [curl_ws_send d f].
Proof. intros [E|[]]. discriminate E. Qed.

Lemma sendRaw_native ws data flags a :
  _closed ws = false ->
  native (fst (sendRaw K ws data flags a)) = native ws ++ [curl_ws_send data flags].
Proof. intro H. unfold sendRaw. rewrite H. repeat split_if; reflexivity. Qed.

(** [frameToMessage] never returns null. *)
Lemma frameToMessage_some d f :
  exists ty, frameToMessage K d f = Some {| type := ty; data := d |}.
Proof. unfold frameToMessage. repeat split_if; eauto. Qed.

Lemma tryReceive_cases ws r pong :
  _closed ws = false ->
  let res := tryReceive K ws r pong in
  (exists ext, native (fst res) = native ws ++ ext /\ unreleased ext) /\
  match snd res with
  | Return (Some m) =>
      recvCode r = CURLE_OK K /\ 0 < received r /\
      data m = firstn (received r) (written r) /\ type m <> CLOSE /\
      _closed (fst res) = false
  | Return None =>
      _closed (fst res) = false /\
      (recvCode r = CURLE_AGAIN K \/ recvCode r = CURLE_OK K) /\
      native (fst res) = native ws ++ [curl_ws_recv]
  | Throw e =>
      (_closed (fst res) = true /\ exists c why, e = WebSocketClosed c why) \/
      (_closed (fst res) = false /\
       e = WebSocketError (ReceiveError (recvCode r)) None /\
       recvCode r <> CURLE_OK K /\ recvCode r <> CURLE_AGAIN K)
  end.
Proof.
  intros Ho res. subst res. unfold tryReceive. rewrite Ho.
  destruct ((recvCode r =? CURLE_OK K)%Z && (0 <? received r)) eqn:E.
  - apply andb_prop in E as [E1 E2].
    apply Z.eqb_eq in E1. apply Nat.ltb_lt in E2.
    destruct (frameToMessage_some
                (firstn (received r)
                   (receiveBuffer (set_buffer (written r) (call curl_ws_recv ws))))
                (match frame r with Some f => f | None => CURLWS_TEXT K end))
      as [ty ->].
    destruct ty; cbn -[handleCloseFrame code_or reason_or firstn sendPong].
    1, 2, 4: (split; [exists [curl_ws_recv]; split; [reflexivity|apply unreleased_recv]|]);
      repeat split; auto; discriminate.
    + unfold sendPong. split.
      * eexists. rewrite sendRaw_native by exact Ho. simpl.
        rewrite <- app_assoc. split; [reflexivity|].
        apply (unreleased_app unreleased_recv). apply unreleased_send.
      * repeat split; auto; [discriminate|].
        now rewrite sendRaw_closed.
    + split; [exists [curl_ws_recv]; split; [reflexivity|apply unreleased_recv]|].
      left. split; [reflexivity|eauto].
  - destruct (recvCode r =? CURLE_AGAIN K)%Z eqn:Ea.
    + simpl. split; [exists [curl_ws_recv]; split; [reflexivity|apply unreleased_recv]|].
      apply Z.eqb_eq in Ea. auto.
    + destruct (neqb (recvCode r) (CURLE_OK K)) eqn:En; simpl.
      * split; [exists [curl_ws_recv]; split; [reflexivity|apply unreleased_recv]|].
        right. repeat split; auto.
        -- unfold neqb in En. apply negb_true_iff in En. now apply Z.eqb_neq.
        -- now apply Z.eqb_neq.
      * split; [exists [curl_ws_recv]; split; [reflexivity|apply unreleased_recv]|].
        unfold neqb in En. apply negb_false_iff in En. apply Z.eqb_eq in En. auto.
Qed.

Lemma poll_cases ws startTime limit t :
  _closed ws = false -> timed_out startTime limit (now t) = false ->
  let res := poll K ws startTime limit t in
  let r := recvAnswer t in
  (exists ext, native (fst res) = native ws ++ ext /\ unreleased ext) /\
  messageQueue (fst res) = messageQueue ws /\
  match snd res with
  | Some (Return m) =>
      recvCode r = CURLE_OK K /\ 0 < received r /\
      data m = firstn (received r) (written r) /\ type m <> CLOSE /\
      _closed (fst res) = false /\ pollTimer (fst res) = false
  | None =>
      _closed (fst res) = false /\ pollTimer (fst res) = true /\
      (recvCode r = CURLE_AGAIN K \/ recvCode r = CURLE_OK K) /\
      native (fst res) = native ws ++ [curl_ws_recv]
  | Some (Throw e) =>
      pollTimer (fst res) = false /\
      ((_closed (fst res) = true /\ exists c why, e = WebSocketClosed c why) \/
       (_closed (fst res) = false /\
        e = WebSocketError (ReceiveError (recvCode r)) None /\
        recvCode r <> CURLE_OK K /\ recvCode r <> CURLE_AGAIN K))
  end.
Proof.
  intros Ho Ht res r. subst res r.
  pose proof (poll_queue K ws startTime limit t) as Hq.
  unfold poll in *. rewrite Ht, Ho in *.
  pose proof (@tryReceive_cases ws (recvAnswer t) (pongAnswer t) Ho) as [Hn Hc].
  destruct (tryReceive K ws (recvAnswer t) (pongAnswer t)) as [ws' [[m|]|e]];
    simpl in *; (split; [exact Hn|]); (split; [exact Hq|]); intuition.
Qed.

Lemma poll_again_cases startTime limit later : forall ws,
  _closed ws = false ->
  let res := poll_again K ws startTime limit later in
  (exists ext, native (fst res) = native ws ++ ext /\ unreleased ext) /\
  messageQueue (fst res) = messageQueue ws /\
  recv_end K ws (fst res) limit later (snd res).
Proof.
  induction later as [|t rest IH]; intros ws Ho; simpl.
  - split; [exists []; split; [now rewrite app_nil_r|apply unreleased_nil]|].
    split; [reflexivity|exact Ho].
  - destruct (timed_out startTime limit (now t)) eqn:Ht.
    + unfold poll. rewrite Ht. simpl.
      split; [exists []; split; [now rewrite app_nil_r|apply unreleased_nil]|].
      split; [reflexivity|]. right. split; [exact Ho|]. right.
      split; [reflexivity|]. intros ->. discriminate Ht.
    + pose proof (@poll_cases ws startTime limit t Ho Ht) as [[ext [Hn Hu]] [Hq Hc]].
      destruct (poll K ws startTime limit t) as [ws' [[m|e]|]]; simpl in *.
      * split; [eauto|]. split; [exact Hq|].
        destruct Hc as [C1 [C2 [C3 [C4 [C5 C6]]]]].
        split; [exact C4|]. split; [exact C5|]. exists t. auto.
      * split; [eauto|]. split; [exact Hq|].
        destruct Hc as [_ [Hc|[C1 [C2 [C3 C4]]]]]; [now left|].
        right. split; [exact C1|]. left. eauto.
      * destruct Hc as [C1 _].
        destruct (IH ws' C1) as [[ext' [Hn' Hu']] [Hq' He]].
        split.
        { exists (ext ++ ext'). rewrite Hn', Hn, app_assoc.
          split; [reflexivity|now apply unreleased_app]. }
        split; [congruence|].
        unfold recv_end in *.
        destruct (snd (poll_again K ws' startTime limit rest)) as [[m|e]|]; auto.
        destruct He as [E1 [E2 [t' [E3 E4]]]].
        split; [exact E1|]. split; [exact E2|]. exists t'. split; [now right|exact E4].
Qed.

(** X9. Whatever [recv] resolves with, on a session reached from
    [connect]: the message is never of type [CLOSE] (a close frame ends
    the call with [WebSocketClosed] instead), its bytes are the first
    [received] bytes of the receive buffer as one successful
    [curl_ws_recv] of this call left it, and the session is still open
    afterwards. *)
Theorem recv_delivers_a_frame (size : nat) (l : list Action)
    (timeout : option Number) (startTime : Z) (first : Tick) (later : list Tick)
    (m : WebSocketMessage) :
  let ws := run K fl (connect size) l in
  let res := recv K fl ws timeout startTime first later in
  snd res = Some (Return m) ->
  type m <> CLOSE /\ _closed (fst res) = false /\
  exists t, In t (first :: later) /\
    recvCode (recvAnswer t) = CURLE_OK K /\ 0 < received (recvAnswer t) /\
    data m = firstn (received (recvAnswer t)) (written (recvAnswer t)).
Proof.
  intros ws res H. subst res. unfold recv in *.
  destruct (_closed ws) eqn:Ho; [discriminate H|].
  unfold ws in H at 1. unfold ws at 1 3. rewrite queue_empty in *. fold ws in H |- *.
  pose proof (@poll_again_cases startTime (timeoutMs fl timeout) (first :: later) ws Ho)
    as [_ [_ He]].
  rewrite H in He. exact He.
Qed.

(** *** The handle is released once, by the last call *)

Lemma Released_grow ws ws' ext :
  Released ws -> _closed ws = false ->
  native ws' = native ws ++ ext -> unreleased ext -> Released ws'.
Proof.
  intros [b [Hb [Hn|[_ Hc]]]] Ho He Hu; [|congruence].
  exists (b ++ ext). split; [now apply unreleased_app|]. left. congruence.
Qed.

Lemma Released_same ws ws' :
  Released ws -> native ws' = native ws -> (_closed ws = true -> _closed ws' = true) ->
  Released ws'.
Proof.
  intros [b [Hb [Hn|[Hn Hc]]]] He Hk; exists b; (split; [exact Hb|]).
  - left. congruence.
  - right. split; [congruence|auto].
Qed.

Lemma recv_native ws timeout startTime first later :
  _closed ws = false ->
  exists ext,
    native (fst (recv K fl ws timeout startTime first later)) = native ws ++ ext /\
    unreleased ext.
Proof.
  intro Ho. unfold recv. rewrite Ho.
  destruct (messageQueue ws) as [|m q].
  - exact (proj1 (@poll_again_cases startTime (timeoutMs fl timeout) (first :: later) ws Ho)).
  - exists []. simpl. split; [now rewrite app_nil_r|apply unreleased_nil].
Qed.

Lemma Released_step ws e : Released ws -> Released (step K fl ws e).
Proof.
  intro H. destruct (_closed ws) eqn:Ho.
  - destruct (@step_shut ws e Ho) as [E1 [E2 _]].
    eapply Released_same; eauto.
  - destruct e as [[d a|x a|d a|tm st f l|c r a]|st lim t]; simpl.
    + eapply Released_grow; [exact H|exact Ho|apply sendRaw_native; exact Ho|apply unreleased_send].
    + eapply Released_grow; [exact H|exact Ho|apply sendRaw_native; exact Ho|apply unreleased_send].
    + eapply Released_grow; [exact H|exact Ho|apply sendRaw_native; exact Ho|apply unreleased_send].
    + destruct (@recv_native ws tm st f l Ho) as [ext [Hn Hu]].
      eapply Released_grow; eauto.
    + unfold close. rewrite Ho.
      destruct ((c <? 0)%Z || (65535 <? c)%Z); [exact H|].
      destruct H as [b [Hb [Hn|[_ Hc]]]]; [|congruence].
      exists (b ++ [curl_ws_send (close_payload c r) (CURLWS_CLOSE K)]).
      split; [apply unreleased_app; [exact Hb|apply unreleased_send]|].
      right. split; [|reflexivity].
      simpl. rewrite sendRaw_native by exact Ho. rewrite Hn.
      now rewrite <- !app_assoc.
    + destruct (pollTimer ws); [|exact H].
      destruct (timed_out st lim (now t)) eqn:Ht.
      * unfold poll. rewrite Ht. simpl.
        eapply Released_same; [exact H|reflexivity|congruence].
      * destruct (@poll_cases ws st lim t Ho Ht) as [[ext [Hn Hu]] _].
        eapply Released_grow; eauto.
Qed.

Lemma last_occurrence (A : Type) (x : A) b before after :
  ~ In x b -> b ++ [x] = before ++ x :: after -> before = b /\ after = [].
Proof.
  revert before. induction b as [|y b IH]; intros before Hb E; simpl in *.
  - destruct before as [|z r]; simpl in E.
    + injection E as <-. auto.
    + injection E as <- E. destruct r; discriminate E.
  - destruct before as [|z r]; simpl in E.
    + injection E as -> _. tauto.
    + injection E as <- E. destruct (IH r) as [-> ->]; [tauto|exact E|auto].
Qed.

(** X10. In every history of a session, of method calls and timer runs
    with any answers of the engine, [curl_easy_cleanup] is called at most
    once and no native call follows it: the handle is never used after it
    has been released, and it is released only on a closed session. *)
Theorem handle_not_used_after_release (size : nat) (events : list Event)
    (before after : list NativeCall) :
  let ws := steps K fl (connect size) events in
  native ws = before ++ curl_easy_cleanup :: after ->
  after = [] /\ unreleased before /\ _closed ws = true.
Proof.
  intros ws E.
  assert (H : Released ws).
  { assert (G : forall l s, Released s -> Released (steps K fl s l)).
    { induction l as [|e l IH]; intros s H; simpl; [exact H|].
      apply IH. now apply Released_step. }
    apply G. exists []. split; [apply unreleased_nil|now left]. }
  destruct H as [b [Hb [Hn|[Hn Hc]]]].
  - exfalso. apply Hb. rewrite <- Hn, E. apply in_or_app. right. now left.
  - rewrite Hn in E. destruct (@last_occurrence _ _ _ _ _ Hb E) as [-> ->]. auto.
Qed.

(** *** Polling without a frame *)

Lemma idle_fields ticks : forall ws,
  native (idle ws ticks) = native ws ++ repeat curl_ws_recv (List.length ticks) /\
  _closed (idle ws ticks) = _closed ws /\
  messageQueue (idle ws ticks) = messageQueue ws /\
  (ticks <> [] -> pollTimer (idle ws ticks) = true).
Proof.
  unfold idle. induction ticks as [|t r IH] using rev_ind; intro ws; simpl.
  - rewrite app_nil_r. repeat split; auto; intro H; now elim H.
  - rewrite fold_left_app. simpl. destruct (IH ws) as [I1 [I2 [I3 I4]]].
    rewrite I1, length_app, repeat_app, <- app_assoc. simpl.
    repeat split; auto.
Qed.

Lemma poll_quiet ws startTime limit t :
  _closed ws = false -> CURLE_AGAIN K <> CURLE_OK K ->
  no_frame K startTime limit t ->
  poll K ws startTime limit t = (idle ws [t], None).
Proof.
  intros Ho Hk [Ht Hr]. unfold poll, tryReceive. rewrite Ht, Ho, Hr.
  destruct (CURLE_AGAIN K =? CURLE_OK K)%Z eqn:E;
    [apply Z.eqb_eq in E; contradiction|].
  simpl. now rewrite Z.eqb_refl.
Qed.

Lemma poll_again_quiet startTime limit ticks : forall ws more,
  _closed ws = false -> CURLE_AGAIN K <> CURLE_OK K ->
  Forall (no_frame K startTime limit) ticks ->
  poll_again K ws startTime limit (ticks ++ more) =
  poll_again K (idle ws ticks) startTime limit more.
Proof.
  induction ticks as [|t r IH]; intros ws more Ho Hk Hq; [reflexivity|].
  apply Forall_cons_iff in Hq as [Ht Hq].
  simpl. rewrite (@poll_quiet ws _ _ _ Ho Hk Ht).
  rewrite IH; auto.
Qed.

Lemma recv_polls ws timeout startTime first later :
  _closed ws = false -> messageQueue ws = [] ->
  recv K fl ws timeout startTime first later =
  poll_again K ws startTime (timeoutMs fl timeout) (first :: later).
Proof. intros Ho Hq. unfold recv. now rewrite Ho, Hq. Qed.

(** X11. While [curl_ws_recv] answers [CURLE_AGAIN] and the time limit is
    not reached, a [recv] on an open session stays pending: each run of
    [poll] makes exactly one [curl_ws_recv] call and sets the timer
    again, for any number of runs.  The first run that finds the limit
    reached rejects with "Receive timeout" without calling the engine and
    clears the timer. *)
Theorem recv_polls_until_timeout (size : nat) (l : list Action)
    (timeout : option Number) (startTime : Z) (first : Tick) (later : list Tick)
    (t : Tick) (rest : list Tick) :
  let ws := run K fl (connect size) l in
  _closed ws = false -> CURLE_AGAIN K <> CURLE_OK K ->
  Forall (no_frame K startTime (timeoutMs fl timeout)) (first :: later) ->
  let pending := recv K fl ws timeout startTime first later in
  snd pending = None /\
  native (fst pending) =
    native ws ++ repeat curl_ws_recv (S (List.length later)) /\
  pollTimer (fst pending) = true /\ _closed (fst pending) = false /\
  (timed_out startTime (timeoutMs fl timeout) (now t) = true ->
   let res := recv K fl ws timeout startTime first (later ++ t :: rest) in
   snd res = Some (Throw (WebSocketError ReceiveTimeout None)) /\
   native (fst res) = native (fst pending) /\ pollTimer (fst res) = false).
Proof.
  intros ws Ho Hk Hq pending.
  assert (Hempty : messageQueue ws = []) by apply queue_empty.
  assert (Hp : pending = (idle ws (first :: later), None)).
  { unfold pending. rewrite recv_polls by assumption.
    pose proof (@poll_again_quiet startTime (timeoutMs fl timeout) (first :: later)
                  ws [] Ho Hk Hq) as E.
    rewrite app_nil_r in E. exact E. }
  destruct (idle_fields (first :: later) ws) as [I1 [I2 [I3 I4]]].
  rewrite Hp. cbn [fst snd].
  split; [reflexivity|]. split; [exact I1|].
  split; [apply I4; discriminate|]. split; [congruence|].
  intros Ht.
  assert (Hr : recv K fl ws timeout startTime first (later ++ t :: rest) =
               (set_pollTimer false (idle ws (first :: later)),
                Some (Throw (WebSocketError ReceiveTimeout None)))).
  { rewrite recv_polls by assumption.
    change (first :: later ++ t :: rest) with ((first :: later) ++ t :: rest).
    rewrite poll_again_quiet by assumption.
    cbn [poll_again]. unfold poll. now rewrite Ht. }
  rewrite Hr. simpl. auto.
Qed.

(** *** The time limit *)

Lemma ge_whole_above (limit : Number) (e : Z) :
  ge limit (Finite (inject_Z (e + 1))) = true ->
  ge (Finite (inject_Z e)) limit = false.
Proof.
  destruct limit as [y| | |]; simpl; try discriminate; [|reflexivity].
  intro H. apply Qle_bool_iff in H.
  destruct (Qle_bool y (inject_Z e)) eqn:E; [|reflexivity].
  apply Qle_bool_iff in E. exfalso.
  assert (Hle : (inject_Z (e + 1) <= inject_Z e)%Q)
    by (eapply Qle_trans; eauto).
  rewrite <- Zle_Qle in Hle. lia.
Qed.

Lemma limit_reached q startTime n :
  keeps_whole_numbers fl -> (Z.abs (n - startTime) < 2 ^ 53)%Z ->
  (q * 1000 <= inject_Z (n - startTime))%Q ->
  timed_out startTime (timeoutMs fl (Some (Finite q))) n = true.
Proof.
  intros Hfl Hb Hq. unfold timed_out, timeoutMs, multiply.
  apply (Hfl (q * 1000)%Q (n - startTime)%Z); [lia|exact Hq].
Qed.

Lemma limit_ahead q startTime n :
  keeps_whole_numbers fl -> (Z.abs (n - startTime) < 2 ^ 53)%Z ->
  (inject_Z (n - startTime) + 1 <= q * 1000)%Q ->
  timed_out startTime (timeoutMs fl (Some (Finite q))) n = false.
Proof.
  intros Hfl Hb Hq. unfold timed_out, timeoutMs, multiply.
  apply ge_whole_above.
  apply (Hfl (q * 1000)%Q (n - startTime + 1)%Z); [lia|].
  rewrite inject_Z_plus. exact Hq.
Qed.

(** A limit that is never reached is no limit. *)
Lemma poll_again_unlimited startTime limit ticks : forall ws,
  (forall n, timed_out startTime limit n = false) ->
  poll_again K ws startTime limit ticks =
  poll_again K ws startTime PlusInfinity ticks.
Proof.
  induction ticks as [|t rest IH]; intros ws Hl; [reflexivity|].
  cbn [poll_again].
  assert (E : poll K ws startTime limit t = poll K ws startTime PlusInfinity t).
  { unfold poll. rewrite Hl. reflexivity. }
  rewrite E. destruct (poll K ws startTime PlusInfinity t) as [ws' [r|]];
    [reflexivity|now apply IH].
Qed.

Lemma poll_timed_out ws startTime limit t :
  timed_out startTime limit (now t) = true ->
  poll K ws startTime limit t =
  (set_pollTimer false ws, Some (Throw (WebSocketError ReceiveTimeout None))).
Proof. intro H. unfold poll. now rewrite H. Qed.

Lemma tryReceive_reads ws r pong :
  _closed ws = false ->
  exists more,
    native (fst (tryReceive K ws r pong)) = native ws ++ curl_ws_recv :: more.
Proof.
  intro Ho. unfold tryReceive. rewrite Ho.
  destruct ((recvCode r =? CURLE_OK K)%Z && (0 <? received r)).
  - destruct (frameToMessage_some
                (firstn (received r)
                   (receiveBuffer (set_buffer (written r) (call curl_ws_recv ws))))
                (match frame r with Some f => f | None => CURLWS_TEXT K end))
      as [ty E].
    cbv zeta. rewrite E. cbn [type data].
    destruct (is_type ty CLOSE); [exists []; reflexivity|].
    destruct (is_type ty PING); [|exists []; reflexivity].
    cbn [fst]. unfold sendPong. rewrite sendRaw_native by exact Ho.
    eexists. cbn [native set_buffer call]. rewrite <- app_assoc. reflexivity.
  - repeat split_if; exists []; reflexivity.
Qed.

Lemma recv_reads ws timeout startTime first later :
  _closed ws = false -> messageQueue ws = [] ->
  timed_out startTime (timeoutMs fl timeout) (now first) = false ->
  exists more,
    native (fst (recv K fl ws timeout startTime first later)) =
      native ws ++ curl_ws_recv :: more.
Proof.
  intros Ho Hq Ht. rewrite recv_polls by assumption. cbn [poll_again].
  destruct (@tryReceive_reads ws (recvAnswer first) (pongAnswer first) Ho)
    as [more Hm].
  pose proof (@poll_cases ws startTime (timeoutMs fl timeout) first Ho Ht)
    as [_ [_ Hc]].
  assert (Hn : native (fst (poll K ws startTime (timeoutMs fl timeout) first)) =
               native ws ++ curl_ws_recv :: more).
  { unfold poll. rewrite Ht, Ho.
    destruct (tryReceive K ws (recvAnswer first) (pongAnswer first))
      as [ws' [[m|]|e]]; exact Hm. }
  destruct (poll K ws startTime (timeoutMs fl timeout) first) as [ws1 [r|]].
  - exists more. exact Hn.
  - cbn [fst snd] in *. destruct Hc as [Ho1 _].
    destruct (proj1 (@poll_again_cases startTime (timeoutMs fl timeout) later
                       ws1 Ho1)) as [ext [He _]].
    exists (more ++ ext). rewrite He, Hn, <- app_assoc. reflexivity.
Qed.

(** C10 (amended). The timeout of [recv] counts seconds of the clock
    [Date.now()] reads: for a finite timeout of [q] seconds on an open
    session, a run of [poll] that finds [1000 * q] milliseconds or more
    elapsed rejects with "Receive timeout" and makes no native call, and a
    run that finds a millisecond or more left does not time out but calls
    [curl_ws_recv]; while frames are not there the call stays pending, one
    [curl_ws_recv] per run, until the first run at or after the limit.
    With timeout 0 the first run already rejects, whatever frame the
    engine holds, when the clock has not stepped back since [recv] read
    it.  Without a timeout [recv] never times out, and a timeout given as
    [Infinity] or [NaN] is as none. *)
Theorem recv_timeout_in_seconds (size : nat) (l : list Action) (q : Q)
    (startTime : Z) (first : Tick) (later : list Tick) (t : Tick)
    (rest : list Tick) :
  let ws := run K fl (connect size) l in
  let elapsed (x : Tick) := (now x - startTime)%Z in
  let rejected := Some (Throw (WebSocketError ReceiveTimeout None)) in
  keeps_whole_numbers fl ->
  _closed ws = false -> CURLE_AGAIN K <> CURLE_OK K ->
  Forall (fun x => (Z.abs (elapsed x) < 2 ^ 53)%Z) (first :: later ++ [t]) ->
  ((q * 1000 <= inject_Z (elapsed first))%Q ->
     recv K fl ws (Some (Finite q)) startTime first later =
       (set_pollTimer false ws, rejected)) /\
  ((inject_Z (elapsed first) + 1 <= q * 1000)%Q ->
     exists more,
       native (fst (recv K fl ws (Some (Finite q)) startTime first later)) =
         native ws ++ curl_ws_recv :: more) /\
  (Forall (fun x => (inject_Z (elapsed x) + 1 <= q * 1000)%Q /\
                    recvCode (recvAnswer x) = CURLE_AGAIN K) (first :: later) ->
   (q * 1000 <= inject_Z (elapsed t))%Q ->
   let pending := recv K fl ws (Some (Finite q)) startTime first later in
   let res :=
     recv K fl ws (Some (Finite q)) startTime first (later ++ t :: rest) in
   snd pending = None /\
   native (fst pending) =
     native ws ++ repeat curl_ws_recv (S (List.length later)) /\
   snd res = rejected /\ native (fst res) = native (fst pending)) /\
  ((startTime <= now first)%Z ->
     recv K fl ws (Some (Finite 0)) startTime first later =
       (set_pollTimer false ws, rejected)) /\
  recv K fl ws (Some PlusInfinity) startTime first later =
    recv K fl ws None startTime first later /\
  recv K fl ws (Some NaN) startTime first later =
    recv K fl ws None startTime first later /\
  (Forall (fun x => recvCode (recvAnswer x) = CURLE_AGAIN K) (first :: later) ->
   snd (recv K fl ws None startTime first later) = None /\
   native (fst (recv K fl ws None startTime first later)) =
     native ws ++ repeat curl_ws_recv (S (List.length later))).
Proof.
  intros ws elapsed rejected Hfl Ho Hk Hb.
  assert (Hempty : messageQueue ws = []) by apply queue_empty.
  assert (Hb1 : (Z.abs (now first - startTime) < 2 ^ 53)%Z).
  { apply Forall_cons_iff in Hb as [H _]. exact H. }
  assert (Hbl : Forall (fun x => (Z.abs (now x - startTime) < 2 ^ 53)%Z) later).
  { apply Forall_cons_iff in Hb as [_ H]. apply Forall_app in H as [H _]. exact H. }
  assert (Hbt : (Z.abs (now t - startTime) < 2 ^ 53)%Z).
  { apply Forall_cons_iff in Hb as [_ H]. apply Forall_app in H as [_ H].
    apply Forall_cons_iff in H as [H _]. exact H. }
  assert (Hquiet : forall limit ticks,
            Forall (no_frame K startTime limit) ticks ->
            poll_again K ws startTime limit ticks = (idle ws ticks, None)).
  { intros limit ticks Hq.
    pose proof (@poll_again_quiet startTime limit ticks ws [] Ho Hk Hq) as E.
    rewrite app_nil_r in E. exact E. }
  split; [|split; [|split; [|split; [|split; [|split]]]]].
  - intro Hq. rewrite recv_polls by assumption. cbn [poll_again].
    now rewrite (@poll_timed_out ws _ _ _ (@limit_reached q startTime (now first) Hfl Hb1 Hq)).
  - intro Hq. apply recv_reads; try assumption.
    now apply limit_ahead.
  - intros Hq Ht pending res.
    assert (Hn : Forall (no_frame K startTime (timeoutMs fl (Some (Finite q))))
                   (first :: later)).
    { apply Forall_forall. intros x Hx.
      pose proof (proj1 (Forall_forall _ _) Hq x Hx) as [Hx1 Hx2].
      split; [|exact Hx2]. apply limit_ahead; try assumption.
      destruct Hx as [<-|Hx]; [exact Hb1|].
      exact (proj1 (Forall_forall _ _) Hbl x Hx). }
    assert (Hp : pending = (idle ws (first :: later), None)).
    { unfold pending. rewrite recv_polls by assumption. now apply Hquiet. }
    assert (Hr : res = (set_pollTimer false (idle ws (first :: later)), rejected)).
    { unfold res. rewrite recv_polls by assumption.
      change (first :: later ++ t :: rest) with ((first :: later) ++ t :: rest).
      rewrite poll_again_quiet by assumption. cbn [poll_again].
      now rewrite (@poll_timed_out _ _ _ _ (@limit_reached q startTime (now t) Hfl Hbt Ht)). }
    destruct (idle_fields (first :: later) ws) as [I1 _].
    rewrite Hp, Hr. cbn [fst snd native set_pollTimer].
    repeat split; exact I1.
  - intro Hc. rewrite recv_polls by assumption. cbn [poll_again].
    rewrite (@poll_timed_out ws startTime (timeoutMs fl (Some (Finite 0))) first); [reflexivity|].
    apply limit_reached; try assumption.
    unfold Qle. simpl. lia.
  - reflexivity.
  - rewrite !recv_polls by assumption.
    apply poll_again_unlimited. reflexivity.
  - intro Hq. rewrite recv_polls by assumption.
    assert (Hn : Forall (no_frame K startTime (timeoutMs fl None)) (first :: later)).
    { apply Forall_forall. intros x Hx. split; [reflexivity|].
      exact (proj1 (Forall_forall _ _) Hq x Hx). }
    rewrite (Hquiet _ _ Hn). cbn [fst snd].
    split; [reflexivity|]. exact (proj1 (idle_fields (first :: later) ws)).
Qed.

(** *** The async iterator *)

Lemma recv_queue ws timeout startTime first later :
  messageQueue ws = [] ->
  messageQueue (fst (recv K fl ws timeout startTime first later)) = [].
Proof.
  intro Hq. unfold recv. destruct (_closed ws); [exact Hq|]. rewrite Hq.
  now rewrite poll_again_queue.
Qed.

Lemma iterate_cases rounds : forall ws,
  messageQueue ws = [] ->
  let res := iterate K fl ws rounds in
  Forall (fun m => type m <> CLOSE) (fst (snd res)) /\
  List.length (fst (snd res)) <= List.length rounds /\
  match snd (snd res) with
  | Finished => _closed (fst res) = true
  | Failed e =>
      _closed (fst res) = false /\
      exists c, e = WebSocketError (ReceiveError c) None /\
                c <> CURLE_OK K /\ c <> CURLE_AGAIN K
  | Waiting => _closed (fst res) = false
  end.
Proof.
  induction rounds as [|r rest IH]; intros ws Hq; simpl.
  - destruct (_closed ws) eqn:Ho; simpl; auto.
  - destruct (_closed ws) eqn:Ho; simpl; [split; [constructor|split; [lia|auto]]|].
    pose proof (@recv_queue ws None (startTime r) (first r) (later r) Hq) as Hq'.
    unfold recv in *. rewrite Ho, Hq in *.
    pose proof (@poll_again_cases (startTime r) (timeoutMs fl None)
                  (first r :: later r) ws Ho) as [_ [_ He]].
    destruct (poll_again K ws (startTime r) (timeoutMs fl None) (first r :: later r))
      as [ws' [[m|e]|]]; simpl in *.
    + destruct (IH ws' Hq') as [I1 [I2 I3]].
      destruct (iterate K fl ws' rest) as [ws'' [ys en]]; simpl in *.
      split; [constructor; [exact (proj1 He)|exact I1]|]. split; [lia|exact I3].
    + destruct He as [[Hc [c [why ->]]]|[Hc [[c [-> Hcc]]|[_ Hn]]]]; simpl.
      * split; [constructor|]. split; [lia|exact Hc].
      * split; [constructor|]. split; [lia|]. split; [exact Hc|eauto].
      * now elim Hn.
    + split; [constructor|]. split; [lia|exact He].
Qed.

(** X12. Consuming a session with [for await]: the iterator yields only
    messages that are not of type [CLOSE], at most one per [recv]; when it
    finishes, the session is closed (a close frame of the peer ends the
    iteration without an error); and the only error it lets through is the
    "Receive error" of a [curl_ws_recv] status other than [CURLE_OK] and
    [CURLE_AGAIN], never [WebSocketClosed] and never a timeout. *)
Theorem iteration_ends_cleanly (size : nat) (l : list Action)
    (rounds : list Round) :
  let res := iterate K fl (run K fl (connect size) l) rounds in
  Forall (fun m => type m <> CLOSE) (fst (snd res)) /\
  List.length (fst (snd res)) <= List.length rounds /\
  match snd (snd res) with
  | Finished => _closed (fst res) = true
  | Failed e =>
      _closed (fst res) = false /\
      exists c, e = WebSocketError (ReceiveError c) None /\
                c <> CURLE_OK K /\ c <> CURLE_AGAIN K
  | Waiting => _closed (fst res) = false
  end.
Proof. apply iterate_cases. apply queue_empty. Qed.

End Runs.

(** *** The rounding of double arithmetic *)

Section Rounding.
Local Open Scope Z_scope.

Lemma nearest_even_cases n d :
  let q := n / Zpos d in
  (nearest_even n d = q) \/
  (nearest_even n d = q + 1 /\ 0 < n mod Zpos d).
Proof.
  intro q. unfold nearest_even. fold q.
  pose proof (Z.mod_pos_bound n (Zpos d) ltac:(lia)) as Hr.
  destruct (2 * (n mod Zpos d) ?= Zpos d) eqn:E.
  - apply Z.compare_eq in E. destruct (Z.even q); [now left|right; split; [reflexivity|lia]].
  - now left.
  - apply Z.compare_gt_iff in E. right. split; [reflexivity|lia].
Qed.

Lemma nearest_even_le n d N : n <= N * Zpos d -> nearest_even n d <= N.
Proof.
  intro H.
  pose proof (Z.div_mod n (Zpos d) ltac:(lia)) as Hd.
  pose proof (Z.mod_pos_bound n (Zpos d) ltac:(lia)) as Hr.
  destruct (nearest_even_cases n d) as [->|[-> Hp]]; nia.
Qed.

Lemma nearest_even_ge n d N : N * Zpos d <= n -> N <= nearest_even n d.
Proof.
  intro H.
  pose proof (Z.div_mod n (Zpos d) ltac:(lia)) as Hd.
  pose proof (Z.mod_pos_bound n (Zpos d) ltac:(lia)) as Hr.
  destruct (nearest_even_cases n d) as [->|[-> Hp]]; nia.
Qed.

Lemma binade_below a d : at_least_pow2 a d (binade a d) = true.
Proof.
  unfold binade.
  set (k := Z.log2 (Zpos a) - Z.log2 (Zpos d)).
  destruct (at_least_pow2 a d k) eqn:E; [exact E|].
  pose proof (Z.log2_spec (Zpos a) ltac:(lia)) as [Ha _].
  pose proof (Z.log2_spec (Zpos d) ltac:(lia)) as [_ Hd].
  pose proof (Z.log2_nonneg (Zpos a)) as Hla.
  pose proof (Z.log2_nonneg (Zpos d)) as Hld.
  unfold at_least_pow2.
  destruct (Z.leb_spec 0 (k - 1)) as [Hk|Hk].
  - apply Z.leb_le.
    assert (Hp : 2 ^ Z.succ (Z.log2 (Zpos d)) * 2 ^ (k - 1) = 2 ^ Z.log2 (Zpos a)).
    { rewrite <- Z.pow_add_r by lia. f_equal. unfold k. lia. }
    assert (0 < 2 ^ (k - 1)) by (apply Z.pow_pos_nonneg; lia).
    nia.
  - apply Z.leb_le.
    assert (Hp : 2 ^ Z.log2 (Zpos a) * 2 ^ (- (k - 1)) = 2 ^ Z.succ (Z.log2 (Zpos d))).
    { rewrite <- Z.pow_add_r by lia. f_equal. unfold k. lia. }
    assert (0 < 2 ^ (- (k - 1))) by (apply Z.pow_pos_nonneg; lia).
    nia.
Qed.

(** The double nearest to [a / d] lies on the same side of every whole
    number from 1 to 2^53 as [a / d] does. *)
Lemma nearest_double_sides a d n :
  1 <= n <= 2 ^ 53 ->
  let m := fst (nearest_double a d) in
  let e := snd (nearest_double a d) in
  0 <= m /\
  (Zpos a <= n * Zpos d ->
     (0 <= e -> m * 2 ^ e <= n) /\ (e < 0 -> m <= n * 2 ^ (- e))) /\
  (n * Zpos d <= Zpos a ->
     (0 <= e -> n <= m * 2 ^ e) /\ (e < 0 -> n * 2 ^ (- e) <= m)).
Proof.
  intros Hn m e. unfold nearest_double in m, e. cbn [fst snd] in m, e.
  set (b := binade a d) in *.
  assert (He : e = Z.max (b - 52) (-1074)) by reflexivity.
  pose proof (binade_below a d) as Hb. fold b in Hb. unfold at_least_pow2 in Hb.
  destruct (Z.leb_spec 0 e) as [Hpos|Hneg].
  - (* the last place is a whole number *)
    assert (Hm : m = nearest_even (Zpos a) (d * Z.to_pos (2 ^ e))).
    { unfold m. fold b. rewrite <- He.
      destruct (Z.leb_spec 0 e); [reflexivity|lia]. }
    assert (H2 : 0 < 2 ^ e) by (apply Z.pow_pos_nonneg; lia).
    assert (Hd : Zpos (d * Z.to_pos (2 ^ e)) = Zpos d * 2 ^ e).
    { rewrite Pos2Z.inj_mul, Z2Pos.id by lia. reflexivity. }
    assert (Hm0 : 0 <= m).
    { rewrite Hm. apply nearest_even_ge. lia. }
    split; [exact Hm0|].
    destruct (Z.eq_dec e 0) as [E0|E0].
    + (* e = 0 *)
      rewrite E0 in *. change (2 ^ 0) with 1 in *. rewrite Z.mul_1_r in Hd.
      split; intro H; (split; [intros _|lia]).
      * rewrite Z.mul_1_r. rewrite Hm. apply nearest_even_le. rewrite Hd. exact H.
      * rewrite Z.mul_1_r. rewrite Hm. apply nearest_even_ge. rewrite Hd. exact H.
    + (* e > 0: the value is 2^53 or more *)
      assert (Hbe : b = e + 52) by lia.
      assert (Hb' : Zpos d * 2 ^ b <= Zpos a).
      { destruct (Z.leb_spec 0 b); [now apply Z.leb_le|lia]. }
      assert (Hpow : 2 ^ b = 2 ^ 52 * 2 ^ e).
      { rewrite Hbe, Z.pow_add_r by lia. lia. }
      assert (Hlow : 2 ^ 52 <= m).
      { rewrite Hm. apply nearest_even_ge. rewrite Hd. nia. }
      assert (H2e : 2 <= 2 ^ e).
      { change 2 with (2 ^ 1) at 1. apply Z.pow_le_mono_r; lia. }
      split; intro H; (split; [intros _|lia]).
      * (* a <= n d forces n = 2^53 and e = 1 *)
        assert (Hn53 : 2 ^ 52 * 2 ^ e <= n) by nia.
        assert (Hup : m <= 2 ^ 52).
        { rewrite Hm. apply nearest_even_le. rewrite Hd. nia. }
        nia.
      * nia.
  - (* the last place is a fraction *)
    assert (Hm : m = nearest_even (Zpos a * 2 ^ (- e)) d).
    { unfold m. fold b. rewrite <- He.
      destruct (Z.leb_spec 0 e); [lia|reflexivity]. }
    assert (H2 : 0 < 2 ^ (- e)) by (apply Z.pow_pos_nonneg; lia).
    assert (Hm0 : 0 <= m).
    { rewrite Hm. apply nearest_even_ge. nia. }
    split; [exact Hm0|].
    split; intro H; (split; [lia|intros _]).
    + rewrite Hm. apply nearest_even_le. nia.
    + rewrite Hm. apply nearest_even_ge. nia.
Qed.

Lemma scaled_le m e n :
  (0 <= e -> m * 2 ^ e <= n) -> (e < 0 -> m <= n * 2 ^ (- e)) ->
  Qle_bool (scaled m e) (inject_Z n) = true.
Proof.
  intros H1 H2. apply Qle_bool_iff. unfold scaled.
  destruct (Z.leb_spec 0 e) as [He|He].
  - rewrite <- Zle_Qle. auto.
  - unfold Qle. cbn [Qnum Qden inject_Z].
    assert (0 < 2 ^ (- e)) by (apply Z.pow_pos_nonneg; lia).
    rewrite Z2Pos.id by lia. specialize (H2 He). lia.
Qed.

Lemma scaled_ge m e n :
  (0 <= e -> n <= m * 2 ^ e) -> (e < 0 -> n * 2 ^ (- e) <= m) ->
  Qle_bool (inject_Z n) (scaled m e) = true.
Proof.
  intros H1 H2. apply Qle_bool_iff. unfold scaled.
  destruct (Z.leb_spec 0 e) as [He|He].
  - rewrite <- Zle_Qle. auto.
  - unfold Qle. cbn [Qnum Qden inject_Z].
    assert (0 < 2 ^ (- e)) by (apply Z.pow_pos_nonneg; lia).
    rewrite Z2Pos.id by lia. specialize (H2 He). lia.
Qed.

(** The double nearest to a positive [a / d], against a whole number. *)
Lemma nearest_double_whole a d n :
  Z.abs n <= 2 ^ 53 ->
  let m := fst (nearest_double a d) in
  let e := snd (nearest_double a d) in
  let over := (0 <=? e) && (2 ^ 1024 <=? m * 2 ^ e) in
  (Zpos a <= n * Zpos d ->
     over = false /\ Qle_bool (scaled m e) (inject_Z n) = true) /\
  (n * Zpos d <= Zpos a ->
     Qle_bool (inject_Z n) (scaled m e) = true) /\
  (- n * Zpos d <= Zpos a ->
     Qle_bool (scaled (- m) e) (inject_Z n) = true) /\
  (Zpos a <= - n * Zpos d ->
     over = false /\ Qle_bool (inject_Z n) (scaled (- m) e) = true).
Proof.
  intros Hn. cbv zeta.
  pose proof (fun k Hk => @nearest_double_sides a d k Hk) as Sides.
  cbv zeta in Sides.
  set (m := fst (nearest_double a d)) in *.
  set (e := snd (nearest_double a d)) in *.
  set (over := (0 <=? e) && (2 ^ 1024 <=? m * 2 ^ e)).
  assert (Hm0 : 0 <= m).
  { exact (proj1 (Sides 1 ltac:(lia))). }
  assert (Hup : forall k, 1 <= k <= 2 ^ 53 -> Zpos a <= k * Zpos d ->
            over = false /\ (0 <= e -> m * 2 ^ e <= k) /\
            (e < 0 -> m <= k * 2 ^ (- e))).
  { intros k Hk H.
    destruct (Sides k Hk) as [_ [Hs _]].
    destruct (Hs H) as [S1 S2]. split; [|split; assumption].
    unfold over. destruct (Z.leb_spec 0 e) as [He|He]; [|reflexivity].
    cbn [andb]. apply Z.leb_gt. specialize (S1 He).
    assert (2 ^ 53 < 2 ^ 1024) by (apply Z.pow_lt_mono_r; lia). lia. }
  assert (Hlow : forall k, 1 <= k <= 2 ^ 53 -> k * Zpos d <= Zpos a ->
            (0 <= e -> k <= m * 2 ^ e) /\ (e < 0 -> k * 2 ^ (- e) <= m)).
  { intros k Hk H.
    destruct (Sides k Hk) as [_ [_ Hs]]. exact (Hs H). }
  assert (Hpe : 0 <= e -> 0 <= m * 2 ^ e).
  { intro He. assert (0 < 2 ^ e) by (apply Z.pow_pos_nonneg; lia). nia. }
  assert (Hne : forall k, 0 < 2 ^ k \/ k < 0).
  { intro k. destruct (Z.leb_spec 0 k); [left; apply Z.pow_pos_nonneg; lia|now right]. }
  split; [|split; [|split]].
  - intro H. assert (1 <= n) by nia.
    destruct (Hup n ltac:(lia) H) as [O [S1 S2]].
    split; [exact O|now apply scaled_le].
  - intro H. destruct (Z.le_gt_cases 1 n) as [Hp|Hp].
    + destruct (Hlow n ltac:(lia) H) as [S1 S2]. now apply scaled_ge.
    + apply scaled_ge.
      * intro He. specialize (Hpe He). lia.
      * intro He. assert (0 < 2 ^ (- e)) by (apply Z.pow_pos_nonneg; lia). nia.
  - intro H. destruct (Z.le_gt_cases 1 (- n)) as [Hp|Hp].
    + destruct (Hlow (- n) ltac:(lia) H) as [S1 S2]. apply scaled_le.
      * intro He. specialize (S1 He). lia.
      * intro He. specialize (S2 He). lia.
    + apply scaled_le.
      * intro He. specialize (Hpe He). lia.
      * intro He. assert (0 < 2 ^ (- e)) by (apply Z.pow_pos_nonneg; lia). nia.
  - intro H. assert (1 <= - n) by nia.
    destruct (Hup (- n) ltac:(lia) H) as [O [S1 S2]].
    split; [exact O|]. apply scaled_ge.
    + intro He. specialize (S1 He). lia.
    + intro He. specialize (S2 He). lia.
Qed.

(** Rounding to the nearest double carries no value across a whole
    number up to 2^53. *)
Lemma binary64_keeps_whole_numbers : keeps_whole_numbers binary64.
Proof.
  intros [num den] n Hn. unfold binary64. cbn [Qnum Qden].
  destruct num as [|a|a].
  - split; intro H; unfold Qle in H; cbn [Qnum Qden inject_Z] in H;
      cbn [ge]; apply Qle_bool_iff; unfold Qle; cbn [Qnum Qden inject_Z]; lia.
  - destruct (@nearest_double_whole a den n Hn) as [H1 [H2 _]].
    destruct (nearest_double a den) as [m e]. cbn [fst snd] in H1, H2.
    split; intro H; unfold Qle in H; cbn [Qnum Qden inject_Z] in H.
    + destruct (H1 ltac:(lia)) as [-> Hq]. exact Hq.
    + destruct ((0 <=? e) && (2 ^ 1024 <=? m * 2 ^ e)); [reflexivity|].
      apply H2. lia.
  - destruct (@nearest_double_whole a den n Hn) as [_ [_ [H3 H4]]].
    destruct (nearest_double a den) as [m e]. cbn [fst snd] in H3, H4.
    split; intro H; unfold Qle in H; cbn [Qnum Qden inject_Z] in H.
    + destruct ((0 <=? e) && (2 ^ 1024 <=? m * 2 ^ e)); [reflexivity|].
      apply H3. lia.
    + destruct (H4 ltac:(lia)) as [-> Hq]. exact Hq.
Qed.

End Rounding.

(** *** Sample histories *)

Import Samples MoreSamples WireSamples.

Lemma close_releases_session_witness :
  let res := close libcurl session 1000 "" send_error in
  snd res = Return tt /\
  native (fst res) = [curl_ws_send [x03; xe8] 8; curl_easy_cleanup] /\
  _closeEvent (fst res) = Some {| code := 1000; reason := ""; wasClean := true |} /\
  close libcurl session 65536 "" (sent_all 2) = (session, Throw RangeError).
Proof.
  generalize (close_releases_session libcurl session 1000 "" send_error eq_refl).
  generalize (close_releases_session libcurl session 65536 "" (sent_all 2) eq_refl).
  vm_compute. intros [_ H2] [H1 _].
  destruct H1 as [R1 [R2 [_ [_ [_ [R3 _]]]]]];
    [split; intro E; discriminate E|].
  repeat split; try assumption; apply H2; right; reflexivity.
Defined.

Lemma closed_session_is_inert_witness :
  let ws := steps libcurl binary64 closed_by_peer
              [Call (Close 1000 "" (sent_all 2));
               Call (SendStr "hi" (sent_all 2));
               Timer 0 PlusInfinity (tick 5 text_hi (sent_all 0));
               Call (Recv None 0 (tick 9 text_hi (sent_all 0)) [])] in
  native ws = [curl_ws_recv] /\
  _closeEvent ws = Some {| code := 1001; reason := "bye"; wasClean := true |}.
Proof.
  generalize (closed_session_is_inert libcurl binary64 closed_by_peer
    [Call (Close 1000 "" (sent_all 2));
     Call (SendStr "hi" (sent_all 2));
     Timer 0 PlusInfinity (tick 5 text_hi (sent_all 0));
     Call (Recv None 0 (tick 9 text_hi (sent_all 0)) [])] eq_refl).
  vm_compute. intros [H1 [_ [H3 _]]]. split; assumption.
Defined.

Lemma recv_delivers_a_frame_witness :
  snd (recv libcurl binary64 session None 0 (tick 0 nothing (sent_all 0))
         [tick 10 binary_abc (sent_all 0)])
  = Some (Return {| type := BINARY; data := ["a"%byte; "b"%byte; "c"%byte] |}).
Proof.
  generalize (@recv_delivers_a_frame libcurl binary64 8 [] None 0 (tick 0 nothing (sent_all 0))
    [tick 10 binary_abc (sent_all 0)]
    {| type := BINARY; data := ["a"%byte; "b"%byte; "c"%byte] |} eq_refl).
  vm_compute. intros _. reflexivity.
Defined.

Lemma handle_not_used_after_release_witness :
  let ws := steps libcurl binary64 session
              [Call (SendStr "hi" (sent_all 2)); Call (Close 1000 "" (sent_all 2));
               Call (Send ["a"%byte] (sent_all 1));
               Call (Recv None 0 (tick 0 text_hi (sent_all 0)) [])] in
  native ws = [curl_ws_send ["h"%byte; "i"%byte] 1; curl_ws_send [x03; xe8] 8]
              ++ [curl_easy_cleanup] /\
  _closed ws = true.
Proof.
  generalize (@handle_not_used_after_release libcurl binary64 8
    [Call (SendStr "hi" (sent_all 2)); Call (Close 1000 "" (sent_all 2));
     Call (Send ["a"%byte] (sent_all 1));
     Call (Recv None 0 (tick 0 text_hi (sent_all 0)) [])]
    [curl_ws_send ["h"%byte; "i"%byte] 1; curl_ws_send [x03; xe8] 8] [] eq_refl).
  vm_compute. intros [_ [_ H]]. split; [reflexivity|exact H].
Defined.

Lemma recv_polls_until_timeout_witness :
  snd (recv libcurl binary64 session (Some (binary64 (1 # 10))) 0 (silence 0) [silence 50]) = None /\
  native (fst (recv libcurl binary64 session (Some (binary64 (1 # 10))) 0 (silence 0)
                 ([silence 50] ++ [silence 100])))
    = [curl_ws_recv; curl_ws_recv] /\
  snd (recv libcurl binary64 session (Some (binary64 (1 # 10))) 0 (silence 0)
         ([silence 50] ++ [silence 100]))
    = Some (Throw (WebSocketError ReceiveTimeout None)).
Proof.
  assert (Hq : Forall (no_frame libcurl 0 (timeoutMs binary64 (Some (binary64 (1 # 10)))))
                 [silence 0; silence 50]).
  { repeat constructor. }
  assert (Hk : CURLE_AGAIN libcurl <> CURLE_OK libcurl) by discriminate.
  generalize (@recv_polls_until_timeout libcurl binary64 8 [] (Some (binary64 (1 # 10))) 0
    (silence 0) [silence 50] (silence 100) [] eq_refl Hk Hq).
  vm_compute. intros [H1 [_ [_ [_ H5]]]].
  destruct (H5 eq_refl) as [R1 [R2 _]]. repeat split; assumption.
Defined.

(** C10, the claim as stated fails: an omitted timeout is not the only one
    that waits without limit.  With the timeout given as [Infinity], and
    as [NaN], a run of [poll] 10^15 milliseconds after the call still
    reads and leaves the call pending, as without a timeout, where a
    timeout of 10^12 seconds is reached. *)
Lemma infinite_timeout_never_expires :
  let late := silence 1000000000000000 in
  let given t := recv libcurl binary64 session (Some t) 0 (silence 0) [late] in
  given PlusInfinity = recv libcurl binary64 session None 0 (silence 0) [late] /\
  snd (given PlusInfinity) = None /\
  native (fst (given PlusInfinity)) = [curl_ws_recv; curl_ws_recv] /\
  snd (given NaN) = None /\
  native (fst (given NaN)) = [curl_ws_recv; curl_ws_recv] /\
  snd (given (Finite 1000000000000)) =
    Some (Throw (WebSocketError ReceiveTimeout None)).
Proof. vm_compute. repeat split. Qed.

Lemma recv_timeout_in_seconds_witness :
  let ws := run libcurl binary64 session [SendStr "hi" (sent_all 2)] in
  let half := Some (Finite (1 # 2)) in
  recv libcurl binary64 ws (Some (Finite 0)) 100
    (Ffi.wire 100 text_frame_hi (sent_all 0)) []
    = (set_pollTimer false ws,
       Some (Throw (WebSocketError ReceiveTimeout None))) /\
  snd (recv libcurl binary64 ws half 0 (silence 0) [silence 499]) = None /\
  native (fst (recv libcurl binary64 ws half 0 (silence 0) [silence 499]))
    = [curl_ws_send ["h"%byte; "i"%byte] 1; curl_ws_recv; curl_ws_recv] /\
  snd (recv libcurl binary64 ws half 0 (silence 0) ([silence 499] ++ [silence 500]))
    = Some (Throw (WebSocketError ReceiveTimeout None)).
Proof.
  assert (Hk : CURLE_AGAIN libcurl <> CURLE_OK libcurl) by discriminate.
  assert (Hb0 : Forall (fun x => (Z.abs (now x - 100) < 2 ^ 53)%Z)
                  (Ffi.wire 100 text_frame_hi (sent_all 0) :: [] ++ [silence 100]))
    by (repeat constructor).
  assert (Hb : Forall (fun x => (Z.abs (now x - 0) < 2 ^ 53)%Z)
                 (silence 0 :: [silence 499] ++ [silence 500]))
    by (repeat constructor).
  assert (Hq : Forall (fun x => (inject_Z (now x - 0) + 1 <= (1 # 2) * 1000)%Q /\
                                recvCode (recvAnswer x) = CURLE_AGAIN libcurl)
                 [silence 0; silence 499]).
  { repeat constructor; intro E; discriminate E. }
  assert (Ht : ((1 # 2) * 1000 <= inject_Z (now (silence 500) - 0))%Q)
    by (intro E; discriminate E).
  vm_compute in Hq. vm_compute in Ht.
  generalize (@recv_timeout_in_seconds libcurl binary64 8 [SendStr "hi" (sent_all 2)]
                0 100 (Ffi.wire 100 text_frame_hi (sent_all 0)) [] (silence 100) []
                binary64_keeps_whole_numbers eq_refl Hk Hb0).
  generalize (@recv_timeout_in_seconds libcurl binary64 8 [SendStr "hi" (sent_all 2)]
                (1 # 2) 0 (silence 0) [silence 499] (silence 500) []
                binary64_keeps_whole_numbers eq_refl Hk Hb).
  vm_compute. intros [_ [_ [H3 _]]] [_ [_ [_ [H4 _]]]].
  destruct (H3 Hq Ht) as [R1 [R2 [R3 _]]].
  assert (Hc : Eq = Gt -> False) by (intro E; discriminate E).
  pose proof (H4 Hc) as R0.
  repeat split; assumption.
Defined.

(** The limit is the double nearest to the product: [2.007 * 1000] is
    not 2007 but the double above it, 2007.0000000000002, so the run
    2007 ms after the call still reads and the run at 2008 ms rejects.
    A product from 2^1024 on is [Infinity]. *)
Example timeout_of_2007_ms :
  let timeout := Some (binary64 (2007 # 1000)) in
  timeoutMs binary64 timeout = Finite (8826879347785729 # 4398046511104) /\
  snd (recv libcurl binary64 session timeout 0 (silence 0) [silence 2007]) = None /\
  snd (recv libcurl binary64 session timeout 0 (silence 0)
         [silence 2007; silence 2008])
    = Some (Throw (WebSocketError ReceiveTimeout None)) /\
  timeoutMs binary64 (Some (Finite (inject_Z (2 ^ 1023)))) = PlusInfinity.
Proof. vm_compute. repeat split. Qed.

(** A failing [curl_ws_recv] ends the iteration with its error. *)
Example iteration_fails_on_receive_error :
  let round r := {| startTime := 0; first := tick 0 r (sent_all 0); later := [] |} in
  snd (iterate libcurl binary64 session [round text_hi; round recv_error; round text_hi]) =
    ([ {| type := TEXT; data := ["h"%byte; "i"%byte] |} ],
     Failed (WebSocketError (ReceiveError 56) None)).
Proof. vm_compute. reflexivity. Qed.

End WSRunsFacts.

(* ------------------------------------------------------------------ *)
(** ** The header container *)

Module HttpFacts.
Import Http.

Section HeadersClass.
Variable toLowerCase : string -> string.
Variable trim : string -> string.

Local Abbreviation get := (get toLowerCase).
Local Abbreviation getAll := (getAll toLowerCase).
Local Abbreviation set := (set toLowerCase).
Local Abbreviation append := (append toLowerCase).
Local Abbreviation has := (has toLowerCase).
Local Abbreviation delete := (delete toLowerCase).
Local Abbreviation same := (same toLowerCase).
Local Abbreviation append_entry := (append_entry toLowerCase).
Local Abbreviation extend := (extend toLowerCase trim).
Local Abbreviation update := (update toLowerCase trim).
Local Abbreviation updates := (updates toLowerCase trim).
Local Abbreviation WF := (WF toLowerCase).
Local Abbreviation values_of := (values_of toLowerCase).
Local Abbreviation names := (names toLowerCase).
Local Abbreviation clone := (clone toLowerCase).
Local Abbreviation keyed := (keyed toLowerCase).
Local Abbreviation pairs_of := (pairs_of trim).
Local Abbreviation create := (create toLowerCase trim).
Local Abbreviation fromRaw := (fromRaw toLowerCase trim).
Local Abbreviation plain := (plain trim).
Local Abbreviation append_line := (append_line toLowerCase trim).
Local Abbreviation scan := (scan trim).
Local Abbreviation parseHeaderValue := (parseHeaderValue trim).

Lemma same_true a b : same a b = true <-> toLowerCase a = toLowerCase b.
Proof. apply String.eqb_eq. Qed.

Lemma same_false a b : same a b = false <-> toLowerCase a <> toLowerCase b.
Proof. apply String.eqb_neq. Qed.

Lemma lookup_set (h : Headers) k group k' :
  JsMap.get String.eqb (JsMap.set String.eqb h k group) k' =
  if String.eqb k k' then Some group else JsMap.get String.eqb h k'.
Proof.
  destruct (String.eqb k k') eqn:E.
  - apply String.eqb_eq in E. subst k'.
    apply (JsMapFacts.get_set_same String.eqb String.eqb_eq).
  - apply String.eqb_neq in E.
    now apply (JsMapFacts.get_set_other String.eqb String.eqb_eq).
Qed.

Lemma lookup_delete (h : Headers) k k' :
  JsMap.get String.eqb (JsMap.delete String.eqb h k) k' =
  if String.eqb k k' then None else JsMap.get String.eqb h k'.
Proof.
  destruct (String.eqb k k') eqn:E.
  - apply String.eqb_eq in E. subst k'. apply JsMapFacts.get_delete_same.
  - apply String.eqb_neq in E.
    now apply (JsMapFacts.get_delete_other String.eqb String.eqb_eq).
Qed.

(** X13. [set] and [delete] act on a header whatever the case of its
    name: after [set(name, value)] every spelling of the name has the one
    value [value], all earlier values being replaced, and other headers
    are untouched; after [delete(name)] no spelling of the name has a value
    and other headers are untouched; [delete] returns whether the header
    was present. *)
Theorem set_and_delete_ignore_case (h : Headers) (name value other : string) :
  getAll (set h name value) other =
    (if same name other then [value] else getAll h other) /\
  get (set h name value) other =
    (if same name other then Some value else get h other) /\
  has (set h name value) other = (same name other || has h other) /\
  getAll (fst (delete h name)) other =
    (if same name other then [] else getAll h other) /\
  get (fst (delete h name)) other =
    (if same name other then None else get h other) /\
  has (fst (delete h name)) other = (negb (same name other) && has h other) /\
  snd (delete h name) = has h name.
Proof.
  unfold Http.getAll, Http.get, Http.has, Http.set, Http.delete, Http.same.
  cbn [fst snd]. rewrite !lookup_set, !lookup_delete.
  destruct (String.eqb (toLowerCase name) (toLowerCase other)); simpl; auto 10.
Qed.

Lemma append_lookups (h : Headers) name value other :
  getAll (append h name value) other =
    (if same name other then getAll h other ++ [value] else getAll h other) /\
  get (append h name value) other =
    (if same name other
     then match get h other with Some v => Some v | None => Some value end
     else get h other) /\
  has (append h name value) other = (same name other || has h other).
Proof.
  unfold Http.getAll, Http.get, Http.has, Http.append, Http.same.
  rewrite !lookup_set.
  destruct (String.eqb (toLowerCase name) (toLowerCase other)) eqn:E; simpl; auto.
  apply String.eqb_eq in E. rewrite E.
  destruct (JsMap.get String.eqb h (toLowerCase other)) as [[|[n v] g]|]; simpl;
    rewrite ?map_app; auto.
Qed.

(** X14. [append] keeps what is there: after [append(name, value)] the
    values of every spelling of the name are the earlier ones, in their
    order, followed by [value]; [get] still returns the first of them (or
    [value] when there was none); other headers are untouched. *)
Theorem append_accumulates (h : Headers) (name value other : string) :
  getAll (append h name value) other =
    (if same name other then getAll h other ++ [value] else getAll h other) /\
  get (append h name value) other =
    (if same name other
     then match get h other with Some v => Some v | None => Some value end
     else get h other) /\
  has (append h name value) other = (same name other || has h other).
Proof. apply append_lookups. Qed.

(** *** The multimap a container is *)

Lemma getAll_append (h : Headers) name value other :
  getAll (append h name value) other =
  if same name other then getAll h other ++ [value] else getAll h other.
Proof. exact (proj1 (append_lookups h name value other)). Qed.

Lemma getAll_fold l : forall (h : Headers) name,
  getAll (fold_left append_entry l h) name = getAll h name ++ values_of name l.
Proof.
  induction l as [|[n v] l IH]; intros h name; simpl.
  - now rewrite app_nil_r.
  - rewrite IH. unfold Http.append_entry at 1. cbn [fst snd].
    rewrite getAll_append. unfold Http.values_of. cbn [filter fst snd].
    destruct (same n name); simpl; now rewrite <- ?app_assoc.
Qed.

(** *** Well-formed containers *)

Lemma WF_empty : WF empty.
Proof. constructor; [constructor|intros k g []]. Qed.

Lemma WF_set_group (h : Headers) k group :
  WF h -> group <> [] -> (forall e, In e group -> toLowerCase (fst e) = k) ->
  WF (JsMap.set String.eqb h k group).
Proof.
  intros [H1 H2] Hg Hk. constructor.
  - now apply (JsMapKeys.keys_set_NoDup String.eqb String.eqb_eq).
  - intros k' g' Hin.
    apply (JsMapFacts.In_set String.eqb String.eqb_eq) in Hin as [E|Hin].
    + injection E as -> ->. auto.
    + now apply H2.
Qed.

Lemma WF_set (h : Headers) name value : WF h -> WF (set h name value).
Proof.
  intro H. apply WF_set_group; [exact H|discriminate|].
  intros e [<-|[]]. reflexivity.
Qed.

Lemma WF_append (h : Headers) name value : WF h -> WF (append h name value).
Proof.
  intro H. apply WF_set_group; [exact H| |].
  - intro E. apply app_eq_nil in E as [_ E]. discriminate E.
  - intros e Hin. apply in_app_or in Hin as [Hin|[<-|[]]]; [|reflexivity].
    destruct (JsMap.get String.eqb h (toLowerCase name)) as [g|] eqn:Hg;
      [|destruct Hin].
    apply (JsMapFacts.get_In String.eqb String.eqb_eq) in Hg.
    exact (proj2 (wf_group H _ _ Hg) e Hin).
Qed.

Lemma WF_delete (h : Headers) name : WF h -> WF (fst (delete h name)).
Proof.
  intros [H1 H2]. constructor; simpl.
  - now apply JsMapKeys.keys_delete_NoDup.
  - intros k g Hin. apply JsMapFacts.In_delete in Hin. now apply H2.
Qed.

Lemma WF_fold (A : Type) (f : Headers -> A -> Headers) l :
  (forall h a, WF h -> WF (f h a)) ->
  forall h, WF h -> WF (fold_left f l h).
Proof.
  intro Hf. induction l as [|a l IH]; intros h H; simpl; [exact H|].
  apply IH. now apply Hf.
Qed.

Lemma WF_append_line (h : Headers) line :
  WF h -> WF (Http.append_line toLowerCase trim h line).
Proof.
  intro H. unfold Http.append_line.
  destruct (index 0 ":" line) as [i|]; [|exact H].
  destruct (0 <? i); [now apply WF_append|exact H].
Qed.

Lemma WF_extend (h : Headers) init : WF h -> WF (extend h init).
Proof.
  intro H. destruct init as [other|items|fields]; simpl.
  - apply WF_fold; [|exact H]. intros h' [n v] H'. now apply WF_append.
  - apply WF_fold; [|exact H]. intros h' [line|n v] H'; simpl.
    + now apply WF_append_line.
    + now apply WF_append.
  - apply WF_fold; [|exact H]. intros h' [n [v|vs]] H'; unfold Http.append_field; simpl.
    + now apply WF_append.
    + apply WF_fold; [|exact H']. intros h'' v H''. now apply WF_append.
Qed.

Lemma WF_updates l : forall h, WF h -> WF (updates h l).
Proof.
  apply WF_fold. intros h [n v|n v|n|init] H; simpl.
  - now apply WF_set.
  - now apply WF_append.
  - now apply WF_delete.
  - now apply WF_extend.
Qed.

(** *** A container is its keys and its groups *)

Lemma group_append (h : Headers) name value key :
  group (append h name value) key =
  if String.eqb (toLowerCase name) key then group h key ++ [(name, value)]
  else group h key.
Proof.
  unfold group, Http.append. rewrite lookup_set.
  destruct (String.eqb (toLowerCase name) key) eqn:E; [|reflexivity].
  apply String.eqb_eq in E. now rewrite E.
Qed.

Lemma group_fold l : forall (h : Headers) key,
  group (fold_left append_entry l h) key = group h key ++ keyed key l.
Proof.
  induction l as [|[n v] l IH]; intros h key; simpl.
  - now rewrite app_nil_r.
  - rewrite IH. unfold Http.append_entry at 1. cbn [fst snd].
    rewrite group_append. unfold Http.keyed. cbn [filter fst snd].
    destruct (String.eqb (toLowerCase n) key); simpl; now rewrite <- ?app_assoc.
Qed.

Lemma keys_set (h : Headers) key g :
  JsMap.keys (JsMap.set String.eqb h key g) =
  if existsb (String.eqb key) (JsMap.keys h) then JsMap.keys h
  else JsMap.keys h ++ [key].
Proof.
  induction h as [|[k' g'] r IH]; simpl; [reflexivity|].
  rewrite (String.eqb_sym key k').
  destruct (String.eqb k' key) eqn:E; simpl; [reflexivity|].
  rewrite IH. now destruct (existsb (String.eqb key) (JsMap.keys r)).
Qed.

Lemma names_seen l : forall seen seen',
  (forall k, existsb (String.eqb k) seen = existsb (String.eqb k) seen') ->
  names seen l = names seen' l.
Proof.
  induction l as [|[n v] l IH]; intros seen seen' H; simpl; [reflexivity|].
  rewrite <- H. destruct (existsb (String.eqb (toLowerCase n)) seen).
  - now apply IH.
  - f_equal. apply IH. intro k. simpl. now rewrite H.
Qed.

Lemma keys_fold l : forall h : Headers,
  JsMap.keys (fold_left append_entry l h) =
  JsMap.keys h ++ names (JsMap.keys h) l.
Proof.
  induction l as [|[n v] l IH]; intro h; simpl.
  - now rewrite app_nil_r.
  - rewrite IH. unfold Http.append_entry at 1 2. cbn [fst snd].
    unfold Http.append. rewrite keys_set.
    destruct (existsb (String.eqb (toLowerCase n)) (JsMap.keys h)) eqn:E.
    + reflexivity.
    + rewrite <- app_assoc. simpl. f_equal. f_equal.
      apply names_seen. intro k. rewrite existsb_app. simpl.
      now rewrite orb_false_r, orb_comm.
Qed.

Lemma rebuild (h : Headers) :
  NoDup (JsMap.keys h) -> h = map (fun k => (k, group h k)) (JsMap.keys h).
Proof.
  induction h as [|[k g] r IH]; simpl; intro H; [reflexivity|].
  apply NoDup_cons_iff in H as [Hk Hr].
  unfold group at 1. simpl. rewrite String.eqb_refl. f_equal.
  rewrite (IH Hr) at 1. apply map_ext_in. intros k' Hin.
  unfold group. simpl.
  destruct (String.eqb k k') eqn:E; [|reflexivity].
  apply String.eqb_eq in E. subst k'. contradiction.
Qed.

Lemma entries_groups (h : Headers) :
  NoDup (JsMap.keys h) -> entries h = flat_map (group h) (JsMap.keys h).
Proof.
  intro H. rewrite (@rebuild h H) at 1. unfold entries, JsMap.values.
  rewrite map_map. simpl. now rewrite flat_map_concat_map.
Qed.

Lemma extend_pairs (h : Headers) init :
  extend h init = fold_left append_entry (pairs_of init) h.
Proof.
  destruct init as [other|items|fields]; simpl; [reflexivity| |].
  - revert h. induction items as [|[line|n v] items IH]; intro h; simpl;
      [reflexivity| |now rewrite IH].
    rewrite fold_left_app, IH. f_equal.
    unfold Http.append_line, Http.pairs_of_line.
    destruct (index 0 ":" line) as [i|]; [|reflexivity].
    now destruct (0 <? i).
  - revert h. induction fields as [|[n [v|vs]] fields IH]; intro h; simpl;
      [reflexivity|now rewrite IH|].
    rewrite fold_left_app, IH. f_equal. unfold Http.append_field. simpl.
    clear IH. revert h. induction vs as [|v vs IHv]; intro h; simpl; auto.
Qed.

Lemma WF_tail k g (r : Headers) : WF ((k, g) :: r) -> WF r.
Proof.
  intros [H1 H2]. simpl in H1. apply NoDup_cons_iff in H1 as [_ H1].
  constructor; [exact H1|]. intros k' g' Hin. apply H2. now right.
Qed.

Lemma keyed_all key g :
  (forall e, In e g -> toLowerCase (fst e) = key) -> keyed key g = g.
Proof.
  intro H. unfold Http.keyed. apply forallb_filter_id.
  apply forallb_forall. intros e He. apply String.eqb_eq. now apply H.
Qed.

Lemma keyed_none key k g :
  (forall e, In e g -> toLowerCase (fst e) = k) -> k <> key -> keyed key g = [].
Proof.
  intros H Hk. unfold Http.keyed.
  induction g as [|e g IH]; simpl; [reflexivity|].
  rewrite (H e (or_introl eq_refl)).
  destruct (String.eqb k key) eqn:E; [apply String.eqb_eq in E; contradiction|].
  apply IH. intros e' He'. apply H. now right.
Qed.

Lemma keyed_app key l l' : keyed key (l ++ l') = keyed key l ++ keyed key l'.
Proof. unfold Http.keyed. apply filter_app. Qed.

Lemma WF_keyed (h : Headers) :
  WF h -> forall key, keyed key (entries h) = group h key.
Proof.
  induction h as [|[k g] r IH]; intros H key; [reflexivity|].
  pose proof (@WF_tail k g r H) as Hr.
  destruct (wf_group H k g (or_introl eq_refl)) as [_ Hg].
  pose proof (wf_keys H) as Hn. simpl in Hn. apply NoDup_cons_iff in Hn as [Hk _].
  change (entries ((k, g) :: r)) with (g ++ entries r).
  rewrite keyed_app, (IH Hr). unfold group. simpl.
  destruct (String.eqb k key) eqn:E.
  - apply String.eqb_eq in E. subst key.
    rewrite (@keyed_all k g Hg).
    rewrite (JsMapKeys.get_None_keys String.eqb String.eqb_eq r k Hk).
    apply app_nil_r.
  - apply String.eqb_neq in E. now rewrite (@keyed_none key k g Hg E).
Qed.

Lemma names_skip seen g rest key :
  (forall e, In e g -> toLowerCase (fst e) = key) ->
  existsb (String.eqb key) seen = true ->
  names seen (g ++ rest) = names seen rest.
Proof.
  intros Hg Hs. induction g as [|e g IH]; simpl; [reflexivity|].
  rewrite (Hg e (or_introl eq_refl)), Hs. apply IH.
  intros e' He'. apply Hg. now right.
Qed.

Lemma existsb_eqb_In k l : existsb (String.eqb k) l = true <-> In k l.
Proof.
  rewrite existsb_exists. split.
  - intros [x [Hx E]]. apply String.eqb_eq in E. now subst.
  - intro H. exists k. split; [exact H|apply String.eqb_refl].
Qed.

Lemma WF_names (h : Headers) : forall seen,
  WF h -> (forall k, In k (JsMap.keys h) -> ~ In k seen) ->
  names seen (entries h) = JsMap.keys h.
Proof.
  induction h as [|[k g] r IH]; intros seen H Hd; [reflexivity|].
  pose proof (@WF_tail k g r H) as Hr.
  destruct (wf_group H k g (or_introl eq_refl)) as [Hne Hg].
  pose proof (wf_keys H) as Hn. simpl in Hn. apply NoDup_cons_iff in Hn as [Hk _].
  change (entries ((k, g) :: r)) with (g ++ entries r).
  destruct g as [|e g]; [now elim Hne|].
  simpl. rewrite (Hg e (or_introl eq_refl)).
  destruct (existsb (String.eqb k) seen) eqn:E.
  - apply existsb_eqb_In in E. elim (Hd k (or_introl eq_refl) E).
  - f_equal. rewrite (@names_skip (k :: seen) g (entries r) k).
    + apply IH; [exact Hr|]. intros k' Hin [<-|Hs]; [contradiction|].
      exact (Hd k' (or_intror Hin) Hs).
    + intros e' He'. apply Hg. now right.
    + simpl. now rewrite String.eqb_refl.
Qed.

(** X15. [extend(init)], and so [new Headers(init)], for each form of
    [init] (another container, an array of pairs and of "Name: value"
    lines, a record): the values of a header afterwards are its earlier
    values followed by the values [init] gives to any spelling of its
    name, in the order [init] lists them.  A line without a colon, or with
    the colon first, gives nothing. *)
Theorem extend_merges_values (h : Headers) (init : HeadersInit) (name : string) :
  getAll (extend h init) name = getAll h name ++ values_of name (pairs_of init) /\
  getAll (create (Some init)) name = values_of name (pairs_of init) /\
  get (create (Some init)) name = hd_error (values_of name (pairs_of init)).
Proof.
  unfold Http.create. rewrite !extend_pairs. rewrite !getAll_fold.
  split; [reflexivity|]. split; [reflexivity|].
  assert (Hw : WF (fold_left append_entry (pairs_of init) empty)).
  { apply WF_fold; [|apply WF_empty]. intros h' [n v] H'. now apply WF_append. }
  pose proof (getAll_fold (pairs_of init) empty name) as Hg.
  unfold Http.getAll, Http.get in *.
  destruct (JsMap.get String.eqb (fold_left append_entry (pairs_of init) empty)
              (toLowerCase name)) as [g|] eqn:E.
  - simpl in Hg. rewrite <- Hg.
    apply (JsMapFacts.get_In String.eqb String.eqb_eq) in E.
    destruct (wf_group Hw _ _ E) as [Hne _].
    destruct g as [|[n v] g]; [now elim Hne|reflexivity].
  - simpl in Hg. now rewrite <- Hg.
Qed.

(** X16. The order in which a container lists its entries, and so the
    order of the lines [toCurlHeaders] gives to the engine: the headers
    come grouped by name, the names in the order in which each first
    occurred in [init], and under each name its entries in the order
    given, with the spelling each was given in.  Entries of one name that
    were given apart are brought together. *)
Theorem entries_grouped_by_name (init : HeadersInit) :
  let given := pairs_of init in
  entries (create (Some init)) =
    flat_map (fun key => keyed key given) (names [] given) /\
  toCurlHeaders (create (Some init)) =
    map (fun e => fst e ++ ": " ++ snd e)%string
      (flat_map (fun key => keyed key given) (names [] given)).
Proof.
  intro given.
  assert (E : entries (create (Some init)) =
              flat_map (fun key => keyed key given) (names [] given)).
  { unfold Http.create. rewrite extend_pairs. fold given.
    assert (Hw : WF (fold_left append_entry given empty)).
    { apply WF_fold; [|apply WF_empty]. intros h' [n v] H'. now apply WF_append. }
    rewrite (@entries_groups _ (wf_keys Hw)), keys_fold. simpl.
    apply flat_map_ext. intro key. now rewrite group_fold. }
  split; [exact E|]. unfold toCurlHeaders. now rewrite E.
Qed.

Lemma rebuilt_from_entries (h : Headers) :
  WF h -> fold_left append_entry (entries h) empty = h.
Proof.
  intro Hw.
  assert (Hc : WF (fold_left append_entry (entries h) empty)).
  { apply WF_fold; [|apply WF_empty]. intros h' [n v] H'. now apply WF_append. }
  rewrite (@rebuild _ (wf_keys Hc)), keys_fold. simpl.
  rewrite (@WF_names h [] Hw) by (intros k _ []).
  etransitivity; [|symmetry; exact (@rebuild h (wf_keys Hw))].
  apply map_ext. intro key. now rewrite group_fold, WF_keyed.
Qed.

(** X17. Every container the class builds (from nothing, by [set],
    [append], [delete] and [extend] in any order) is equal to its
    [clone()] and to [new Headers(itself)]: same names in the same order,
    same entries. *)
Theorem clone_is_an_equal_copy (l : list Update) :
  let h := updates empty l in
  clone h = h /\ create (Some (OfHeaders h)) = h.
Proof.
  intro h.
  assert (Hw : WF h) by (apply WF_updates, WF_empty).
  split; exact (rebuilt_from_entries Hw).
Qed.

Lemma WF_values (h : Headers) : WF h -> List.length (values h) = size h.
Proof.
  induction h as [|[k g] r IH]; intro Hw; [reflexivity|].
  destruct (wf_group Hw k g (or_introl eq_refl)) as [Hne _].
  unfold values, size, JsMap.size in *. simpl.
  destruct g as [|[n v] g]; [now elim Hne|]. simpl.
  f_equal. apply IH. exact (@WF_tail k _ r Hw).
Qed.

Lemma WF_entries (h : Headers) e :
  WF h -> In e (entries h) -> In (toLowerCase (fst e)) (keys h).
Proof.
  intros Hw He. unfold entries in He. apply in_concat in He as [g [Hg He]].
  unfold JsMap.values in Hg. apply in_map_iff in Hg as [[k g'] [<- Hin]].
  simpl in He. rewrite (proj2 (wf_group Hw _ _ Hin) e He).
  unfold keys, JsMap.keys. now apply (in_map fst) in Hin.
Qed.

(** X18. In every container the class builds, the three lookups agree:
    a name is present exactly when it has a value, [get] is the first
    element of [getAll], [values()] has one element per name, and no
    lower-case name occurs twice among the keys, each being the
    lower-case form of the names stored under it. *)
Theorem lookups_agree (l : list Update) (name : string) :
  let h := updates empty l in
  (has h name = true <-> getAll h name <> []) /\
  get h name = hd_error (getAll h name) /\
  List.length (values h) = size h /\
  NoDup (keys h) /\
  (forall e, In e (entries h) -> In (toLowerCase (fst e)) (keys h)).
Proof.
  intro h.
  assert (Hw : WF h) by (apply WF_updates, WF_empty).
  split; [|split; [|split; [exact (WF_values Hw)|split; [exact (wf_keys Hw)|]]]].
  - unfold Http.has, Http.getAll.
    destruct (JsMap.get String.eqb h (toLowerCase name)) as [g|] eqn:E.
    + apply (JsMapFacts.get_In String.eqb String.eqb_eq) in E.
      destruct (wf_group Hw _ _ E) as [Hne _].
      destruct g; [now elim Hne|]. split; [discriminate|reflexivity].
    + split; [discriminate|intro H; now elim H].
  - unfold Http.get, Http.getAll.
    destruct (JsMap.get String.eqb h (toLowerCase name)) as [[|[n v] g]|];
      reflexivity.
  - intros e He. exact (@WF_entries h e Hw He).
Qed.

(** *** Writing the header lines and reading them back *)

Lemma index_colon name rest :
  free ":" name = true ->
  index 0 ":" (name ++ String ":" rest) = Some (String.length name).
Proof.
  induction name as [|c name IH]; intro H.
  - simpl. now destruct rest.
  - simpl in H. apply andb_prop in H as [Hc H].
    change (String c name ++ String ":" rest)%string
      with (String c (name ++ String ":" rest)).
    cbn [index prefix String.length].
    destruct (ascii_dec ":" c) as [E|E].
    + subst c. discriminate Hc.
    + now rewrite (IH H).
Qed.

Lemma substring_name name rest :
  substring 0 (String.length name) (name ++ rest) = name.
Proof.
  induction name as [|c name IH]; simpl; [now destruct rest|now rewrite IH].
Qed.

Lemma substring_all s : substring 0 (String.length s) s = s.
Proof. induction s as [|c s IH]; simpl; [reflexivity|now rewrite IH]. Qed.

Lemma substring_value name rest :
  substring (S (String.length name))
    (String.length (name ++ String ":" rest) - S (String.length name))
    (name ++ String ":" rest) = rest.
Proof.
  induction name as [|c name IH]; simpl.
  - rewrite Nat.sub_0_r. apply substring_all.
  - exact IH.
Qed.

Lemma prefix_line p name c rest :
  free c p = true -> prefix p name = false ->
  prefix p (name ++ String c rest) = false.
Proof.
  revert name. induction p as [|a p IH]; intros name Hf Hp.
  - destruct name; discriminate Hp.
  - simpl in Hf. apply andb_prop in Hf as [Ha Hf].
    destruct name as [|b name].
    + cbn [String.append prefix].
      destruct (ascii_dec a c) as [E|E]; [|reflexivity].
      subst c. rewrite Ascii.eqb_refl in Ha. discriminate Ha.
    + cbn [String.append prefix] in *.
      destruct (ascii_dec a b); [|reflexivity]. now apply IH.
Qed.

Lemma append_line_plain (h : Headers) e :
  plain e ->
  append_line h (fst e ++ ": " ++ snd e) = append_entry h e /\
  (String.eqb (fst e ++ ": " ++ snd e) "" || prefix "HTTP/" (fst e ++ ": " ++ snd e))
    = false.
Proof.
  destruct e as [n v]. unfold Http.plain. simpl.
  intros [Hne [Hc [_ [_ [Hp [Hn Hv]]]]]]. split.
  - unfold Http.append_line. rewrite (@index_colon n _ Hc).
    destruct n as [|c n]; [now elim Hne|].
    change (0 <? String.length (String c n)) with true. cbv iota.
    rewrite substring_name, substring_value, Hn, Hv. reflexivity.
  - apply orb_false_iff. split.
    + destruct n; [now elim Hne|reflexivity].
    + now apply prefix_line.
Qed.

Lemma free_app c a b : free c (a ++ b) = free c a && free c b.
Proof. induction a as [|x a IH]; simpl; [reflexivity|]. now rewrite IH, andb_assoc. Qed.

Lemma piece_cons current c :
  piece (c :: current) = (piece current ++ String c "")%string.
Proof.
  unfold piece. simpl.
  induction (rev current) as [|x l IH]; simpl; [reflexivity|now rewrite IH].
Qed.

Lemma append_assoc a b c : ((a ++ b) ++ c = a ++ (b ++ c))%string.
Proof. induction a as [|x a IH]; simpl; [reflexivity|now rewrite IH]. Qed.

Lemma append_nil_r a : (a ++ "" = a)%string.
Proof. induction a as [|x a IH]; simpl; [reflexivity|now rewrite IH]. Qed.

(** Reading a line that has no line feed, up to what follows it. *)
Lemma split_lines_line line : forall current rest,
  free "010" line = true ->
  split_lines current (line ++ rest) =
  split_lines (rev (list_ascii_of_string line) ++ current) rest.
Proof.
  induction line as [|c line IH]; intros current rest H; simpl in *; [reflexivity|].
  apply andb_prop in H as [Hc H].
  destruct (Ascii.eqb c "010"); [discriminate Hc|].
  rewrite (IH (c :: current) rest H), <- app_assoc. reflexivity.
Qed.

Lemma piece_line line :
  piece (rev (list_ascii_of_string line)) = line.
Proof.
  unfold piece. rewrite rev_involutive. apply string_of_list_ascii_of_string.
Qed.

Lemma split_lines_join lines : forall line,
  Forall (fun l => free "010" l = true) (line :: lines) ->
  split_lines [] (String.concat CRLF (line :: lines)) = line :: lines.
Proof.
  induction lines as [|next lines IH]; intros line H.
  - apply Forall_cons_iff in H as [H _]. simpl.
    rewrite <- (append_nil_r line) at 1.
    rewrite (@split_lines_line line [] "" H), app_nil_r. simpl.
    now rewrite piece_line.
  - apply Forall_cons_iff in H as [H Hrest].
    change (String.concat CRLF (line :: next :: lines))
      with (line ++ CRLF ++ String.concat CRLF (next :: lines))%string.
    rewrite (@split_lines_line line [] _ H), app_nil_r.
    unfold CRLF at 1. cbn [String.append split_lines].
    change (Ascii.eqb "013" "010") with false.
    change (Ascii.eqb "010" "010") with true. cbv iota.
    rewrite piece_line. f_equal. now apply IH.
Qed.

Lemma fromRaw_lines l : forall h : Headers,
  Forall plain l ->
  fold_left
    (fun h line =>
       if String.eqb line "" || prefix "HTTP/" line then h
       else append_line h line)
    (map (fun e => fst e ++ ": " ++ snd e)%string l) h
  = fold_left append_entry l h.
Proof.
  induction l as [|e l IH]; intros h H; cbn [fold_left map]; [reflexivity|].
  apply Forall_cons_iff in H as [He H].
  destruct (@append_line_plain h e He) as [E1 E2].
  rewrite E2, E1. now apply IH.
Qed.

(** X19. [Headers.fromRaw] reads back what [toString] writes: for every
    container the class builds whose entries are plain (a non-empty name
    without colon that does not begin with "HTTP/", no line feed in name
    or value, nothing for [trim] to remove), [fromRaw(h.toString())] is
    equal to [h]. *)
Theorem fromRaw_reads_toString (l : list Update) :
  let h := updates empty l in
  Forall plain (entries h) -> fromRaw (toString h) = h.
Proof.
  intros h Hp.
  assert (Hc : fold_left append_entry (entries h) empty = h).
  { apply rebuilt_from_entries. apply WF_updates, WF_empty. }
  unfold Http.fromRaw, toString, toCurlHeaders.
  assert (Hf : Forall (fun l => free "010" l = true)
                 (map (fun e => fst e ++ ": " ++ snd e)%string (entries h))).
  { apply Forall_map. apply Forall_forall. intros [n v] Hin.
    rewrite Forall_forall in Hp. destruct (Hp _ Hin) as [_ [_ [Hn [Hv _]]]].
    simpl in *. rewrite !free_app. simpl. now rewrite Hn, Hv. }
  destruct (map (fun e => fst e ++ ": " ++ snd e)%string (entries h))
    as [|line lines] eqn:E.
  - destruct (entries h); [exact Hc|discriminate E].
  - rewrite (split_lines_join Hf), <- E.
    rewrite (@fromRaw_lines (entries h) empty Hp). exact Hc.
Qed.

(** *** [parseHeaderValue] *)

Lemma scan_plain part : forall s,
  free "," part = true -> free quote part = true ->
  fold_left scan (list_ascii_of_string part) s =
  {| result := result s; current := current s ++ part; inQuotes := inQuotes s |}.
Proof.
  induction part as [|c part IH]; intros s Hc Hq; simpl.
  - rewrite append_nil_r. now destruct s.
  - simpl in Hc, Hq. apply andb_prop in Hc as [Hc Hc'].
    apply andb_prop in Hq as [Hq Hq'].
    rewrite IH by assumption. unfold Http.scan at 1 2 3.
    apply negb_true_iff in Hc, Hq. rewrite Hc, Hq. simpl.
    now rewrite append_assoc.
Qed.

Lemma scan_quoted part : forall s,
  free quote part = true -> inQuotes s = true ->
  fold_left scan (list_ascii_of_string part) s =
  {| result := result s; current := current s ++ part; inQuotes := true |}.
Proof.
  induction part as [|c part IH]; intros s Hq Hs; simpl.
  - rewrite append_nil_r. destruct s. simpl in Hs. now subst.
  - simpl in Hq. apply andb_prop in Hq as [Hq Hq'].
    apply negb_true_iff in Hq.
    assert (E : scan s c = {| result := result s;
                              current := current s ++ String c "";
                              inQuotes := true |}).
    { unfold Http.scan. rewrite Hq, Hs, andb_false_r. reflexivity. }
    rewrite E, IH by auto. simpl. now rewrite append_assoc.
Qed.

Lemma list_ascii_app a b :
  list_ascii_of_string (a ++ b) = list_ascii_of_string a ++ list_ascii_of_string b.
Proof. induction a as [|c a IH]; simpl; [reflexivity|now rewrite IH]. Qed.

Lemma scan_parts parts : forall last s,
  Forall (fun p => free "," p = true /\ free quote p = true) (parts ++ [last]) ->
  inQuotes s = false -> current s = ""%string ->
  fold_left scan (list_ascii_of_string (String.concat "," (parts ++ [last]))) s =
  {| result := result s ++ map trim parts; current := last; inQuotes := false |}.
Proof.
  induction parts as [|p parts IH]; intros last s H Hq Hc.
  - apply Forall_cons_iff in H as [[H1 H2] _]. simpl.
    rewrite scan_plain by assumption. rewrite Hq, Hc, app_nil_r. reflexivity.
  - change ((p :: parts) ++ [last]) with (p :: parts ++ [last]) in *.
    apply Forall_cons_iff in H as [[H1 H2] H].
    assert (E : String.concat "," (p :: parts ++ [last]) =
                (p ++ String "," (String.concat "," (parts ++ [last])))%string).
    { simpl. now destruct (parts ++ [last]) eqn:D; [destruct parts; discriminate D|]. }
    rewrite E, list_ascii_app, fold_left_app, (@scan_plain p s H1 H2).
    cbn [list_ascii_of_string fold_left]. unfold Http.scan at 2. cbn [inQuotes current result].
    rewrite Hq. change (Ascii.eqb "," quote) with false.
    change (Ascii.eqb "," ",") with true. cbn [andb negb].
    rewrite IH by (auto; reflexivity). cbn [result]. rewrite Hc. simpl.
    now rewrite <- app_assoc.
Qed.

Lemma scan_quoted_value inner :
  free quote inner = true ->
  fold_left scan
    (list_ascii_of_string (String quote (inner ++ String quote "")))
    {| result := []; current := ""; inQuotes := false |} =
  {| result := []; current := String quote (inner ++ String quote "");
     inQuotes := false |}.
Proof.
  intro Hi. cbn [list_ascii_of_string fold_left].
  assert (E : scan {| result := []; current := ""; inQuotes := false |} quote =
              {| result := []; current := String quote ""; inQuotes := true |}).
  { unfold Http.scan. now rewrite Ascii.eqb_refl. }
  rewrite E, list_ascii_app, fold_left_app.
  rewrite (@scan_quoted inner
             {| result := []; current := String quote ""; inQuotes := true |}
             Hi eq_refl).
  cbn [list_ascii_of_string fold_left result current inQuotes].
  unfold Http.scan. rewrite Ascii.eqb_refl. reflexivity.
Qed.

(** X20. [parseHeaderValue] cuts a value at the commas outside quotes
    only: a comma-separated list of parts that contain neither comma nor
    quote gives back the parts, each trimmed, an empty last part being
    dropped; and a value enclosed in one pair of quotes stays in one
    piece, commas included. *)
Theorem parseHeaderValue_splits_outside_quotes (parts : list string)
    (last inner : string) :
  Forall (fun p => free "," p = true /\ free quote p = true) (parts ++ [last]) ->
  free quote inner = true ->
  parseHeaderValue (String.concat "," (parts ++ [last])) =
    map trim parts ++ (if String.eqb last "" then [] else [trim last]) /\
  parseHeaderValue (String quote (inner ++ String quote "")) =
    [trim (String quote (inner ++ String quote ""))].
Proof.
  intros H Hi. split.
  - unfold Http.parseHeaderValue.
    rewrite (@scan_parts parts last
               {| result := []; current := ""; inQuotes := false |} H eq_refl eq_refl).
    cbn [result current app].
    destruct (String.eqb last ""); [now rewrite app_nil_r|reflexivity].
  - unfold Http.parseHeaderValue. rewrite (@scan_quoted_value inner Hi). reflexivity.
Qed.

End HeadersClass.

(** *** Sample runs *)

Import HeaderSamples.

Example names_are_case_insensitive :
  let h := updates lower strip empty
             [Set_ "content-type" "text/plain"; Set_ "Content-Type" "application/json"] in
  get lower h "CONTENT-TYPE" = Some "application/json"%string /\
  getAll lower h "content-type" = ["application/json"%string] /\
  size h = 1.
Proof. vm_compute. repeat split. Qed.

Example entries_are_regrouped :
  toCurlHeaders (updates lower strip empty accept_twice) =
    ["Accept: text/html"; "ACCEPT: */*"; "Content-Type: text/plain"]%string.
Proof. vm_compute. reflexivity. Qed.

Example response_head_parsed :
  let h := fromRaw lower strip response_head in
  entries h =
    [("Content-Type", "application/json"); ("Set-Cookie", "a=1");
     ("set-cookie", "b=2")]%string /\
  getAll lower h "Set-Cookie" = ["a=1"; "b=2"]%string.
Proof. vm_compute. split; reflexivity. Qed.

Lemma fromRaw_reads_toString_witness :
  let h := updates lower strip empty accept_twice in
  toString h =
    ("Accept: text/html" ++ CRLF ++ "ACCEPT: */*" ++ CRLF ++
     "Content-Type: text/plain")%string /\
  fromRaw lower strip (toString h) = h.
Proof.
  assert (Hp : Forall (plain strip)
                 (entries (updates lower strip empty accept_twice))).
  { vm_compute. repeat constructor; discriminate. }
  generalize (@fromRaw_reads_toString lower strip accept_twice Hp).
  vm_compute. intro H. split; [reflexivity|exact H].
Defined.

Lemma parseHeaderValue_splits_outside_quotes_witness :
  parseHeaderValue strip "gzip, deflate ,br" = ["gzip"; "deflate"; "br"]%string /\
  parseHeaderValue strip (String quote ("a,b" ++ String quote "")) =
    [String quote ("a,b" ++ String quote "")].
Proof.
  assert (H : Forall (fun p => free "," p = true /\ free quote p = true)
                (["gzip"; " deflate "]%string ++ ["br"%string])).
  { repeat constructor. }
  generalize (@parseHeaderValue_splits_outside_quotes strip
                ["gzip"; " deflate "]%string "br" "a,b" H eq_refl).
  vm_compute. intros [H1 H2]. split; assumption.
Defined.

End HttpFacts.

(* ------------------------------------------------------------------ *)
(** ** The transfer object *)

Module EasyFacts.
Import Easy.

Section Class.
Variable K : Constants.
Variable O : Options.

Local Abbreviation setOpt := (setOpt K).
Local Abbreviation setHeaders := (setHeaders K O).
Local Abbreviation exec := (exec K O).
Local Abbreviation run := (run K O).
Local Abbreviation throws := (throws K O).
Local Abbreviation perform := (perform K).

(** *** The two loops over string lists *)

Lemma fold_free l : forall c,
  fold_left SList_free l c =
  {| handle := handle c; _callbacks := _callbacks c; _slists := _slists c;
     _buffers := _buffers c; native := native c ++ frees l |}.
Proof.
  induction l as [|s l IH]; intro c; simpl.
  - rewrite app_nil_r. now destruct c.
  - rewrite IH. unfold SList_free.
    destruct (pointer s); simpl; [now rewrite <- app_assoc|reflexivity].
Qed.

Lemma last_cons (A : Type) (l : list A) : forall x d, last (x :: l) d = last l x.
Proof.
  induction l as [|y l IH]; intros x d; [reflexivity|].
  change (last (x :: y :: l) d) with (last (y :: l) d).
  now rewrite !IH.
Qed.

Lemma fold_append headers : forall s c,
  fold_left SList_append headers (s, c) =
  ({| pointer := last (map snd headers) (pointer s) |},
   {| handle := handle c; _callbacks := _callbacks c; _slists := _slists c;
      _buffers := _buffers c;
      native := native c ++ appends (pointer s) headers |}).
Proof.
  induction headers as [|hd rest IH]; intros s c.
  - simpl. rewrite app_nil_r. now destruct s, c.
  - cbn [fold_left]. unfold SList_append at 2. cbn [fst snd].
    rewrite IH. cbn [pointer handle _callbacks _slists _buffers native call].
    rewrite <- app_assoc. cbn [map]. now rewrite last_cons.
Qed.

Lemma freed_app l l' : freed (l ++ l') = freed l ++ freed l'.
Proof. unfold freed. apply flat_map_app. Qed.

Lemma freed_appends head headers : freed (appends head headers) = [].
Proof. revert head. induction headers as [|hd r IH]; intro head; simpl; auto. Qed.

Lemma freed_frees l :
  freed (frees l) =
  flat_map (fun s => match pointer s with Some p => [p] | None => [] end) l.
Proof.
  induction l as [|s l IH]; simpl; [reflexivity|].
  unfold frees in *. simpl. rewrite freed_app, IH.
  now destruct (pointer s).
Qed.

(** The fields after [setOpt]. *)
Lemma setOpt_fields c option value code :
  let c' := fst (setOpt c option value code) in
  handle c' = handle c /\ _slists c' = _slists c /\
  _callbacks c' = _callbacks c /\
  exists ext, native c' = native c ++ ext /\ freed ext = [] /\
    Forall (fun x => is_cleanup x = false /\ handle_of x = handle c) ext /\
    (handle c = None -> ext = []).
Proof.
  unfold Easy.setOpt.
  destruct value; destruct (handle c) as [h|] eqn:Hh; simpl;
    repeat split; auto;
    try (exists []; rewrite app_nil_r; repeat split; auto; fail);
    (eexists; split; [reflexivity|]; repeat split; auto; discriminate).
Qed.

(** *** The handle is not used after its release *)

Lemma frees_quiet l P :
  (forall p, P (curl_slist_free_all p)) -> Forall P (frees l).
Proof.
  intro H. unfold frees. induction l as [|s l IH]; simpl; [constructor|].
  destruct (pointer s); simpl; [constructor|]; auto.
Qed.

Lemma appends_quiet head headers P :
  (forall l v, P (curl_slist_append l v)) -> Forall P (appends head headers).
Proof.
  intro H. revert head. induction headers as [|hd r IH]; intro head; simpl;
    constructor; auto.
Qed.

Lemma ok_quiet h x : handle_of x = None -> ok h x.
Proof. intro H. split; [now destruct x|now left]. Qed.

Lemma setOpt_open h c option value code :
  handle c = Some h ->
  handle (fst (setOpt c option value code)) = Some h /\
  exists ext, native (fst (setOpt c option value code)) = native c ++ ext /\
              Forall (ok h) ext.
Proof.
  intro Hh. destruct (setOpt_fields c option value code) as [E1 [_ [_ [ext [E2 [_ [E3 _]]]]]]].
  split; [congruence|]. exists ext. split; [exact E2|].
  eapply Forall_impl; [|exact E3]. intros x [Hx Hy]. split; [exact Hx|].
  right. congruence.
Qed.

Lemma setOpt_released c option value code :
  handle c = None ->
  fst (setOpt c option value code) = c /\
  (snd (setOpt c option value code) = Returns tt \/
   snd (setOpt c option value code) = Throws HandleIsNull).
Proof. intro Hh. unfold Easy.setOpt. rewrite Hh. destruct value; auto. Qed.

Lemma step_open h c a :
  handle c = Some h -> a <> Cleanup ->
  handle (exec c a) = Some h /\
  exists ext, native (exec c a) = native c ++ ext /\ Forall (ok h) ext.
Proof.
  intros Hh Ha. destruct a as [o v k|cb k|cb k|hs k|k| |ans|]; simpl.
  - now apply setOpt_open.
  - unfold setWriteFunction. now apply (@setOpt_open h (push_callback cb c)).
  - unfold setHeaderFunction. now apply (@setOpt_open h (push_callback cb c)).
  - unfold Easy.setHeaders. destruct hs as [|hd tl].
    + simpl. split; [exact Hh|]. exists []. now rewrite app_nil_r.
    + rewrite fold_append. cbn [fst snd pointer].
      match goal with |- context [Easy.setOpt K ?c' ?o ?v k] =>
        destruct (@setOpt_open h c' o v k Hh) as [E1 [ext [E2 E3]]] end.
      split; [exact E1|].
      exists (appends None (hd :: tl) ++ ext). rewrite E2.
      cbn [native push_slist]. rewrite <- app_assoc. split; [reflexivity|].
      apply Forall_app. split; [|exact E3].
      apply appends_quiet. intros. now apply ok_quiet.
  - unfold Easy.perform. rewrite Hh. simpl. split; [exact Hh|].
    exists [curl_easy_perform h]. split; [reflexivity|].
    constructor; [|constructor]. split; [reflexivity|now right].
  - unfold reset. rewrite Hh, fold_free. simpl. split; [exact Hh|].
    exists (frees (_slists c) ++ [curl_easy_reset h]).
    rewrite <- app_assoc. split; [reflexivity|].
    apply Forall_app. split.
    + apply frees_quiet. intros. now apply ok_quiet.
    + constructor; [|constructor]. split; [reflexivity|now right].
  - unfold dupHandle. rewrite Hh.
    assert (G : handle (call (curl_easy_duphandle h) c) = Some h /\
                exists ext, native (call (curl_easy_duphandle h) c) = native c ++ ext /\
                            Forall (ok h) ext).
    { split; [exact Hh|]. exists [curl_easy_duphandle h]. split; [reflexivity|].
      constructor; [|constructor]. split; [reflexivity|now right]. }
    destruct ans; exact G.
  - now elim Ha.
Qed.

Lemma step_released c a :
  handle c = None ->
  handle (exec c a) = None /\
  (exists ext, native (exec c a) = native c ++ ext /\
               Forall (fun x => handle_of x = None) ext) /\
  (throws c a = None \/ throws c a = Some HandleIsNull).
Proof.
  intro Hh.
  assert (Same : handle c = None /\
                 exists ext, native c = native c ++ ext /\
                             Forall (fun x => handle_of x = None) ext).
  { split; [exact Hh|]. exists []. now rewrite app_nil_r. }
  destruct a as [o v k|cb k|cb k|hs k|k| |ans|]; simpl.
  - destruct (@setOpt_released c o v k Hh) as [-> [->| ->]];
      (split; [exact Hh|split; [exact (proj2 Same)|auto]]).
  - unfold setWriteFunction.
    destruct (@setOpt_released (push_callback cb c) (CURLOPT_WRITEFUNCTION O)
                (VObject cb) k Hh) as [-> [->| ->]];
      simpl; (split; [exact Hh|split; [exact (proj2 Same)|auto]]).
  - unfold setHeaderFunction.
    destruct (@setOpt_released (push_callback cb c) (CURLOPT_HEADERFUNCTION O)
                (VObject cb) k Hh) as [-> [->| ->]];
      simpl; (split; [exact Hh|split; [exact (proj2 Same)|auto]]).
  - unfold Easy.setHeaders. destruct hs as [|hd tl];
      [simpl; split; [exact Hh|split; [exact (proj2 Same)|auto]]|].
    rewrite fold_append. cbn [fst snd pointer].
    match goal with |- context [Easy.setOpt K ?c' ?o ?v k] =>
      destruct (@setOpt_released c' o v k Hh) as [-> [->| ->]] end;
      cbn [fst snd handle native push_slist Easy.throws];
      (split; [exact Hh|split; [|auto]]);
      (exists (appends None (hd :: tl)); split; [reflexivity|]);
      apply appends_quiet; reflexivity.
  - unfold Easy.perform. rewrite Hh. simpl.
    split; [exact Hh|split; [exact (proj2 Same)|auto]].
  - unfold reset. rewrite Hh. simpl.
    split; [exact Hh|split; [exact (proj2 Same)|auto]].
  - unfold dupHandle. rewrite Hh. simpl.
    split; [exact Hh|split; [exact (proj2 Same)|auto]].
  - unfold cleanup. rewrite fold_free. simpl. rewrite Hh. simpl.
    split; [reflexivity|]. split; [|now left].
    exists (frees (_slists c)). split; [reflexivity|].
    apply frees_quiet. reflexivity.
Qed.

Lemma cleanup_open h c :
  handle c = Some h ->
  cleanup c =
  {| handle := None; _callbacks := []; _slists := []; _buffers := [];
     native := native c ++ frees (_slists c) ++ [curl_easy_cleanup h] |}.
Proof.
  intro Hh. unfold cleanup. rewrite fold_free. simpl. rewrite Hh.
  unfold set_handle, call. simpl. now rewrite <- app_assoc.
Qed.

Lemma Safe_exec h c a : Safe h c -> Safe h (exec c a).
Proof.
  intros [[Hh Hl]|[Hh [b [a0 [Hn [Hb Ha]]]]]].
  - destruct a as [o v k|cb k|cb k|hs k|k| |ans|] eqn:Ea;
      try (destruct (@step_open h c a Hh) as [E1 [ext [E2 E3]]];
           [rewrite Ea; discriminate|]; rewrite Ea in *;
           left; split; [exact E1|]; rewrite E2; apply Forall_app; now split).
    right. simpl. rewrite (@cleanup_open h c Hh). simpl. split; [reflexivity|].
    exists (native c ++ frees (_slists c)), []. rewrite <- app_assoc.
    split; [reflexivity|]. split; [|constructor].
    apply Forall_app. split; [exact Hl|].
    apply frees_quiet. intros. now apply ok_quiet.
  - destruct (@step_released c a Hh) as [E1 [[ext [E2 E3]] _]].
    right. split; [exact E1|]. exists b, (a0 ++ ext).
    rewrite E2, Hn, <- app_assoc. split; [reflexivity|].
    split; [exact Hb|]. apply Forall_app. now split.
Qed.

Lemma Safe_run h l : forall c, Safe h c -> Safe h (run c l).
Proof.
  induction l as [|a l IH]; intros c H; simpl; [exact H|].
  apply IH. now apply Safe_exec.
Qed.

Lemma split_at_release b a b' a' (x x' : NativeCall) :
  Forall (fun y => is_cleanup y = false) b ->
  Forall (fun y => is_cleanup y = false) a ->
  is_cleanup x = true -> is_cleanup x' = true ->
  b ++ x :: a = b' ++ x' :: a' -> b = b' /\ x = x' /\ a = a'.
Proof.
  intros Hb Ha Hx Hx'. revert b'. induction b as [|y b IH]; intros b' E.
  - destruct b' as [|z b']; simpl in E.
    + injection E as -> ->. auto.
    + injection E as <- E. exfalso.
      assert (Hin : In x' a) by (rewrite E; apply in_or_app; right; now left).
      rewrite Forall_forall in Ha. rewrite (Ha _ Hin) in Hx'. discriminate.
  - apply Forall_cons_iff in Hb as [Hy Hb].
    destruct b' as [|z b']; simpl in E.
    + injection E as -> _. congruence.
    + injection E as <- E. destruct (IH Hb b' E) as [-> [-> ->]]. auto.
Qed.

(** X21. The native handle of a transfer object is used by the object's
    own calls only and never after its release: in the log of any
    sequence of method calls, with any answers of the engine,
    [curl_easy_cleanup] occurs at most once, on the object's handle, and
    every call logged after it is a string-list call that names no handle.
    Once released, the object holds no handle, and every method either
    returns without touching a handle or throws "Curl handle is null". *)
Theorem released_handle_is_not_used (h h' : CurlHandle) (acts : list Action)
    (before after : list NativeCall) (next : Action) :
  let c := run (fromHandle h) acts in
  native c = before ++ curl_easy_cleanup h' :: after ->
  h' = h /\ handle c = None /\
  Forall (ok h) before /\ Forall (fun x => handle_of x = None) after /\
  handle (exec c next) = None /\
  (throws c next = None \/ throws c next = Some HandleIsNull).
Proof.
  intros c E.
  assert (S : Safe h c).
  { apply Safe_run. left. split; [reflexivity|constructor]. }
  destruct S as [[Hh Hl]|[Hh [b [a [Hn [Hb Ha]]]]]].
  - exfalso. rewrite E in Hl. rewrite Forall_forall in Hl.
    destruct (Hl (curl_easy_cleanup h')) as [Hc _]; [|discriminate Hc].
    apply in_or_app. right. now left.
  - rewrite Hn in E.
    assert (Hb' : Forall (fun y => is_cleanup y = false) b).
    { eapply Forall_impl; [|exact Hb]. now intros x [Hx _]. }
    assert (Ha' : Forall (fun y => is_cleanup y = false) a).
    { eapply Forall_impl; [|exact Ha]. intros x Hx. now destruct x. }
    destruct (@split_at_release b a before after (curl_easy_cleanup h)
                (curl_easy_cleanup h') Hb' Ha' eq_refl eq_refl E) as [<- [Ex <-]].
    injection Ex as <-.
    destruct (@step_released c next Hh) as [E1 [_ E3]].
    repeat split; auto.
Qed.

(** *** String lists *)

Lemma setOpt_lists c option value code :
  freed (native (fst (setOpt c option value code))) = freed (native c) /\
  owned (fst (setOpt c option value code)) = owned c.
Proof.
  destruct (setOpt_fields c option value code) as [_ [E1 [_ [ext [E2 [E3 _]]]]]].
  unfold owned. rewrite E1, E2, freed_app, E3, app_nil_r. auto.
Qed.

Lemma lists_step c a :
  freed (native (exec c a)) ++ owned (exec c a) =
  freed (native c) ++ owned c ++ kept [a].
Proof.
  destruct a as [o v k|cb k|cb k|hs k|k| |ans|]; cbn [Easy.exec kept flat_map];
    rewrite ?app_nil_r.
  - destruct (setOpt_lists c o v k) as [-> ->]. reflexivity.
  - unfold setWriteFunction.
    destruct (setOpt_lists (push_callback cb c) (CURLOPT_WRITEFUNCTION O)
                (VObject cb) k) as [-> ->]. reflexivity.
  - unfold setHeaderFunction.
    destruct (setOpt_lists (push_callback cb c) (CURLOPT_HEADERFUNCTION O)
                (VObject cb) k) as [-> ->]. reflexivity.
  - unfold Easy.setHeaders. destruct hs as [|hd tl]; [simpl; now rewrite app_nil_r|].
    rewrite fold_append. cbn [fst snd pointer].
    match goal with |- context [Easy.setOpt K ?c' ?o ?v k] =>
      destruct (setOpt_lists c' o v k) as [-> ->] end.
    unfold owned. cbn [native push_slist _slists].
    rewrite freed_app, freed_appends, app_nil_r, flat_map_app. simpl.
    now rewrite app_nil_r.
  - unfold Easy.perform. destruct (handle c); simpl;
      rewrite ?freed_app, ?app_nil_r; reflexivity.
  - unfold reset. destruct (handle c); [|reflexivity].
    rewrite fold_free. unfold owned. simpl.
    now rewrite !freed_app, freed_frees, app_nil_r, app_nil_r.
  - unfold dupHandle. destruct (handle c); [|reflexivity].
    destruct ans; simpl; rewrite ?freed_app, ?app_nil_r; reflexivity.
  - unfold cleanup. rewrite fold_free. unfold owned. simpl.
    destruct (handle c); simpl;
      now rewrite ?freed_app, freed_frees, ?app_nil_r.
Qed.

Lemma kept_app l l' : kept (l ++ l') = kept l ++ kept l'.
Proof. unfold kept. apply flat_map_app. Qed.

Lemma lists_run l : forall c,
  freed (native (run c l)) ++ owned (run c l) =
  freed (native c) ++ owned c ++ kept l.
Proof.
  induction l as [|a l IH]; intro c.
  - simpl. now rewrite !app_nil_r.
  - change (Easy.run K O c (a :: l)) with (Easy.run K O (Easy.exec K O c a) l).
    rewrite IH, app_assoc, lists_step.
    change (a :: l) with ([a] ++ l). rewrite kept_app.
    now rewrite <- !app_assoc.
Qed.

(** While no append fails the head of a list does not change, so the
    list an [SList] holds in the end is the one list that was built. *)
Lemma grown_from_list hs : forall q,
  grown (Some q) hs ->
  created (Some q) hs = [] /\ last (map snd hs) (Some q) = Some q.
Proof.
  induction hs as [|hd rest IH]; intros q H; [split; reflexivity|].
  cbn [grown] in H. cbn [created map].
  destruct (snd hd) as [p|]; [|contradiction]. destruct H as [-> H].
  destruct (IH q H) as [E1 E2]. split; [exact E1|].
  rewrite last_cons. exact E2.
Qed.

Lemma grown_built hs :
  grown None hs ->
  created None hs =
  match last (map snd hs) None with Some p => [p] | None => [] end.
Proof.
  destruct hs as [|hd rest]; intro H; [reflexivity|].
  cbn [grown] in H. cbn [created map].
  destruct (snd hd) as [p|]; [|contradiction].
  destruct (@grown_from_list rest p H) as [E1 E2].
  now rewrite last_cons, E1, E2.
Qed.

Lemma unfailing_built l : unfailing l -> built l = kept l.
Proof.
  induction 1 as [|a l Ha _ IH]; [reflexivity|].
  unfold built, kept in *. cbn [flat_map]. rewrite IH. f_equal.
  destruct a; try reflexivity. now apply grown_built.
Qed.

(** X22. As long as no [curl_slist_append] fails, every string list
    [setHeaders] builds is freed exactly once, by the next [reset] that
    runs or the next [cleanup], and in the order the lists were built: at
    any moment the lists given to [curl_slist_free_all] so far followed
    by the lists the object still holds are the lists the engine has
    built; after [cleanup] the object holds none, so all of them have
    been freed. *)
Theorem string_lists_freed_once (h : CurlHandle) (acts : list Action) :
  let c := run (fromHandle h) acts in
  unfailing acts ->
  freed (native c) ++ owned c = built acts /\
  owned (cleanup c) = [] /\
  freed (native (cleanup c)) = built acts.
Proof.
  intros c Hu.
  assert (E : freed (native c) ++ owned c = built acts).
  { unfold c. rewrite lists_run. now rewrite unfailing_built. }
  split; [exact E|].
  pose proof (lists_step c Cleanup) as Hs. simpl in Hs.
  assert (Ho : owned (cleanup c) = []).
  { unfold cleanup, owned. rewrite fold_free. simpl. now destruct (handle c). }
  split; [exact Ho|]. rewrite Ho, !app_nil_r in Hs. now rewrite Hs.
Qed.

(** *** Buffers given to the engine *)

Lemma in_use_app l l' : in_use (l ++ l') = fold_left passed l' (in_use l).
Proof. unfold in_use. apply fold_left_app. Qed.

Lemma passed_quiet ext : forall given,
  Forall (fun x => handle_of x = None) ext -> fold_left passed ext given = given.
Proof.
  induction ext as [|x ext IH]; intros given H; simpl; [reflexivity|].
  apply Forall_cons_iff in H as [Hx H]. rewrite (IH _ H).
  destruct x; try discriminate Hx; reflexivity.
Qed.

Lemma Held_setOpt c option value code :
  Held c -> Held (fst (setOpt c option value code)).
Proof.
  intros H. unfold Easy.setOpt.
  destruct value; try exact H;
    destruct (handle c) as [h|] eqn:Hh; try exact H;
    destruct H as [H1 H2]; split;
    try (cbn [fst handle call push_buffer]; intro E; rewrite Hh in E;
         discriminate E);
    cbn [fst native _buffers call push_buffer]; rewrite in_use_app;
    cbn [fold_left passed]; try exact H1.
  intros b Hb. apply in_app_or in Hb as [Hb|Hb]; apply in_or_app; auto.
Qed.

Lemma Held_same c c' :
  native c' = native c -> _buffers c' = _buffers c -> handle c' = handle c ->
  Held c -> Held c'.
Proof. intros E1 E2 E3 [H1 H2]. unfold Held. rewrite E1, E2, E3. auto. Qed.

Lemma Held_cleared c c' ext x :
  native c' = native c ++ ext ++ [x] ->
  (forall given, passed given x = []) -> Held c'.
Proof.
  intros E Hx. split.
  - rewrite E, app_assoc, in_use_app. simpl. rewrite Hx. intros b [].
  - intros _. rewrite E, app_assoc, in_use_app. simpl. apply Hx.
Qed.

Lemma Held_exec c a : Held c -> Held (exec c a).
Proof.
  intro H. destruct a as [o v k|cb k|cb k|hs k|k| |ans|]; simpl.
  - now apply Held_setOpt.
  - unfold setWriteFunction. apply Held_setOpt.
    now apply (@Held_same c (push_callback cb c)).
  - unfold setHeaderFunction. apply Held_setOpt.
    now apply (@Held_same c (push_callback cb c)).
  - unfold Easy.setHeaders. destruct hs as [|hd tl]; [exact H|].
    rewrite fold_append. cbn [fst snd pointer]. apply Held_setOpt.
    destruct H as [H1 H2].
    split; cbn [native _buffers handle push_slist];
      rewrite in_use_app, passed_quiet; auto; apply appends_quiet; reflexivity.
  - unfold Easy.perform. destruct (handle c) eqn:Hh; [|exact H].
    destruct H as [H1 H2]. split; simpl; [|rewrite Hh; discriminate].
    now rewrite in_use_app.
  - unfold reset. destruct (handle c) as [h|] eqn:Hh; [|exact H].
    rewrite fold_free. simpl.
    apply (@Held_cleared c _ (frees (_slists c)) (curl_easy_reset h));
      [simpl; now rewrite <- app_assoc|reflexivity].
  - unfold dupHandle. destruct (handle c) as [h|] eqn:Hh; [|exact H].
    assert (G : Held (call (curl_easy_duphandle h) c)).
    { destruct H as [H1 H2]. split; simpl; [|rewrite Hh; discriminate].
      now rewrite in_use_app. }
    destruct ans; exact G.
  - destruct (handle c) as [h|] eqn:Hh.
    + rewrite (@cleanup_open h c Hh).
      apply (@Held_cleared c _ (frees (_slists c)) (curl_easy_cleanup h));
        [reflexivity|reflexivity].
    + unfold cleanup. rewrite fold_free. simpl. rewrite Hh.
      destruct H as [H1 H2]. specialize (H2 Hh).
      assert (E : in_use (native c ++ frees (_slists c)) = []).
      { rewrite in_use_app, passed_quiet; [exact H2|].
        apply frees_quiet. reflexivity. }
      split; simpl; [rewrite E; intros b []|intros _; exact E].
Qed.

(** X23. A [Buffer] given to [setOpt] stays referenced by the object for
    as long as the engine may use it: after any sequence of method calls,
    every buffer that was handed to [curl_easy_setopt_ptr] since the
    options were last reset (by [curl_easy_reset] or by the release of the
    handle) is in [_buffers], so the garbage collector cannot take it. *)
Theorem buffers_in_use_are_held (h : CurlHandle) (acts : list Action) (b : nat) :
  let c := run (fromHandle h) acts in
  In b (in_use (native c)) -> In b (_buffers c).
Proof.
  intros c Hb.
  assert (H : Held c).
  { assert (G : forall l c0, Held c0 -> Held (run c0 l)).
    { induction l as [|a l IH]; intros c0 H0; simpl; [exact H0|].
      apply IH. now apply Held_exec. }
    apply G. split; [intros x []|reflexivity]. }
  exact (proj1 H b Hb).
Qed.

End Class.

(** *** Sample histories *)

Import EasySamples.

Lemma released_handle_is_not_used_witness :
  let c := run libcurl curlopts (fromHandle 4096%N) used_and_released in
  native c =
    [curl_easy_setopt_string 4096%N 10002 "wss://example.org";
     curl_slist_append None "A: 1"; curl_slist_append (Some 500%N) "B: 2";
     curl_easy_setopt_ptr 4096%N 10023 (VPointer 500%N);
     curl_easy_perform 4096%N; curl_slist_free_all 500%N]
    ++ curl_easy_cleanup 4096%N ::
    [curl_slist_append None "C: 3"; curl_slist_free_all 600%N] /\
  handle c = None /\
  throws libcurl curlopts c (Perform 0) = Some HandleIsNull.
Proof.
  generalize (@released_handle_is_not_used libcurl curlopts 4096%N 4096%N
    used_and_released
    [curl_easy_setopt_string 4096%N 10002 "wss://example.org";
     curl_slist_append None "A: 1"; curl_slist_append (Some 500%N) "B: 2";
     curl_easy_setopt_ptr 4096%N 10023 (VPointer 500%N);
     curl_easy_perform 4096%N; curl_slist_free_all 500%N]
    [curl_slist_append None "C: 3"; curl_slist_free_all 600%N]
    (Perform 0) eq_refl).
  vm_compute. intros [_ [H _]].
  split; [reflexivity|]. split; [exact H|reflexivity].
Defined.

Lemma string_lists_freed_once_witness :
  let c := run libcurl curlopts (fromHandle 4096%N) used_and_released in
  built used_and_released = [500%N; 600%N] /\
  freed (native c) = [500%N; 600%N] /\ owned c = [].
Proof.
  assert (Hu : unfailing used_and_released).
  { repeat constructor. }
  generalize (@string_lists_freed_once libcurl curlopts 4096%N
                used_and_released Hu).
  vm_compute. intros [H _]. repeat split.
Defined.

(** When an append fails, [SList.append] puts the null answer in place of
    the head: the list built so far is held by nothing, and neither
    [reset] nor [cleanup] frees it. *)
Example list_lost_when_append_fails :
  let c := run libcurl curlopts (fromHandle 4096%N) append_fails in
  built append_fails = [500%N] /\
  freed (native c) = [] /\ owned c = [] /\
  native c = [curl_slist_append None "A: 1"; curl_slist_append (Some 500%N) "B: 2";
              curl_easy_perform 4096%N; curl_easy_cleanup 4096%N].
Proof. vm_compute. repeat split. Qed.

Lemma buffers_in_use_are_held_witness :
  let c := run libcurl curlopts (fromHandle 4096%N)
             [SetOpt 10015 (VBuffer 7) 0; SetOpt 10015 (VBuffer 8) 43;
              Perform 0] in
  in_use (native c) = [7; 8] /\ In 8 (_buffers c).
Proof.
  generalize (@buffers_in_use_are_held libcurl curlopts 4096%N
    [SetOpt 10015 (VBuffer 7) 0; SetOpt 10015 (VBuffer 8) 43; Perform 0] 8).
  vm_compute. intro H. split; [reflexivity|].
  apply H. right. left. reflexivity.
Defined.

End EasyFacts.

(* ------------------------------------------------------------------ *)
(** ** The message reader *)

Module FfiFacts.
Import Bridge Ffi BridgeFacts.

Lemma decode_shift (mem : Memory) a n k : forall b,
  map (fun i => mem (a + N.of_nat i)%N) (seq (n + b) k) =
  map (fun i => mem (a + N.of_nat n + N.of_nat i)%N) (seq b k).
Proof.
  induction k as [|k IH]; intro b; [reflexivity|].
  cbn [seq map]. f_equal.
  - f_equal. lia.
  - rewrite <- IH. now rewrite Nat.add_succ_r.
Qed.

Lemma decode_app mem a n k :
  decode mem a (n + k) = decode mem a n ++ decode mem (a + N.of_nat n) k.
Proof.
  unfold decode. rewrite seq_app, map_app. f_equal.
  rewrite <- decode_shift. now rewrite Nat.add_0_r.
Qed.

Lemma to_N_byte_of_N n : (n < 256)%N -> Byte.to_N (byte_of_N n) = n.
Proof.
  intro H. unfold byte_of_N. destruct (Byte.of_N n) as [b|] eqn:E.
  - now apply Byte.to_of_N.
  - apply Byte.of_N_None_iff in E. lia.
Qed.

Lemma le_value_bytes n : forall v, le_value (le_bytes n v) = (v mod 256 ^ N.of_nat n)%N.
Proof.
  induction n as [|n IH]; intro v.
  - simpl. now rewrite N.mod_1_r.
  - cbn [le_bytes le_value]. rewrite IH, to_N_byte_of_N by (apply N.mod_lt; lia).
    rewrite Nat2N.inj_succ, N.pow_succ_r'.
    rewrite N.Div0.mod_mul_r. reflexivity.
Qed.

Lemma length_le_bytes n : forall v, List.length (le_bytes n v) = n.
Proof. induction n; intro v; simpl; [reflexivity|now rewrite IHn]. Qed.

Lemma signed_value (v : Z) :
  (- 2 ^ 31 <= v < 2 ^ 31)%Z ->
  let u := Z.of_N (Z.to_N (v mod 2 ^ 32) mod 256 ^ N.of_nat 4) in
  (if (u <? 2 ^ 31)%Z then u else (u - 2 ^ 32)%Z) = v.
Proof.
  intros Hv u.
  assert (Hm : (0 <= v mod 2 ^ 32 < 2 ^ 32)%Z) by (apply Z.mod_pos_bound; lia).
  assert (Eu : u = (v mod 2 ^ 32)%Z).
  { unfold u. change (256 ^ N.of_nat 4)%N with 4294967296%N.
    rewrite N.mod_small by lia. lia. }
  rewrite Eu.
  destruct (Z.ltb_spec (v mod 2 ^ 32) (2 ^ 31)) as [Hl|Hl].
  - destruct (Z_lt_le_dec v 0) as [Hn|Hn].
    + assert (E : (v mod 2 ^ 32 = v + 2 ^ 32)%Z).
      { symmetry. apply Z.mod_unique with (q := (-1)%Z); lia. }
      lia.
    + apply Z.mod_small. lia.
  - destruct (Z_lt_le_dec v 0) as [Hn|Hn].
    + assert (E : (v mod 2 ^ 32 = v + 2 ^ 32)%Z).
      { symmetry. apply Z.mod_unique with (q := (-1)%Z); lia. }
      lia.
    + rewrite Z.mod_small in Hl by lia. lia.
Qed.

(** Reading an [int] back from a buffer that holds it at [offset]. *)
Lemma readInt32LE_int32_bytes before v after :
  (- 2 ^ 31 <= v < 2 ^ 31)%Z ->
  readInt32LE (before ++ int32_bytes v ++ after) (List.length before) = Some v.
Proof.
  intro Hv. unfold readInt32LE.
  assert (Hl : List.length (int32_bytes v) = 4) by apply length_le_bytes.
  assert (Hf : firstn 4 (skipn (List.length before)
                           (before ++ int32_bytes v ++ after)) = int32_bytes v).
  { rewrite skipn_app, skipn_all, Nat.sub_diag. cbn [skipn app].
    rewrite <- Hl. rewrite firstn_app, Nat.sub_diag, firstn_all.
    cbn [firstn]. apply app_nil_r. }
  rewrite Hf, !length_app, Hl.
  destruct (Nat.leb_spec (List.length before + 4)
              (List.length before + (4 + List.length after))) as [_|H]; [|lia].
  unfold int32_bytes. rewrite le_value_bytes.
  f_equal. now apply signed_value.
Qed.

(** X25. The message reader returns what the engine wrote: when the
    pointer the engine returns is not null and a [CURLMsg] with message
    type [m], handle [h] and result [r] lies there (the two numbers as C
    [int]s in two's complement, negative ones included, the handle as a
    64-bit pointer), [curl_multi_info_read] returns without exception the
    message [{msg: m, easyHandle: h, result: r}] and the count of queued
    messages, whatever the padding bytes and the upper half of the union
    hold. *)
Theorem info_read_returns_the_message (mem : Memory) (p : N) (queued : Z)
    (m : Z) (h : N) (r : Z) :
  p <> 0%N ->
  (- 2 ^ 31 <= m < 2 ^ 31)%Z -> (h < 2 ^ 64)%N -> (- 2 ^ 31 <= r < 2 ^ 31)%Z ->
  lies mem p m h r ->
  curl_multi_info_read mem p queued =
    Some {| message := Some {| Multi.msg := m; Multi.easyHandle := h;
                               Multi.result := r |};
            msgsInQueue := queued |}.
Proof.
  intros Hp Hm Hh Hr [L1 L2 L3]. unfold curl_multi_info_read.
  destruct (N.eqb_spec p 0) as [E|_]; [contradiction|]. cbv zeta.
  assert (Ha : decode mem p 24 =
               [] ++ int32_bytes m ++ (decode mem (p + 4) 4 ++ le_bytes 8 h
                                       ++ int32_bytes r ++ decode mem (p + 20) 4)).
  { change 24 with (4 + (4 + (8 + (4 + 4)))).
    rewrite !decode_app, <- !N.add_assoc. cbn [app].
    change (N.of_nat 4 + (N.of_nat 4 + (N.of_nat 8 + N.of_nat 4)))%N with 20%N.
    change (N.of_nat 4 + (N.of_nat 4 + N.of_nat 8))%N with 16%N.
    change (N.of_nat 4 + N.of_nat 4)%N with 8%N.
    change (N.of_nat 4) with 4%N.
    now rewrite L1, L2, L3. }
  assert (Hb : decode mem p 24 =
               (int32_bytes m ++ decode mem (p + 4) 4 ++ le_bytes 8 h)
                 ++ int32_bytes r ++ decode mem (p + 20) 4).
  { rewrite Ha. cbn [app]. now rewrite <- !app_assoc. }
  assert (R0 : readInt32LE (decode mem p 24) 0 = Some m).
  { rewrite Ha. exact (@readInt32LE_int32_bytes [] m _ Hm). }
  assert (R16 : readInt32LE (decode mem p 24) 16 = Some r).
  { rewrite Hb.
    assert (E16 : 16 = List.length
                    (int32_bytes m ++ decode mem (p + 4) 4 ++ le_bytes 8 h)).
    { rewrite !length_app, decode_length. unfold int32_bytes.
      now rewrite !length_le_bytes. }
    pose proof (@readInt32LE_int32_bytes
                  (int32_bytes m ++ decode mem (p + 4) 4 ++ le_bytes 8 h) r
                  (decode mem (p + 20) 4) Hr) as Q.
    rewrite <- E16 in Q. exact Q. }
  rewrite R0, R16. unfold easy_handle. rewrite L2, le_value_bytes.
  rewrite N.mod_small; [reflexivity|].
  change (256 ^ N.of_nat 8)%N with (2 ^ 64)%N. exact Hh.
Qed.

(** *** A sample message *)

(** The transfer on handle 0x1000 is done with result -1, with a dirty
    padding and a dirty upper half of the union. *)
Lemma info_read_returns_the_message_witness :
  let mem :=
    memory_of 28672
      [x01; x00; x00; x00;  xaa; xbb; xcc; xdd;
       x00; x10; x00; x00; x00; x00; x00; x00;
       xff; xff; xff; xff;  x12; x34; x56; x78] in
  curl_multi_info_read mem 28672 2%Z =
    Some {| message := Some {| Multi.msg := 1%Z; Multi.easyHandle := 4096%N;
                               Multi.result := (-1)%Z |};
            msgsInQueue := 2%Z |}.
Proof.
  intro mem.
  apply (@info_read_returns_the_message mem 28672%N 2%Z 1%Z 4096%N (-1)%Z).
  - discriminate.
  - lia.
  - reflexivity.
  - lia.
  - split; vm_compute; reflexivity.
Defined.

End FfiFacts.
